(** * EVerest framework core: manager, sub-process helper, global error
      manager and framework singleton, embedded from the C++ sources.

    Conventions of the embedding.
    - C++ exceptions are values of [exn]; a function that may throw returns
      [exn + A] ([inl] is the thrown exception, [inr] the normal result).
    - Side effects on the outside world (log lines, the status FIFO, MQTT
      publications, signals sent to children, callback invocations) are
      recorded as lists, oldest entry first.
    - A [std::map] is a [gmap]; where its iteration order is observable
      (the children signalled by [shutdown_modules]) the keys are visited
      in ascending order.  The items of the main config are a list in
      iteration order.
    - Values decided outside the process (what the file system holds, what
      [fork], [read], [kill] and [waitpid] return) and what a callback
      handed in by a caller does when invoked (return or throw) are
      arguments of the embedded functions.
    - [EVLOG_debug] and [EVLOG_verbose] lines are not recorded, and log
      lines are recorded by format string and arguments, not as text. *)

From Stdlib Require Import ZArith Ascii String.
From stdpp Require Import gmap strings list sorting.

Open Scope Z_scope.

(** ** Shared vocabulary *)

(** The C++ exceptions thrown by the embedded code. *)
Inductive exn : Type :=
  | runtime_error (what : string)   (* std::runtime_error *)
  | logic_error (what : string)     (* std::logic_error *)
  | out_of_range (key : string)     (* std::map::at on a missing key *)
  | type_error (what : string)      (* nlohmann::json::type_error *)
  | assertion_failed (expr : string) (* assert(...) *)
  | bad_function_call.              (* std::bad_function_call *)

#[global] Instance exn_eq_dec : EqDecision exn.
Proof. solve_decision. Defined.

Definition EXIT_SUCCESS : Z := 0.
Definition EXIT_FAILURE : Z := 1.

(** Unsigned 64-bit ([size_t]) subtraction. *)
Definition size_t_sub (a b : Z) : Z := (a - b) mod 2 ^ 64.

Definition newline : string := String (Ascii.ascii_of_nat 10) EmptyString.
Definition NUL : ascii := Ascii.zero.

(** [std::string::c_str()] read back as a C string: the characters before
    the first NUL. *)
Fixpoint c_str (s : string) : string :=
  match s with
  | EmptyString => EmptyString
  | String c rest => if decide (c = NUL) then EmptyString else String c (c_str rest)
  end.

(** [std::string(n, 0)]. *)
Fixpoint zero_string (n : nat) : string :=
  match n with
  | O => EmptyString
  | S k => String NUL (zero_string k)
  end.

(** First [n] characters of a string. *)
Fixpoint string_take (n : nat) (s : string) : string :=
  match n, s with
  | S k, String c rest => String c (string_take k rest)
  | _, _ => EmptyString
  end.

(** Everything after the first [n] characters. *)
Fixpoint string_drop (n : nat) (s : string) : string :=
  match n, s with
  | S k, String _ rest => string_drop k rest
  | _, _ => s
  end.

(** No NUL byte occurs in the string. *)
Fixpoint nul_free (s : string) : bool :=
  match s with
  | EmptyString => true
  | String c rest => if decide (c = NUL) then false else nul_free rest
  end.

(** ** src/system_unix.cpp: the one-shot pipe between parent and child *)
Module SystemUnix.

Section Pipe.

(** Declared in system_unix.hpp, which is not part of the sources at
  hand; every result below holds for any value of the constant. *)
Variable MAX_PIPE_MESSAGE_SIZE : nat.

(** [SubProcess]: the pipe end kept by this process and the value
  returned by [fork()]. *)
Record SubProcess : Type := { fd : Z; pid : Z }.

(** What [read(fd, message.data(), MAX_PIPE_MESSAGE_SIZE)] can do:
  fail ([-1], with [errno]) or deliver [data]; the return value is
  then the number of bytes delivered. *)
Inductive read_outcome : Type :=
| read_failed (strerror_errno : string)
| read_bytes (data : string).

Definition retval (r : read_outcome) : Z :=
match r with
| read_failed _ => -1
| read_bytes data => Z.of_nat (String.length data)
end.

(** The buffer [std::string message(MAX_PIPE_MESSAGE_SIZE, 0)] after the
  read stored [data] at its start. *)
Definition message_buffer (r : read_outcome) : string :=
match r with
| read_failed _ => zero_string MAX_PIPE_MESSAGE_SIZE
| read_bytes data =>
    data +:+ string_drop (String.length data) (zero_string MAX_PIPE_MESSAGE_SIZE)
end.

Definition pipe_read_failed_text (e : string) : string :=
"Failed to communicate via pipe with forked child process. Syscall to read() failed ("
  +:+ e +:+ "), exiting".

Definition exec_failed_text (message : string) : string :=
"Forked child process did not complete exec():" +:+ newline +:+ message.

(** [SubProcess::check_child_executed], given the outcome of its
  [read]. *)
Definition check_child_executed (p : SubProcess) (r : read_outcome) : exn + Z :=
if decide (pid p = 0) then inl (assertion_failed "pid != 0")
else
  let message := message_buffer r in
  if decide (retval r = -1) then
    inl (runtime_error
           (pipe_read_failed_text
              match r with read_failed e => e | read_bytes _ => "" end))
  else if decide (retval r > 0) then
    inl (runtime_error (exec_failed_text (c_str message)))
  else inr (pid p).

(** What the child leaves behind when it calls
  [SubProcess::send_error_and_exit]: the bytes handed to [write] and
  its exit status. *)
Record child_exit : Type := { written : string; exit_status : Z }.

Definition send_error_and_exit (p : SubProcess) (message : string) : exn + child_exit :=
if decide (pid p = 0) then
  let n := Z.min (Z.of_nat (String.length message))
                 (size_t_sub (Z.of_nat MAX_PIPE_MESSAGE_SIZE) 1) in
  inr {| written := string_take (Z.to_nat n) message; exit_status := EXIT_FAILURE |}
else inl (assertion_failed "pid == 0").

(** The two ways a forked child ends its pre-exec life. *)
Inductive child_fate : Type :=
| exec_succeeded               (* O_CLOEXEC closes the write end *)
| exec_failed (message : string). (* send_error_and_exit(message) *)

(** The pipe is created with [O_CLOEXEC | O_DIRECT]: the parent's read
  sees end-of-file after a successful exec and otherwise the single
  packet the child wrote. *)
Definition parent_reads (child : SubProcess) (f : child_fate) : read_outcome :=
match f with
| exec_succeeded => read_bytes ""
| exec_failed message =>
    match send_error_and_exit child message with
    | inr e => read_bytes (written e)
    | inl _ => read_bytes ""
    end
end.

End Pipe.

End SystemUnix.

(** ** nlohmann::json values, as far as the manager inspects them *)
Module Json.

Inductive json : Type :=
  | null
  | boolean (b : bool)
  | number (z : Z)
  | text (s : string).

#[global] Instance json_eq_dec : EqDecision json.
Proof. solve_decision. Defined.

(** [json.get<bool>()]: only a JSON boolean converts; anything else
    throws [type_error] 302. *)
Definition get_bool (j : json) : exn + bool :=
  match j with
  | boolean b => inr b
  | _ => inl (type_error "type must be boolean")
  end.

End Json.

(** ** src/manager.cpp *)
Module Manager.

Import Json.

(** [fs::path], as the list of its components; [p / c] appends one
    component (module types and file names are single relative
    components). *)
Definition path : Type := list string.
Definition path_append (p : path) (c : string) : path := p ++ [c].
Infix "//" := path_append (at level 40, left associativity).

(** The two queries the manager makes to the file system. *)
Record FileSystem : Type := {
  exists_ : path → bool;        (* fs::exists *)
  canonical : path → path       (* fs::canonical *)
}.

(** [ModuleStartInfo::Language]. *)
Inductive Language : Type := cpp | javascript | python.

#[global] Instance Language_eq_dec : EqDecision Language.
Proof. solve_decision. Defined.

Record ModuleStartInfo : Type := {
  name : string;
  printable_name : string;
  language : Language;
  module_path : path;
  capabilities : list string
}.

(** One entry of [active_modules] in the main config: the keys of the
    JSON object that the manager reads. *)
Record ModuleEntry : Type := {
  module_type : string;                      (* "module" *)
  entry_capabilities : option (list string); (* "capabilities", if present *)
  entry_standalone : bool                    (* value("standalone", false) *)
}.

(** The parts of [Config] the manager calls.  [main_config] lists the
    items of the JSON object in iteration order. *)
Record Config : Type := {
  main_config : list (string * ModuleEntry);
  printable_identifier : string → string;
  mqtt_module_prefix : string → string
}.

Record RuntimeSettings : Type := {
  modules_dir : path;
  mqtt_everest_prefix : string
}.

(** The values captured by the [module_ready_handler] lambda. *)
Record ReadyHandler : Type := {
  h_module_name : string;
  h_standalone_modules : list string;
  h_mqtt_everest_prefix : string
}.

#[global] Instance ReadyHandler_eq_dec : EqDecision ReadyHandler.
Proof. solve_decision. Defined.

(** [ModuleReadyInfo]; the token is the shared pointer to the handler,
    [None] for [nullptr]. *)
Record ModuleReadyInfo : Type := {
  ready : bool;
  token : option ReadyHandler
}.

(** [StatusFifo] messages the manager emits. *)
Inductive Status : Type :=
  | ALL_MODULES_STARTED
  | WAITING_FOR_STANDALONE_MODULES.

#[global] Instance Status_eq_dec : EqDecision Status.
Proof. solve_decision. Defined.

Inductive Signal : Type := SIGTERM | SIGKILL.

#[global] Instance Signal_eq_dec : EqDecision Signal.
Proof. solve_decision. Defined.

(** Log lines of level info and above, one constructor per format
    string. *)
Inductive log_line : Type :=
  | Ignoring_module (module_name : string)
  | Wants_capabilities (module_name : string) (caps : list string)
  | Standalone_module_initialized (module_name : string)
  | All_modules_initialized
  | Waiting_for_standalone_modules
  | Not_starting_standalone_module (module_name : string)
  | Module_exited_terminating_all (module_name : string) (pid wstatus : Z)
  | Exiting_manager
  | Module_exited (module_name : string) (pid wstatus : Z)
  | SIGTERM_failed_escalating (module_name : string) (pid retval : Z)
  | SIGTERM_succeeded (module_name : string) (pid : Z)
  | SIGKILL_failed (module_name : string) (pid retval : Z)
  | SIGKILL_succeeded (module_name : string) (pid : Z).

(** The globals [modules_ready] and everything the manager does to the
    outside world. *)
Record World : Type := {
  modules_ready : gmap string ModuleReadyInfo;
  mqtt_handlers : list (string * ReadyHandler); (* register_handler(topic, token) *)
  mqtt_published : list (string * json);        (* publish(topic, payload) *)
  status_fifo : list Status;                    (* status_fifo.update(..) *)
  signals : list (Z * Signal);                  (* kill(pid, sig) *)
  log : list log_line
}.

Definition initial_world : World :=
  {| modules_ready := ∅; mqtt_handlers := []; mqtt_published := [];
     status_fifo := []; signals := []; log := [] |}.

Definition set_modules_ready (t : gmap string ModuleReadyInfo) (w : World) : World :=
  {| modules_ready := t; mqtt_handlers := mqtt_handlers w;
     mqtt_published := mqtt_published w; status_fifo := status_fifo w;
     signals := signals w; log := log w |}.

Definition set_mqtt_handlers (hs : list (string * ReadyHandler)) (w : World) : World :=
  {| modules_ready := modules_ready w; mqtt_handlers := hs;
     mqtt_published := mqtt_published w; status_fifo := status_fifo w;
     signals := signals w; log := log w |}.

(** Modelled from the spec: [mqtt_abstraction.publish(topic, payload)]
    hands the message to the broker. *)
Definition publish (topic : string) (payload : json) (w : World) : World :=
  {| modules_ready := modules_ready w; mqtt_handlers := mqtt_handlers w;
     mqtt_published := mqtt_published w ++ [(topic, payload)];
     status_fifo := status_fifo w; signals := signals w; log := log w |}.

(** Modelled from the spec: [status_fifo.update(s)] emits the event to
    the status sink. *)
Definition status_update (s : Status) (w : World) : World :=
  {| modules_ready := modules_ready w; mqtt_handlers := mqtt_handlers w;
     mqtt_published := mqtt_published w; status_fifo := status_fifo w ++ [s];
     signals := signals w; log := log w |}.

Definition send_signal (pid : Z) (sig : Signal) (w : World) : World :=
  {| modules_ready := modules_ready w; mqtt_handlers := mqtt_handlers w;
     mqtt_published := mqtt_published w; status_fifo := status_fifo w;
     signals := signals w ++ [(pid, sig)]; log := log w |}.

Definition evlog (l : log_line) (w : World) : World :=
  {| modules_ready := modules_ready w; mqtt_handlers := mqtt_handlers w;
     mqtt_published := mqtt_published w; status_fifo := status_fifo w;
     signals := signals w; log := log w ++ [l] |}.

(** [std::find(v.begin(), v.end(), x) != v.end()] and the equivalent
    [std::any_of] with an equality lambda. *)
Definition contains (v : list string) (x : string) : bool := bool_decide (x ∈ v).

(** The topic of the global ready signal: [fmt::format("{}ready", prefix)]. *)
Definition global_ready_topic (mqtt_everest_prefix : string) : string :=
  mqtt_everest_prefix +:+ "ready".

(** Body of the counting loop over [modules_ready]. *)
Definition modules_spawned (t : gmap string ModuleReadyInfo) : Z :=
  Z.of_nat (length (filter (λ kv, ready kv.2 = true) (map_to_list t))).

(** [std::all_of(modules_ready.begin(), modules_ready.end(), ready)]. *)
Definition all_ready (t : gmap string ModuleReadyInfo) : bool :=
  forallb (λ kv, ready kv.2) (map_to_list t).

(** The lambda [module_ready_handler], run under [modules_ready_mutex]. *)
Definition module_ready_handler (h : ReadyHandler) (payload : json) (w : World)
  : exn + World :=
  match get_bool payload with
  | inl e => inl e
  | inr b =>
      match modules_ready w !! h_module_name h with
      | None => inl (out_of_range (h_module_name h))
      | Some info =>
          let t := <[h_module_name h := {| ready := b; token := token info |}]>
                     (modules_ready w) in
          let w := set_modules_ready t w in
          let spawned := modules_spawned t in
          let standalone := h_standalone_modules h in
          let w :=
            if negb (bool_decide (standalone = []))
               && contains standalone (h_module_name h)
            then evlog (Standalone_module_initialized (h_module_name h)) w
            else w in
          if all_ready t then
            let w := status_update ALL_MODULES_STARTED w in
            let w := evlog All_modules_initialized w in
            inr (publish (global_ready_topic (h_mqtt_everest_prefix h)) (boolean true) w)
          else if negb (bool_decide (standalone = [])) then
            if decide (spawned
                       = size_t_sub (Z.of_nat (size t)) (Z.of_nat (length standalone)))
            then
              let w := evlog Waiting_for_standalone_modules w in
              inr (status_update WAITING_FOR_STANDALONE_MODULES w)
            else inr w
          else inr w
      end
  end.

(** Modelled from the spec: the dispatch of [MQTTAbstraction], which is
    not among the sources.  A ready message for module [m] reaches the
    handler registered on that module's ready topic, which is the token
    kept in [modules_ready]; without a registered handler nothing runs. *)
Definition on_ready_message (m : string) (payload : json) (w : World) : exn + World :=
  match modules_ready w !! m with
  | Some {| token := Some h |} => module_ready_handler h payload w
  | _ => inr w
  end.

(** A sequence of ready messages handled one after the other (the mutex
    serialises the handlers); an exception ends the run. *)
Fixpoint run_ready (msgs : list (string * json)) (w : World) : exn + World :=
  match msgs with
  | [] => inr w
  | (m, payload) :: rest =>
      match on_ready_message m payload w with
      | inl e => inl e
      | inr w' => run_ready rest w'
      end
  end.

(** The three candidate locations of a module of type [module_type]. *)
Definition binary_path (rs : RuntimeSettings) (module_type : string) : path :=
  modules_dir rs // module_type // module_type.
Definition javascript_library_path (rs : RuntimeSettings) (module_type : string) : path :=
  modules_dir rs // module_type // "index.js".
Definition python_module_path (rs : RuntimeSettings) (module_type : string) : path :=
  modules_dir rs // module_type // "module.py".

Definition not_found_text : string :=
  "cannot be loaded because no Binary, JavaScript or Python module has been found".

(** The [if (fs::exists(..)) .. else if .. else throw] cascade at the end
    of the loop body of [start_modules]. *)
Definition locate_module (fs : FileSystem) (rs : RuntimeSettings) (config : Config)
    (module_name module_type : string) (caps : list string) : exn + ModuleStartInfo :=
  let printable_module_name := printable_identifier config module_name in
  if exists_ fs (binary_path rs module_type) then
    inr {| name := module_name; printable_name := printable_module_name;
           language := cpp; module_path := binary_path rs module_type;
           capabilities := caps |}
  else if exists_ fs (javascript_library_path rs module_type) then
    inr {| name := module_name; printable_name := printable_module_name;
           language := javascript;
           module_path := canonical fs (javascript_library_path rs module_type);
           capabilities := caps |}
  else if exists_ fs (python_module_path rs module_type) then
    inr {| name := module_name; printable_name := printable_module_name;
           language := python;
           module_path := canonical fs (python_module_path rs module_type);
           capabilities := caps |}
  else inl (runtime_error not_found_text).

(** [modules_ready.emplace(module_name, ModuleReadyInfo{false, nullptr})]:
    inserts only when the key is absent. *)
Definition emplace (module_name : string) (t : gmap string ModuleReadyInfo)
  : gmap string ModuleReadyInfo :=
  match t !! module_name with
  | Some _ => t
  | None => <[module_name := {| ready := false; token := None |}]> t
  end.

(** [module_it->second.token = ...]. *)
Definition set_token (module_name : string) (h : ReadyHandler)
    (t : gmap string ModuleReadyInfo) : gmap string ModuleReadyInfo :=
  alter (λ info, {| ready := ready info; token := Some h |}) module_name t.

Definition ready_topic (config : Config) (module_name : string) : string :=
  mqtt_module_prefix config module_name +:+ "/ready".

(** One iteration of the loop over [main_config.items()] in
    [start_modules]. *)
Definition start_modules_item (fs : FileSystem) (rs : RuntimeSettings) (config : Config)
    (ignored_modules standalone_modules : list string)
    (item : string * ModuleEntry) (acc : World * list ModuleStartInfo)
  : exn + (World * list ModuleStartInfo) :=
  let '(w, modules_to_spawn) := acc in
  let module_name := item.1 in
  if contains ignored_modules module_name then
    inr (evlog (Ignoring_module module_name) w, modules_to_spawn)
  else
    let w := set_modules_ready (emplace module_name (modules_ready w)) w in
    let caps := default [] (entry_capabilities item.2) in
    let w := if bool_decide (caps = []) then w
             else evlog (Wants_capabilities module_name caps) w in
    let h := {| h_module_name := module_name;
                h_standalone_modules := standalone_modules;
                h_mqtt_everest_prefix := mqtt_everest_prefix rs |} in
    let w := set_modules_ready (set_token module_name h (modules_ready w)) w in
    let w := set_mqtt_handlers (mqtt_handlers w ++ [(ready_topic config module_name, h)]) w in
    if contains standalone_modules module_name then
      inr (evlog (Not_starting_standalone_module module_name) w, modules_to_spawn)
    else
      match locate_module fs rs config module_name (module_type item.2) caps with
      | inl e => inl e
      | inr info => inr (w, modules_to_spawn ++ [info])
      end.

Fixpoint start_modules_loop (fs : FileSystem) (rs : RuntimeSettings) (config : Config)
    (ignored_modules standalone_modules : list string)
    (items : list (string * ModuleEntry)) (acc : World * list ModuleStartInfo)
  : exn + (World * list ModuleStartInfo) :=
  match items with
  | [] => inr acc
  | item :: rest =>
      match start_modules_item fs rs config ignored_modules standalone_modules item acc with
      | inl e => inl e
      | inr acc' =>
          start_modules_loop fs rs config ignored_modules standalone_modules rest acc'
      end
  end.

(** What [SubProcess::create] and the pipe give the parent for one
    module: an exception of [create] itself (pipe2 or fork failed), or
    the parent's handle together with what its [read] will return. *)
Definition Forker : Type :=
  ModuleStartInfo → exn + (SystemUnix.SubProcess * SystemUnix.read_outcome).

(** [spawn_modules], parent side. *)
Fixpoint spawn_modules (MAX_PIPE_MESSAGE_SIZE : nat) (fork : Forker)
    (modules : list ModuleStartInfo) (started_modules : gmap Z string)
  : exn + gmap Z string :=
  match modules with
  | [] => inr started_modules
  | module :: rest =>
      match fork module with
      | inl e => inl e
      | inr (proc_handle, r) =>
          match SystemUnix.check_child_executed MAX_PIPE_MESSAGE_SIZE proc_handle r with
          | inl e => inl e
          | inr child_pid =>
              spawn_modules MAX_PIPE_MESSAGE_SIZE fork rest
                            (<[child_pid := name module]> started_modules)
          end
      end
  end.

(** [start_modules]: the registration loop, then [spawn_modules]. *)
Definition start_modules (MAX_PIPE_MESSAGE_SIZE : nat) (fs : FileSystem) (fork : Forker)
    (config : Config) (ignored_modules standalone_modules : list string)
    (rs : RuntimeSettings) (w : World) : exn + (World * gmap Z string) :=
  match start_modules_loop fs rs config ignored_modules standalone_modules
                           (main_config config) (w, []) with
  | inl e => inl e
  | inr (w', modules_to_spawn) =>
      match spawn_modules MAX_PIPE_MESSAGE_SIZE fork modules_to_spawn ∅ with
      | inl e => inl e
      | inr handles => inr (w', handles)
      end
  end.

(** Modelled from the spec: [mqtt_abstraction.unregister_handler(topic,
    token)] cancels that subscription. *)
Definition unregister_handler (topic : string) (tok : option ReadyHandler)
    (hs : list (string * ReadyHandler)) : list (string * ReadyHandler) :=
  filter (λ th, ¬ (th.1 = topic ∧ Some th.2 = tok)) hs.

(** Keys of a [std::map] in iteration (ascending) order. *)
Definition pid_le (a b : Z * string) : Prop := a.1 ≤ b.1.

#[global] Instance pid_le_dec a b : Decision (pid_le a b).
Proof. unfold pid_le. apply _. Defined.

Definition in_pid_order (m : gmap Z string) : list (Z * string) :=
  merge_sort pid_le (map_to_list m).

(** Return values of [kill(pid, sig)], decided by the operating
    system. *)
Definition Killer : Type := Z → Signal → Z.

(** Body of the loop over the children in [shutdown_modules]. *)
Definition terminate_child (kill : Killer) (child : Z * string) (w : World) : World :=
  let w := send_signal child.1 SIGTERM w in
  let retval := kill child.1 SIGTERM in
  if decide (retval ≠ 0) then
    let w := evlog (SIGTERM_failed_escalating child.2 child.1 retval) w in
    let w := send_signal child.1 SIGKILL w in
    let retval := kill child.1 SIGKILL in
    if decide (retval ≠ 0) then evlog (SIGKILL_failed child.2 child.1 retval) w
    else evlog (SIGKILL_succeeded child.2 child.1) w
  else evlog (SIGTERM_succeeded child.2 child.1) w.

(** [shutdown_modules]. *)
Definition shutdown_modules (kill : Killer) (modules : gmap Z string) (config : Config)
    (w : World) : World :=
  let hs := foldl (λ hs kv, unregister_handler (ready_topic config kv.1) (token kv.2) hs)
                  (mqtt_handlers w) (map_to_list (modules_ready w)) in
  let w := set_mqtt_handlers hs w in
  let w := set_modules_ready ∅ w in
  foldl (λ w child, terminate_child kill child w) w (in_pid_order modules).

(** The local variables of [boot] that live across iterations of its
    wait loop. *)
Record BootState : Type := {
  module_handles : gmap Z string;
  modules_started : bool;
  world : World
}.

(** How an iteration of the wait loop ends. *)
Inductive Step : Type :=
  | next (st : BootState)           (* back to waitpid *)
  | returned (code : Z) (st : BootState)
  | thrown (e : exn) (st : BootState).

(** One iteration of [while (true)] in [boot] (the build without
    ENABLE_ADMIN_PANEL), given what [waitpid(-1, &wstatus, 0)]
    returned.  The texts of the two exceptions leave out the formatted
    errno and pid. *)
Definition boot_iteration (kill : Killer) (config : Config) (pid wstatus : Z)
    (st : BootState) : Step :=
  if decide (pid = 0) then next st
  else if decide (pid = -1) then thrown (runtime_error "Syscall to waitpid() failed") st
  else
    match module_handles st !! pid with
    | None => thrown (runtime_error "Unkown child width pid died.") st
    | Some module_name =>
        let handles := delete pid (module_handles st) in
        if modules_started st then
          let w := evlog (Module_exited_terminating_all module_name pid wstatus) (world st) in
          let w := shutdown_modules kill handles config w in
          let w := evlog Exiting_manager w in
          returned EXIT_FAILURE
            {| module_handles := handles; modules_started := false; world := w |}
        else
          let w := evlog (Module_exited module_name pid wstatus) (world st) in
          next {| module_handles := handles; modules_started := modules_started st;
                  world := w |}
    end.

(** The wait loop of [boot] over the successive results of [waitpid];
    [None] when the loop is still blocked in [waitpid] after the last
    of them. *)
Fixpoint boot_loop (kill : Killer) (config : Config) (waits : list (Z * Z))
    (st : BootState) : option (exn + Z) * BootState :=
  match waits with
  | [] => (None, st)
  | (pid, wstatus) :: rest =>
      match boot_iteration kill config pid wstatus st with
      | next st' => boot_loop kill config rest st'
      | returned code st' => (Some (inr code), st')
      | thrown e st' => (Some (inl e), st')
      end
  end.

(** [main] turns an exception escaping [boot] into [EXIT_FAILURE]. *)
Definition main_exit_code (r : exn + Z) : Z :=
  match r with
  | inl _ => EXIT_FAILURE
  | inr code => code
  end.

End Manager.

(** ** lib/error/error_manager_req_global.cpp *)
Module ErrorManagerReqGlobal.

(** The origin of an error: [ImplementationIdentifier]. *)
Record ImplementationIdentifier : Type := {
  module_id : string;
  implementation_id : string
}.

#[global] Instance ImplementationIdentifier_eq_dec : EqDecision ImplementationIdentifier.
Proof. solve_decision. Defined.

Inductive Severity : Type := Low | Medium | High.

#[global] Instance Severity_eq_dec : EqDecision Severity.
Proof. solve_decision. Defined.

(** An error instance. *)
Record Error : Type := {
  type : string;
  sub_type : string;
  origin : ImplementationIdentifier;
  message : string;
  severity : Severity;
  timestamp : Z;
  uuid : string
}.

#[global] Instance Error_eq_dec : EqDecision Error.
Proof. solve_decision. Defined.

(** The identity of an error for deduplication. *)
Definition identity : Type := string * string * ImplementationIdentifier.
Definition identity_of (e : Error) : identity := (type e, sub_type e, origin e).

(** The three filters the global manager builds. *)
Inductive ErrorFilter : Type :=
  | TypeFilter (t : string)
  | SubTypeFilter (s : string)
  | OriginFilter (o : ImplementationIdentifier).

Definition matches (f : ErrorFilter) (e : Error) : bool :=
  match f with
  | TypeFilter t => bool_decide (type e = t)
  | SubTypeFilter s => bool_decide (sub_type e = s)
  | OriginFilter o => bool_decide (origin e = o)
  end.

(** Modelled from the spec: the active-errors database behind the
    abstract [ErrorDatabase] interface, whose implementation is not among
    the sources.  It holds the active errors; a query returns the errors
    that satisfy every filter, adding stores the error, removing takes
    out (and returns) the errors that satisfy every filter. *)
Abbreviation ErrorDatabase := (list Error).

(** Modelled from the spec: [ErrorDatabase::get_errors], the active
    errors that satisfy every filter, in insertion order. *)
Definition get_errors (filters : list ErrorFilter) (db : ErrorDatabase) : list Error :=
  filter (λ e, forallb (λ f, matches f e) filters = true) db.

(** Modelled from the spec: [ErrorDatabase::add_error]. *)
Definition add_error (e : Error) (db : ErrorDatabase) : ErrorDatabase := db ++ [e].

(** Modelled from the spec: [ErrorDatabase::remove_errors], the removed
    errors and the database without them. *)
Definition remove_errors (filters : list ErrorFilter) (db : ErrorDatabase)
  : list Error * ErrorDatabase :=
  (get_errors filters db,
   filter (λ e, ¬ (forallb (λ f, matches f e) filters = true)) db).

(** Modelled from the spec: the [ErrorTypeMap] is the set of declared
    error types and [has] tests membership; its implementation is not
    among the sources. *)
Definition ErrorTypeMap : Type := gset string.

(** Modelled from the spec: [ErrorTypeMap::has]. *)
Definition has (m : ErrorTypeMap) (t : string) : bool := bool_decide (t ∈ m).

Section Manager.

(** [ErrorCallback = std::function<void(const Error&)>]: the manager
    only stores and invokes callbacks, so any type of callables
    does. *)
Context {ErrorCallback : Type}.

(** What invoking a callback on an error does, as far as the manager is
    concerned: it returns ([None]) or an exception leaves it (an empty
    [std::function] throws [std::bad_function_call]).  The subscriber's
    code decides this, so it is a parameter. *)
Variable throws : ErrorCallback → Error → option exn.

Record Subscription : Type := {
  callback : ErrorCallback;
  clear_callback : ErrorCallback
}.

(** Which member of a subscription an invocation went through. *)
Inductive Event : Type := raised | cleared.

(** One callback invocation: the position of the subscription in the
    [subscriptions] vector, the member invoked, the callable and its
    argument. *)
Record Call : Type := {
  subscriber : nat;
  event : Event;
  invoked : ErrorCallback;
  argument : Error
}.

(** The [EVLOG_error] diagnostics. *)
Inductive diagnostic : Type :=
  | Type_not_defined (t : string)
  | Already_raised (t s : string)
  | Not_added (t s : string)
  | Not_raised (t s : string)
  | More_than_one_cleared (t s : string)
  | Not_removed (t s : string).

(** The members of [ErrorManagerReqGlobal], with the callback
    invocations and diagnostics it has produced so far. *)
Record ErrorManager : Type := {
  error_type_map : ErrorTypeMap;
  database : ErrorDatabase;
  subscriptions : list Subscription;
  calls : list Call;
  diagnostics : list diagnostic
}.

(** How a call of [on_error_raised] or [on_error_cleared] ends: the
    manager afterwards and the exception that left the function, if any.
    The members are changed in place, so what was done before a throw
    stays done. *)
Record Outcome : Type := {
  after : ErrorManager;
  escaped : option exn
}.

Definition returns (m : ErrorManager) : Outcome := {| after := m; escaped := None |}.

(** The constructor: no subscriptions. *)
Definition new (tm : ErrorTypeMap) (db : ErrorDatabase) : ErrorManager :=
  {| error_type_map := tm; database := db; subscriptions := [];
     calls := []; diagnostics := [] |}.

Definition evlog_error (d : diagnostic) (m : ErrorManager) : ErrorManager :=
  {| error_type_map := error_type_map m; database := database m;
     subscriptions := subscriptions m; calls := calls m;
     diagnostics := diagnostics m ++ [d] |}.

Definition set_database (db : ErrorDatabase) (m : ErrorManager) : ErrorManager :=
  {| error_type_map := error_type_map m; database := db;
     subscriptions := subscriptions m; calls := calls m;
     diagnostics := diagnostics m |}.

Definition add_calls (cs : list Call) (m : ErrorManager) : ErrorManager :=
  {| error_type_map := error_type_map m; database := database m;
     subscriptions := subscriptions m; calls := calls m ++ cs;
     diagnostics := diagnostics m |}.

(** [subscribe_global_all_errors]: [subscriptions.push_back(sub)]. *)
Definition subscribe_global_all_errors (cb clear_cb : ErrorCallback)
    (m : ErrorManager) : ErrorManager :=
  let sub := {| callback := cb; clear_callback := clear_cb |} in
  {| error_type_map := error_type_map m; database := database m;
     subscriptions := subscriptions m ++ [sub]; calls := calls m;
     diagnostics := diagnostics m |}.

Definition member (ev : Event) (sub : Subscription) : ErrorCallback :=
  match ev with
  | raised => callback sub
  | cleared => clear_callback sub
  end.

(** [for (const Subscription& sub : subscriptions) sub.<member>(error)],
    from the subscription at position [k] on: the callables are invoked
    in vector order, and there is no [try] around the loop, so the first
    exception leaves it with the later subscriptions not invoked.  The
    result is the invocations made and the exception, if any. *)
Fixpoint fanout (k : nat) (ev : Event) (error : Error) (subs : list Subscription)
  : list Call * option exn :=
  match subs with
  | [] => ([], None)
  | sub :: rest =>
      let c := {| subscriber := k; event := ev; invoked := member ev sub;
                  argument := error |} in
      match throws (member ev sub) error with
      | Some x => ([c], Some x)
      | None => (c :: (fanout (S k) ev error rest).1, (fanout (S k) ev error rest).2)
      end
  end.

Definition notify (ev : Event) (error : Error) (m : ErrorManager) : Outcome :=
  {| after := add_calls (fanout 0 ev error (subscriptions m)).1 m;
     escaped := (fanout 0 ev error (subscriptions m)).2 |}.

(** The filter triple used by both handlers. *)
Definition identity_filters (error : Error) : list ErrorFilter :=
  [TypeFilter (type error); SubTypeFilter (sub_type error); OriginFilter (origin error)].

Definition on_error_raised (error : Error) (m : ErrorManager) : Outcome :=
  if negb (has (error_type_map m) (type error)) then
    returns (evlog_error (Type_not_defined (type error)) m)
  else
    let errors := get_errors (identity_filters error) (database m) in
    if negb (bool_decide (errors = [])) then
      returns (evlog_error (Already_raised (type error) (sub_type error)) m)
    else
      let m := set_database (add_error error (database m)) m in
      let errors := get_errors (identity_filters error) (database m) in
      if decide (length errors ≠ 1%nat) then
        returns (evlog_error (Not_added (type error) (sub_type error)) m)
      else notify raised error m.

Definition on_error_cleared (error : Error) (m : ErrorManager) : Outcome :=
  if negb (has (error_type_map m) (type error)) then
    returns (evlog_error (Type_not_defined (type error)) m)
  else
    let errors := get_errors (identity_filters error) (database m) in
    if bool_decide (errors = []) then
      returns (evlog_error (Not_raised (type error) (sub_type error)) m)
    else
      let '(res, db) := remove_errors (identity_filters error) (database m) in
      let m := set_database db m in
      if decide (1 < length res)%nat then
        returns (evlog_error (More_than_one_cleared (type error) (sub_type error)) m)
      else if bool_decide (res = []) then
        returns (evlog_error (Not_removed (type error) (sub_type error)) m)
      else notify cleared error m.

(** What can happen to a manager over time. *)
Inductive Op : Type :=
  | Subscribe (cb clear_cb : ErrorCallback)
  | Raise (error : Error)
  | Clear (error : Error).

(** One operation on the manager.  An exception that leaves a handler
    goes to its caller; the manager keeps the state it had reached and
    can be called again. *)
Definition step (m : ErrorManager) (o : Op) : ErrorManager :=
  match o with
  | Subscribe cb clear_cb => subscribe_global_all_errors cb clear_cb m
  | Raise e => after (on_error_raised e m)
  | Clear e => after (on_error_cleared e m)
  end.

Definition run (ops : list Op) (m : ErrorManager) : ErrorManager := foldl step m ops.

(** The events one subscriber has been delivered for one identity, in
    order. *)
Definition observed (i : nat) (id : identity) (m : ErrorManager) : list Event :=
  event <$> filter (λ c, subscriber c = i ∧ identity_of (argument c) = id) (calls m).

(** Prefixes of raise, clear, raise, clear, ... *)
Fixpoint alternates (expect : Event) (evs : list Event) : bool :=
  match evs with
  | [] => true
  | ev :: rest =>
      match expect, ev with
      | raised, raised => alternates cleared rest
      | cleared, cleared => alternates raised rest
      | _, _ => false
      end
  end.

(** The identity is in the active set. *)
Definition active (id : identity) (db : ErrorDatabase) : Prop :=
  ∃ e, e ∈ db ∧ identity_of e = id.

(** How many active errors carry the identity. *)
Definition count_active (id : identity) (db : ErrorDatabase) : nat :=
  length (filter (λ e, identity_of e = id) db).

(** [k] complete episodes: raise, clear, raise, clear, ... *)
Fixpoint episodes (k : nat) : list Event :=
  match k with
  | O => []
  | S k' => raised :: cleared :: episodes k'
  end.

End Manager.

Arguments Subscription : clear implicits.
Arguments Call : clear implicits.
Arguments ErrorManager : clear implicits.
Arguments Outcome : clear implicits.
Arguments Op : clear implicits.

End ErrorManagerReqGlobal.

(** ** include/framework/everest.hpp: the framework singleton *)
Module Framework.

Section Singleton.

(** [Config] and the private constructor of [Everest] are defined
    outside the header; the constructor may throw. *)
Context {Config Everest : Type}.
Variable construct : string → Config → bool → string → string → exn + Everest.

(** The function-local [static Everest instance] of [get_instance]:
    [None] until its initialisation has completed.  An initialisation
    that throws leaves it uninitialised. *)
Definition static_instance : Type := option Everest.

(** [get_instance] with five parameters returns a reference to the
    static object: the result is the content of the static storage. *)
Definition get_instance (module_id : string) (config : Config)
    (validate_data_with_schema : bool) (mqtt_server_address mqtt_server_port : string)
    (st : static_instance) : (exn + Everest) * static_instance :=
  match st with
  | Some instance => (inr instance, st)
  | None =>
      match construct module_id config validate_data_with_schema
                      mqtt_server_address mqtt_server_port with
      | inl e => (inl e, None)
      | inr instance => (inr instance, Some instance)
      end
  end.

(** The overload with three parameters. *)
Definition get_instance3 (module_id : string) (config : Config)
    (validate_data_with_schema : bool) (st : static_instance)
  : (exn + Everest) * static_instance :=
  get_instance module_id config validate_data_with_schema "localhost" "1883" st.

(** The overload with two parameters. *)
Definition get_instance2 (module_id : string) (config : Config) (st : static_instance)
  : (exn + Everest) * static_instance :=
  get_instance3 module_id config true st.

(** The arguments of one call of any overload. *)
Inductive Invocation : Type :=
  | call5 (module_id : string) (config : Config) (validate : bool) (address port : string)
  | call3 (module_id : string) (config : Config) (validate : bool)
  | call2 (module_id : string) (config : Config).

Definition invoke (c : Invocation) (st : static_instance)
  : (exn + Everest) * static_instance :=
  match c with
  | call5 m cfg v a p => get_instance m cfg v a p st
  | call3 m cfg v => get_instance3 m cfg v st
  | call2 m cfg => get_instance2 m cfg st
  end.

(** Successive calls in one process; the results in call order. *)
Fixpoint invoke_all (cs : list Invocation) (st : static_instance)
  : list (exn + Everest) * static_instance :=
  match cs with
  | [] => ([], st)
  | c :: rest =>
      let '(r, st') := invoke c st in
      let '(rs, st'') := invoke_all rest st' in
      (r :: rs, st'')
  end.

End Singleton.

End Framework.

(** ** Loading the config document ([ManagerSettings], exercised by
       tests/test_config.cpp) *)
Module ManagerSettings.

(** The exception the tests expect from the constructor. *)
Inductive BootException : Type := boot_exception (what : string).

(** Modelled from the spec: the top-level shapes of a config document.
    The constructor of [ManagerSettings] lives in runtime.cpp, which is
    not among the sources.  The shapes are those a YAML document can have
    at its top level: the four of the fixtures named in
    tests/test_config.cpp (empty file, null, mapping, string) and the
    other documents that are not an object (sequence, number,
    boolean). *)
Inductive document : Type :=
  | empty_document
  | null_document
  | mapping_document (active_modules : list (string * string))
  | sequence_document (items : list string)
  | number_document (z : Z)
  | boolean_document (b : bool)
  | string_document (s : string).

(** The loaded settings, as far as the outcome is concerned: the
    modules configured, by id, with their module type. *)
Record settings : Type := { modules : list (string * string) }.

(** Modelled from the spec: empty, null and other documents that are
    not an object are accepted as no modules configured, a mapping
    configures the modules it lists (an empty mapping none), a top-level
    string is a fatal error. *)
Definition load (d : document) : BootException + settings :=
  match d with
  | empty_document => inr {| modules := [] |}
  | null_document => inr {| modules := [] |}
  | mapping_document ms => inr {| modules := ms |}
  | sequence_document _ => inr {| modules := [] |}
  | number_document _ => inr {| modules := [] |}
  | boolean_document _ => inr {| modules := [] |}
  | string_document _ => inl (boot_exception "config document is a string")
  end.

End ManagerSettings.

(** ** Notions used to state the results about the manager *)
Module ManagerSpec.

Import Json Manager.

(** The handler [start_modules] registers for module [n]. *)
Definition handler_of (rs : RuntimeSettings) (standalone_modules : list string)
    (n : string) : ReadyHandler :=
  {| h_module_name := n; h_standalone_modules := standalone_modules;
     h_mqtt_everest_prefix := mqtt_everest_prefix rs |}.

(** Every entry of the ready table carries the handler registered for
    its own module. *)
Definition registered (rs : RuntimeSettings) (standalone_modules : list string)
    (t : gmap string ModuleReadyInfo) : Prop :=
  ∀ n info, t !! n = Some info → token info = Some (handler_of rs standalone_modules n).

(** The global ready signal as it appears on the broker. *)
Definition global_ready (rs : RuntimeSettings) : string * json :=
  (global_ready_topic (mqtt_everest_prefix rs), boolean true).

(** The ready flag of a module in the table ([false] when absent). *)
Definition is_ready (t : gmap string ModuleReadyInfo) (n : string) : bool :=
  match t !! n with
  | Some info => ready info
  | None => false
  end.

(** The invariant of a run of the barrier: [seen] are the ready messages
    handled so far and [k] the number of global ready signals published
    on top of the publications [pub0]. *)
Definition barrier_inv (rs : RuntimeSettings) (standalone_modules : list string)
    (pub0 : list (string * json)) (w : World)
    (seen : list (string * json)) (k : nat) : Prop :=
  registered rs standalone_modules (modules_ready w)
  ∧ mqtt_published w = pub0 ++ replicate k (global_ready rs)
  ∧ (∀ n, is_ready (modules_ready w) n = true → (n, boolean true) ∈ seen)
  ∧ (0 < k → ∀ n, is_Some (modules_ready w !! n) → (n, boolean true) ∈ seen)%nat
  ∧ (all_ready (modules_ready w) = true → modules_ready w ≠ ∅ → 0 < k)%nat.

(** The signals [shutdown_modules] sends to one child: SIGTERM, and
    SIGKILL right after it when the [kill] that sent SIGTERM failed. *)
Definition signals_for (kill : Killer) (child : Z * string) : list (Z * Signal) :=
  if decide (kill child.1 SIGTERM ≠ 0) then [(child.1, SIGTERM); (child.1, SIGKILL)]
  else [(child.1, SIGTERM)].

End ManagerSpec.

(** ** Concrete fleets used as examples *)
Module Scenarios.

Import Json Manager.

Definition entry (t : string) (standalone : bool) : ModuleEntry :=
  {| module_type := t; entry_capabilities := None; entry_standalone := standalone |}.

Definition rs : RuntimeSettings :=
  {| modules_dir := ["libexec"; "everest"; "modules"]; mqtt_everest_prefix := "everest/" |}.

(** Every module type is installed as a native binary. *)
Definition all_binaries : FileSystem :=
  {| exists_ := λ p, match drop 3 p with
                     | [t; file] => bool_decide (take 3 p = modules_dir rs ∧ file = t)
                     | _ => false
                     end;
     canonical := λ p, p |}.

(** One module, [a]. *)
Definition single : Config :=
  {| main_config := [("a", entry "A" false)];
     printable_identifier := λ m, m;
     mqtt_module_prefix := λ m, "everest/modules/" +:+ m |}.

(** Two modules started by the manager, [a] and [b], and the
    standalone module [s]. *)
Definition with_standalone : Config :=
  {| main_config := [("a", entry "A" false); ("b", entry "B" false); ("s", entry "S" true)];
     printable_identifier := λ m, m;
     mqtt_module_prefix := λ m, "everest/modules/" +:+ m |}.

(** The world after the registration loop of [start_modules]. *)
Definition registered_world (config : Config) (standalone_modules : list string) : World :=
  match start_modules_loop all_binaries rs config [] standalone_modules
                           (main_config config) (initial_world, []) with
  | inr (w, _) => w
  | inl _ => initial_world
  end.

(** The modules the registration loop schedules for spawning. *)
Definition scheduled (config : Config) (standalone_modules : list string) : list string :=
  match start_modules_loop all_binaries rs config [] standalone_modules
                           (main_config config) (initial_world, []) with
  | inr (_, l) => name <$> l
  | inl _ => []
  end.

(** The world after the registration loop and the ready messages
    [msgs]; [None] if a handler threw. *)
Definition after_ready (config : Config) (standalone_modules : list string)
    (msgs : list (string * json)) : option World :=
  match run_ready msgs (registered_world config standalone_modules) with
  | inr w => Some w
  | inl _ => None
  end.

(** Three modules started by the manager, [a], [b] and [c]. *)
Definition three_modules : Config :=
  {| main_config := [("a", entry "A" false); ("b", entry "B" false); ("c", entry "C" false)];
     printable_identifier := λ m, m;
     mqtt_module_prefix := λ m, "everest/modules/" +:+ m |}.

(** The running fleet of that config: three children. *)
Definition fleet : BootState :=
  {| module_handles := {[ 101 := "a"; 102 := "b"; 103 := "c" ]};
     modules_started := true;
     world := registered_world three_modules [] |}.

(** The child with pid 103 cannot be signalled with SIGTERM. *)
Definition stubborn : Killer :=
  λ pid sig, if decide (pid = 103 ∧ sig = SIGTERM) then -1 else 0.

(** The two ends of a fork: the parent's handle and the child's. *)
Definition parent_handle : SystemUnix.SubProcess := {| SystemUnix.fd := 5; SystemUnix.pid := 4711 |}.
Definition child_handle : SystemUnix.SubProcess := {| SystemUnix.fd := 6; SystemUnix.pid := 0 |}.

(** A module provided as a JavaScript library and as a Python module,
    but not as a binary. *)
Definition js_config : Config :=
  {| main_config :=
       [("api", {| module_type := "JsApi"; entry_capabilities := None;
                   entry_standalone := false |})];
     printable_identifier := λ m, m;
     mqtt_module_prefix := λ m, "everest/modules/" +:+ m |}.
Definition js_rs : RuntimeSettings :=
  {| modules_dir := ["libexec"; "everest"; "modules"]; mqtt_everest_prefix := "everest/" |}.
Definition js_fs : FileSystem :=
  {| exists_ := λ p, bool_decide (p = ["libexec"; "everest"; "modules"; "JsApi"; "index.js"]
                                  ∨ p = ["libexec"; "everest"; "modules"; "JsApi"; "module.py"]);
     canonical := λ p, p |}.
Definition fork_ok : Forker :=
  λ m, inr ({| SystemUnix.fd := 3; SystemUnix.pid := 100 |}, SystemUnix.read_bytes "").

End Scenarios.

(** ** A concrete error and its subscribers, used as examples *)
Module ErrorScenarios.

Import ErrorManagerReqGlobal.

(** Callbacks are named by strings.  The empty name stands for an empty
    [std::function], whose invocation throws; every other callback
    returns. *)
Definition behaviour : string → Error → option exn :=
  λ cb _, if decide (cb = "") then Some bad_function_call else None.

Definition overcurrent : Error :=
  {| type := "evse_board_support/MREC1Overcurrent"; sub_type := "";
     origin := {| module_id := "evse"; implementation_id := "board_support" |};
     message := "overcurrent"; severity := High; timestamp := 1730246400;
     uuid := "6f1e0c9a" |}.

Definition declared : ErrorTypeMap := {[ "evse_board_support/MREC1Overcurrent" ]}.

(** A manager without subscriptions and with an empty database. *)
Definition fresh : ErrorManager string := new declared [].

(** The same with one subscriber registered before any event. *)
Definition with_subscriber : ErrorManager string :=
  subscribe_global_all_errors "on_raise" "on_clear" fresh.

(** A subscriber that registers while the error is active. *)
Definition late_subscription : list (Op string) :=
  [Raise overcurrent; Subscribe "on_raise" "on_clear"; Clear overcurrent].

(** Two subscribers; the first one registered an empty raise
    callback. *)
Definition empty_raise_callback : ErrorManager string :=
  subscribe_global_all_errors "second_on_raise" "second_on_clear"
    (subscribe_global_all_errors "" "first_on_clear" fresh).

(** Two subscribers; the first one registered an empty clear
    callback. *)
Definition empty_clear_callback : ErrorManager string :=
  subscribe_global_all_errors "second_on_raise" "second_on_clear"
    (subscribe_global_all_errors "first_on_raise" "" fresh).

End ErrorScenarios.

(** ** A concrete framework constructor, used as an example *)
Module FrameworkScenarios.

(** An instance that remembers the module id and the broker address and
    port it was constructed with; the constructor never throws. *)
Definition remember : string → unit → bool → string → string → exn + (string * string * string) :=
  λ module_id _ _ address port, inr (module_id, address, port).

End FrameworkScenarios.

(** ** src/manager.cpp: the standalone list assembled by [boot] *)
Module ManagerBoot.

Import Manager.

(** Body of the loop over [main_config.items()] that follows the reading
    of the [--standalone] option: a module whose config says
    [standalone: true] is appended unless [std::find] already finds it. *)
Definition mark_standalone (standalone_modules : list string) (item : string * ModuleEntry)
  : list string :=
  if entry_standalone item.2 then
    if contains standalone_modules item.1 then standalone_modules
    else standalone_modules ++ [item.1]
  else standalone_modules.

(** The [standalone_modules] vector [boot] passes to [start_modules]:
    the ids given on the command line, then the ids marked in the
    config. *)
Definition collect_standalone (command_line : list string)
    (main_config : list (string * ModuleEntry)) : list string :=
  foldl mark_standalone command_line main_config.

End ManagerBoot.

(** ** Further notions used to state results about the manager *)
Module ManagerNotions.

Import Json Manager.

(** The flag a module's ready messages leave behind: the payload of the
    last boolean message addressed to [n], or [init] if there is none. *)
Definition last_payload (n : string) (msgs : list (string * json)) (init : bool) : bool :=
  foldl (λ acc m, if decide (m.1 = n)
                  then match m.2 with boolean b => b | _ => acc end
                  else acc) init msgs.

(** The status events one handled ready message adds, given the table
    after the flag was stored. *)
Definition status_events (standalone_modules : list string)
    (t : gmap string ModuleReadyInfo) : list Status :=
  if all_ready t then [ALL_MODULES_STARTED]
  else if negb (bool_decide (standalone_modules = []))
          && bool_decide (modules_spawned t
                          = size_t_sub (Z.of_nat (size t))
                                       (Z.of_nat (length standalone_modules)))
       then [WAITING_FOR_STANDALONE_MODULES]
       else [].

(** The child forked for [m] exec'ed: [fork] gave the parent a handle
    with the non-zero pid [p] and the parent's read sees end of file. *)
Definition execs (fork : Forker) (m : ModuleStartInfo) (p : Z) : Prop :=
  p ≠ 0 ∧ ∃ fd, fork m = inr ({| SystemUnix.fd := fd; SystemUnix.pid := p |},
                              SystemUnix.read_bytes "").

End ManagerNotions.

(** ** src/system_unix.cpp: user switch, capabilities and process creation *)
Module SystemUnixUser.

(** The fields of [struct passwd] that are read. *)
Record passwd : Type := { pw_uid : Z; pw_gid : Z }.

(** What the operating system answers to the calls of [set_real_user]:
    the passwd database, the groups of a user, and the return values of
    the three set calls ([0] is success). *)
Record UserOS : Type := {
  getpwnam : string → option passwd;
  groups_of : string → Z → list Z;
  setgroups : list Z → Z;
  setgid : Z → Z;
  setuid : Z → Z
}.

Definition max_supplementary_groups : Z := 50.

(** [getgrouplist(user, group, groups, &ngroups)] as its manual page
    describes it: the number of groups of the user when they fit into the
    array of [ngroups] entries (the array then holds them), and [-1] when
    they do not. *)
Definition getgrouplist (os : UserOS) (user : string) (group : Z) (ngroups : Z)
  : Z * list Z :=
  let found := groups_of os user group in
  if decide (Z.of_nat (length found) ≤ ngroups) then (Z.of_nat (length found), found)
  else (-1, take (Z.to_nat ngroups) found).

(** [get_passwd_entry]: the error text, or uid, gid and supplementary
    groups. *)
Definition get_passwd_entry (os : UserOS) (user_name : string)
  : string + (Z * Z * list Z) :=
  match getpwnam os user_name with
  | None => inl ("Could not get passwd entry for user name: " +:+ user_name)
  | Some entry =>
      let '(ngroups, groups) :=
        getgrouplist os user_name (pw_gid entry) max_supplementary_groups in
      if decide (ngroups < 0) then
        inl ("Could not get supplementary groups for user name: " +:+ user_name)
      else inr (pw_uid entry, pw_gid entry, take (Z.to_nat ngroups) groups)
  end.

(** The calls that change the identity of the process. *)
Inductive identity_call : Type :=
  | Setgroups (groups : list Z)
  | Setgid (gid : Z)
  | Setuid (uid : Z).

#[global] Instance identity_call_eq_dec : EqDecision identity_call.
Proof. solve_decision. Defined.

(** [set_real_user]: the returned text (empty on success) and the calls
    made, in order. *)
Definition set_real_user (os : UserOS) (user_name : string) : string * list identity_call :=
  match get_passwd_entry os user_name with
  | inl error => (error, [])
  | inr (uid, gid, groups) =>
      if decide (setgroups os groups ≠ 0) then ("setgroups failed", [Setgroups groups])
      else if decide (setgid os gid ≠ 0) then
        ("setgid failed", [Setgroups groups; Setgid gid])
      else if decide (setuid os uid ≠ 0) then
        ("setuid failed", [Setgroups groups; Setgid gid; Setuid uid])
      else ("", [Setgroups groups; Setgid gid; Setuid uid])
  end.

(** The libcap calls of [set_caps]. *)
Inductive cap_call : Type :=
  | Cap_get_proc
  | Cap_set_flag_inheritable (ncap : nat) (caps : list Z) (* .., CAP_INHERITABLE, ncap, caps, CAP_SET *)
  | Cap_set_proc
  | Cap_free
  | Cap_set_ambient (cap : Z).                            (* .., CAP_SET *)

#[global] Instance cap_call_eq_dec : EqDecision cap_call.
Proof. solve_decision. Defined.

(** The loop of [set_caps] over the capability names: each iteration
    appends a value-initialised element to [capability_values] and lets
    [cap_from_name] fill it; [cap_from_name] is [None] for a name it does
    not know. *)
Fixpoint set_caps_loop (cap_from_name : string → option Z) (capabilities : list string)
    (capability_values : list Z) : string + list Z :=
  match capabilities with
  | [] => inr capability_values
  | cap_name :: rest =>
      match cap_from_name cap_name with
      | None =>
          inl ("Failed to get capability value for capability name " +:+ cap_name)
      | Some cap_value => set_caps_loop cap_from_name rest (capability_values ++ [cap_value])
      end
  end.

(** [set_caps]: the returned text (empty on success) and the libcap calls
    made.  [capability_values.resize(capabilities.size())] comes first and
    leaves that many zeros in the vector. *)
Definition set_caps (cap_from_name : string → option Z) (capabilities : list string)
  : string * list cap_call :=
  let capability_values := replicate (length capabilities) 0 in
  match set_caps_loop cap_from_name capabilities capability_values with
  | inl error => (error, [])
  | inr capability_values =>
      ("",
       [Cap_get_proc;
        Cap_set_flag_inheritable (length capability_values) capability_values;
        Cap_set_proc; Cap_free]
       ++ (Cap_set_ambient <$> capability_values))
  end.

(** What the system calls of [SubProcess::create] return in the process
    that runs it: [pipe2] (the errno text, or the reading and the writing
    end), [getpid] before the fork, [fork] as seen by this process ([-1],
    [0] in the child, the child's pid in the parent), and, in the child,
    [prctl], [getppid] and [getpid]. *)
Record CreateOS : Type := {
  pipe2 : string + (Z * Z);
  parent_pid : Z;
  fork : Z;
  fork_errno : string;
  prctl : Z;
  prctl_errno : string;
  getppid : Z;
  child_pid : Z
}.

(** What the process did besides creating the handle. *)
Inductive create_action : Type :=
  | Close (fd : Z)
  | Kill (pid : Z) (sig : Manager.Signal).

Definition PARENT_DIED_SIGNAL : Manager.Signal := Manager.SIGTERM.

(** How [SubProcess::create] ends in the process that runs it. *)
Inductive create_outcome : Type :=
  | created (handle : SystemUnix.SubProcess) (actions : list create_action)
  | child_gone (actions : list create_action) (e : exn + SystemUnix.child_exit)
  | create_threw (e : exn).

Definition create (MAX_PIPE_MESSAGE_SIZE : nat) (set_pdeathsig : bool) (os : CreateOS)
  : create_outcome :=
  match pipe2 os with
  | inl errno =>
      create_threw (runtime_error ("Syscall pipe2() failed (" +:+ errno +:+ "), exiting"))
  | inr (reading_end_fd, writing_end_fd) =>
      if decide (fork os = -1) then
        create_threw
          (runtime_error ("Syscall fork() failed (" +:+ fork_errno os +:+ "), exiting"))
      else if decide (fork os = 0) then
        let handle := {| SystemUnix.fd := writing_end_fd; SystemUnix.pid := fork os |} in
        if set_pdeathsig then
          if decide (prctl os ≠ 0) then
            child_gone [Close reading_end_fd]
              (SystemUnix.send_error_and_exit MAX_PIPE_MESSAGE_SIZE handle
                 ("Syscall prctl() failed (" +:+ prctl_errno os +:+ "), exiting"))
          else if decide (getppid os ≠ parent_pid os) then
            created handle [Close reading_end_fd; Kill (child_pid os) PARENT_DIED_SIGNAL]
          else created handle [Close reading_end_fd]
        else created handle [Close reading_end_fd]
      else
        created {| SystemUnix.fd := reading_end_fd; SystemUnix.pid := fork os |}
                [Close writing_end_fd]
  end.

End SystemUnixUser.

(** ** src/manager.cpp: the child side, from [exec_module] to [exec] *)
Module ManagerExec.

Import Manager.

(** The fields of [RuntimeSettings] that the exec functions read. *)
Record ExecSettings : Type := {
  prefix : path;
  config_file : path;
  validate_schema : bool
}.

(** The environment of a process. *)
Abbreviation Env := (gmap string string).

(** [setenv(name, value, overwrite)] as its manual page describes it: an
    existing variable is changed only if [overwrite] is not zero. *)
Definition setenv (name value : string) (overwrite : Z) (env : Env) : Env :=
  if decide (overwrite ≠ 0) then <[name := value]> env
  else match env !! name with
       | Some _ => env
       | None => <[name := value]> env
       end.

(** [arguments_to_exec_argv]: the pointers to the arguments followed by
    [nullptr] ([None]). *)
Definition arguments_to_exec_argv (arguments : list string) : list (option string) :=
  (Some <$> arguments) ++ [None].

(** The two exec calls used. *)
Inductive exec_function : Type := execv | execvp.

(** An exec call with the environment it is made in. *)
Record ExecCall : Type := {
  function : exec_function;
  file : string;
  argv : list (option string);
  environment : Env
}.

(** How the child's pre-exec life ends: the new program runs, or the
    exec returned and the child went through [send_error_and_exit]. *)
Inductive child_end : Type :=
  | image_replaced (call : ExecCall)
  | exec_returned (call : ExecCall) (e : exn + SystemUnix.child_exit).

Definition double_quote : string := String (Ascii.ascii_of_nat 34) EmptyString.

(** [fmt::join(first, last, " ")]. *)
Fixpoint join_with_space (l : list string) : string :=
  match l with
  | [] => ""
  | [x] => x
  | x :: rest => x +:+ " " +:+ join_with_space rest
  end.

(** [fmt::format("Syscall to execv() with \"{} {}\" failed ({})", binary,
    fmt::join(arguments.begin() + 1, arguments.end(), " "), strerror(errno))]. *)
Definition exec_failed_message (binary : string) (arguments : list string)
    (strerror_errno : string) : string :=
  "Syscall to execv() with " +:+ double_quote +:+ binary +:+ " "
    +:+ join_with_space (tail arguments) +:+ double_quote
    +:+ " failed (" +:+ strerror_errno +:+ ")".

Section Exec.

(** Declared outside the sources at hand: the pipe message size, the
    text of a path ([fs::path::string()], [c_str()]) and the two
    constants of [defaults]. *)
Variable MAX_PIPE_MESSAGE_SIZE : nat.
Variable path_string : path → string.
Variables LIB_DIR NAMESPACE : string.

(** What [exec] does with a call: [None] if the new program starts,
    the text of [errno] if the call returns. *)
Variable exec : ExecCall → option string.

(** The common end of the three exec functions: the exec call and, if it
    returns, [send_error_and_exit]. *)
Definition try_exec (proc_handle : SystemUnix.SubProcess) (call : ExecCall)
    (arguments : list string) : child_end :=
  match exec call with
  | None => image_replaced call
  | Some strerror_errno =>
      exec_returned call
        (SystemUnix.send_error_and_exit MAX_PIPE_MESSAGE_SIZE proc_handle
           (exec_failed_message (file call) arguments strerror_errno))
  end.

Definition exec_cpp_module (proc_handle : SystemUnix.SubProcess)
    (module_info : ModuleStartInfo) (rs : ExecSettings) (env : Env) : child_end :=
  let exec_binary := path_string (module_path module_info) in
  let arguments := [printable_name module_info; "--prefix"; path_string (prefix rs);
                    "--conf"; path_string (config_file rs);
                    "--module"; name module_info] in
  try_exec proc_handle
    {| function := execv; file := exec_binary;
       argv := arguments_to_exec_argv arguments; environment := env |}
    arguments.

(** The two [if]s on [rs->validate_schema] shared by the JavaScript and
    the Python variant. *)
Definition set_validation_env (rs : ExecSettings) (env : Env) : Env :=
  let env := if validate_schema rs then setenv "EV_VALIDATE_SCHEMA" "1" 1 env else env in
  if negb (validate_schema rs) then setenv "EV_DONT_VALIDATE_SCHEMA" "" 0 env else env.

Definition exec_javascript_module (proc_handle : SystemUnix.SubProcess)
    (module_info : ModuleStartInfo) (rs : ExecSettings) (env : Env) : child_end :=
  let node_modules_path := prefix rs // LIB_DIR // NAMESPACE // "node_modules" in
  let env := setenv "NODE_PATH" (path_string node_modules_path) 0 env in
  let env := setenv "EV_MODULE" (name module_info) 1 env in
  let env := setenv "EV_PREFIX" (path_string (prefix rs)) 0 env in
  let env := setenv "EV_CONF_FILE" (path_string (config_file rs)) 0 env in
  let env := set_validation_env rs env in
  let node_binary := "node" in
  let arguments := ["node"; "--unhandled-rejections=strict";
                    path_string (module_path module_info)] in
  try_exec proc_handle
    {| function := execvp; file := node_binary;
       argv := arguments_to_exec_argv arguments; environment := env |}
    arguments.

Definition exec_python_module (proc_handle : SystemUnix.SubProcess)
    (module_info : ModuleStartInfo) (rs : ExecSettings) (env : Env) : child_end :=
  let pythonpath := prefix rs // LIB_DIR // NAMESPACE // "everestpy" in
  let env := setenv "EV_MODULE" (name module_info) 1 env in
  let env := setenv "EV_PREFIX" (path_string (prefix rs)) 0 env in
  let env := setenv "EV_CONF_FILE" (path_string (config_file rs)) 0 env in
  let env := setenv "PYTHONPATH" (path_string pythonpath) 0 env in
  let env := set_validation_env rs env in
  let python_binary := "python3" in
  let arguments := [python_binary; path_string (module_path module_info)] in
  try_exec proc_handle
    {| function := execvp; file := python_binary;
       argv := arguments_to_exec_argv arguments; environment := env |}
    arguments.

(** [exec_module]: the switch on the language (its [default] branch is
    not reachable for a value of the enumeration). *)
Definition exec_module (rs : ExecSettings) (module : ModuleStartInfo)
    (proc_handle : SystemUnix.SubProcess) (env : Env) : child_end :=
  match language module with
  | cpp => exec_cpp_module proc_handle module rs env
  | javascript => exec_javascript_module proc_handle module rs env
  | python => exec_python_module proc_handle module rs env
  end.

(** The call a child makes, whichever way it ends. *)
Definition call_of (c : child_end) : ExecCall :=
  match c with
  | image_replaced call => call
  | exec_returned call _ => call
  end.

End Exec.

End ManagerExec.

(** ** include/utils/config.hpp: the serializer of [schemas] *)
Module ConfigSchemas.

Section Serializer.

(** The JSON values held by the fields; the serializer only moves them. *)
Context {json : Type}.

(** [struct schemas]. *)
Record schemas : Type := {
  config : json;
  manifest : json;
  interface : json;
  type : json;
  error_declaration_list : json
}.

(** A JSON value as [at] sees it: an object with its members, or a value
    of another kind. *)
Inductive value : Type :=
  | object (members : gmap string json)
  | not_an_object.

(** [adl_serializer<schemas>::to_json]: the initializer list of five
    pairs makes an object. *)
Definition to_json (s : schemas) : value :=
  object (<["config" := config s]>
          (<["manifest" := manifest s]>
           (<["interface" := interface s]>
            (<["type" := type s]>
             (<["error_declaration_list" := error_declaration_list s]> ∅))))).

(** [j.at(key)]: throws [type_error] on a value that is not an object and
    [out_of_range] on a missing key. *)
Definition at_ (j : value) (key : string) : exn + json :=
  match j with
  | not_an_object => inl (type_error "cannot use at() with a value that is not an object")
  | object members =>
      match members !! key with
      | Some v => inr v
      | None => inl (out_of_range key)
      end
  end.

(** [adl_serializer<schemas>::from_json]: the five assignments in
    order. *)
Definition from_json (j : value) : exn + schemas :=
  match at_ j "config" with
  | inl e => inl e
  | inr c =>
      match at_ j "manifest" with
      | inl e => inl e
      | inr m =>
          match at_ j "interface" with
          | inl e => inl e
          | inr i =>
              match at_ j "type" with
              | inl e => inl e
              | inr t =>
                  match at_ j "error_declaration_list" with
                  | inl e => inl e
                  | inr l =>
                      inr {| config := c; manifest := m; interface := i; type := t;
                             error_declaration_list := l |}
                  end
              end
          end
      end
  end.

(** The keys of the serialized form, in the order [from_json] reads
    them. *)
Definition keys : list string :=
  ["config"; "manifest"; "interface"; "type"; "error_declaration_list"].

End Serializer.

Arguments schemas : clear implicits.
Arguments value : clear implicits.

End ConfigSchemas.

(** ** Further concrete inputs used as examples *)
Module ExtraScenarios.

Import Json Manager.

(** The start info of module [n] of type [t], installed as a binary. *)
Definition info (n t : string) : ModuleStartInfo :=
  {| name := n; printable_name := n; language := cpp;
     module_path := ["libexec"; "everest"; "modules"; t; t]; capabilities := [] |}.

(** Children get the pids 101 (module [a]) and 102 (any other). *)
Definition pid_of (m : ModuleStartInfo) : Z := if decide (name m = "a") then 101 else 102.

(** Every child execs. *)
Definition fork_all : Forker :=
  λ m, inr ({| SystemUnix.fd := 3; SystemUnix.pid := pid_of m |}, SystemUnix.read_bytes "").

(** The child of module [b] reports that its exec failed. *)
Definition fork_b_fails : Forker :=
  λ m, inr ({| SystemUnix.fd := 3; SystemUnix.pid := pid_of m |},
            SystemUnix.read_bytes (if decide (name m = "b") then "execv failed" else "")).

(** A manager constructed on a database that already holds the same
    error twice, with one subscriber. *)
Definition duplicated : ErrorManagerReqGlobal.ErrorManager string :=
  ErrorManagerReqGlobal.subscribe_global_all_errors "on_raise" "on_clear"
    (ErrorManagerReqGlobal.new ErrorScenarios.declared
       [ErrorScenarios.overcurrent; ErrorScenarios.overcurrent]).

(** The standalone module [s] comes first in the config, before the
    module [b] that the manager starts. *)
Definition standalone_first : Config :=
  {| main_config := [("s", Scenarios.entry "S" true); ("b", Scenarios.entry "B" false)];
     printable_identifier := λ m, m;
     mqtt_module_prefix := λ m, "everest/modules/" +:+ m |}.

(** The world after the first iteration of the registration loop on
    that config. *)
Definition after_first_item : World :=
  match start_modules_loop Scenarios.all_binaries Scenarios.rs standalone_first [] ["s"]
                           (take 1 (main_config standalone_first)) (initial_world, []) with
  | inr (w, _) => w
  | inl _ => initial_world
  end.

(** Two capability names known to libcap. *)
Definition cap_names : string → option Z :=
  λ n, if decide (n = "cap_net_admin") then Some 12
       else if decide (n = "cap_net_raw") then Some 13 else None.

(** The calls of [SubProcess::create] as seen by the parent of child
    4711. *)
Definition in_parent : SystemUnixUser.CreateOS :=
  {| SystemUnixUser.pipe2 := inr (5, 6); SystemUnixUser.parent_pid := 1;
     SystemUnixUser.fork := 4711; SystemUnixUser.fork_errno := "";
     SystemUnixUser.prctl := 0; SystemUnixUser.prctl_errno := "";
     SystemUnixUser.getppid := 1; SystemUnixUser.child_pid := 4711 |}.

(** A JavaScript module started with schema validation on, in an
    environment that already sets [EV_PREFIX] and still carries
    [EV_DONT_VALIDATE_SCHEMA]. *)
Definition js_info : ModuleStartInfo :=
  {| name := "api"; printable_name := "api:JsApi"; language := javascript;
     module_path := ["libexec"; "everest"; "modules"; "JsApi"; "index.js"];
     capabilities := [] |}.

Definition exec_settings : ManagerExec.ExecSettings :=
  {| ManagerExec.prefix := ["usr"]; ManagerExec.config_file := ["etc"; "everest"; "config.yaml"];
     ManagerExec.validate_schema := true |}.

Definition inherited : gmap string string :=
  {[ "EV_PREFIX" := "/opt/everest"; "EV_DONT_VALIDATE_SCHEMA" := "" ]}.

(** Paths as text: the components, each preceded by a slash. *)
Definition slashes (p : path) : string := foldr (λ c s, "/" +:+ c +:+ s) "" p.

(** Every exec returns with "No such file or directory". *)
Definition no_such_file : ManagerExec.ExecCall → option string :=
  λ _, Some "No such file or directory".

End ExtraScenarios.

(** * Results *)

(** ** The one-shot pipe *)
Module SystemUnixFacts.

Import SystemUnix.

Lemma c_str_zero_string n k : c_str (string_drop k (zero_string n)) = "".
Proof.
  revert k. induction n as [|n IH]; intros [|k]; cbn [zero_string string_drop c_str];
    try reflexivity.
  apply IH.
Qed.

Lemma c_str_app_zeros s z : c_str z = "" → c_str (s +:+ z) = c_str s.
Proof.
  intros Hz. induction s as [|c s IH]; simpl; [exact Hz|].
  destruct (decide (c = NUL)); [reflexivity|]. by rewrite IH.
Qed.

Lemma c_str_nul_free s : nul_free s = true → c_str s = s.
Proof.
  induction s as [|c s IH]; simpl; [reflexivity|].
  destruct (decide (c = NUL)); [discriminate|].
  intros H. by rewrite IH.
Qed.

Lemma string_take_all n s : (String.length s ≤ n)%nat → string_take n s = s.
Proof.
  revert n. induction s as [|c s IH]; intros [|n]; simpl; try reflexivity; [lia|].
  intros H. rewrite IH; [reflexivity | lia].
Qed.

(** The buffer read back as a C string is the data up to its first NUL. *)
Lemma c_str_message_buffer MAX data :
  c_str (message_buffer MAX (read_bytes data)) = c_str data.
Proof. unfold message_buffer. apply c_str_app_zeros, c_str_zero_string. Qed.

(** A parent that reads at least one byte throws, naming the bytes. *)
Lemma check_child_executed_bytes MAX p data :
  pid p ≠ 0 → data ≠ "" →
  check_child_executed MAX p (read_bytes data)
  = inl (runtime_error (exec_failed_text (c_str data))).
Proof.
  intros Hp Hd. unfold check_child_executed.
  rewrite decide_False by exact Hp.
  rewrite c_str_message_buffer.
  destruct data as [|c data]; [done|]. cbn [retval String.length].
  rewrite decide_False by lia. rewrite decide_True by lia. reflexivity.
Qed.

(** What the child writes: the message cut to MAX_PIPE_MESSAGE_SIZE - 1
    bytes. *)
Lemma send_error_and_exit_written MAX child message :
  pid child = 0 → (0 < MAX)%nat → Z.of_nat MAX < 2 ^ 64 →
  send_error_and_exit MAX child message
  = inr {| written := string_take (MAX - 1) message; exit_status := EXIT_FAILURE |}.
Proof.
  intros Hc Hmax Hsize. unfold send_error_and_exit. rewrite decide_True by exact Hc.
  do 2 f_equal. unfold size_t_sub.
  rewrite Z.mod_small by lia.
  destruct (decide (Z.of_nat (String.length message) ≤ Z.of_nat MAX - 1)) as [Hle|Hgt].
  - rewrite Z.min_l by exact Hle. rewrite Nat2Z.id.
    transitivity message; [|symmetry]; apply string_take_all; lia.
  - rewrite Z.min_r by lia. f_equal. lia.
Qed.

(** C6. After the fork the parent reads the pipe.  A read of zero bytes
    (in particular after the child's exec succeeded) makes
    [check_child_executed] return the child's pid, and it returns only
    then.  A read of any bytes makes it throw the runtime error whose
    text is "Forked child process did not complete exec():", a newline,
    and the bytes read (as a C string); the bytes are the message the
    child passed to [send_error_and_exit], cut to the pipe message size,
    so that a message that fits and has no NUL byte is named in full.  A
    failed read makes it throw a runtime error naming the cause.  (The
    size constant is a positive [size_t].) *)
Theorem check_child_executed_reads_pipe (MAX : nat) (p child : SubProcess) :
  pid p ≠ 0 → pid child = 0 → (0 < MAX)%nat → Z.of_nat MAX < 2 ^ 64 →
  check_child_executed MAX p (read_bytes "") = inr (pid p)
  ∧ check_child_executed MAX p (parent_reads MAX child exec_succeeded) = inr (pid p)
  ∧ (∀ data r, check_child_executed MAX p (read_bytes data) = inr r →
               data = "" ∧ r = pid p)
  ∧ (∀ data, data ≠ "" →
       check_child_executed MAX p (read_bytes data)
       = inl (runtime_error
                ("Forked child process did not complete exec():"
                   +:+ String (Ascii.ascii_of_nat 10) (c_str data)))
       ∧ (nul_free data = true → c_str data = data))
  ∧ (∀ message, string_take (MAX - 1) message ≠ "" →
       check_child_executed MAX p (parent_reads MAX child (exec_failed message))
       = inl (runtime_error
                ("Forked child process did not complete exec():"
                   +:+ String (Ascii.ascii_of_nat 10)
                         (c_str (string_take (MAX - 1) message)))))
  ∧ (∀ message, message ≠ "" → nul_free message = true →
       (String.length message < MAX)%nat →
       check_child_executed MAX p (parent_reads MAX child (exec_failed message))
       = inl (runtime_error
                ("Forked child process did not complete exec():"
                   +:+ String (Ascii.ascii_of_nat 10) message)))
  ∧ (∀ strerror_errno,
       check_child_executed MAX p (read_failed strerror_errno)
       = inl (runtime_error
                ("Failed to communicate via pipe with forked child process. Syscall to read() failed ("
                   +:+ strerror_errno +:+ "), exiting"))).
Proof.
  intros Hp Hc Hmax Hsize.
  assert (Hzero : check_child_executed MAX p (read_bytes "") = inr (pid p)).
  { unfold check_child_executed. rewrite decide_False by exact Hp.
    cbn [retval String.length]. rewrite decide_False by lia.
    rewrite decide_False by lia. reflexivity. }
  assert (Hcut : ∀ message, string_take (MAX - 1) message ≠ "" →
       check_child_executed MAX p (parent_reads MAX child (exec_failed message))
       = inl (runtime_error (exec_failed_text (c_str (string_take (MAX - 1) message))))).
  { intros message Hne. unfold parent_reads.
    rewrite send_error_and_exit_written by assumption. cbn [written].
    by apply check_child_executed_bytes. }
  split; [exact Hzero|]. split; [exact Hzero|].
  split; [|split; [|split; [|split]]].
  - intros data r Hr. destruct (decide (data = "")) as [->|Hne].
    + rewrite Hzero in Hr. by simplify_eq.
    + rewrite check_child_executed_bytes in Hr by done. discriminate.
  - intros data Hne. split; [by apply check_child_executed_bytes|apply c_str_nul_free].
  - exact Hcut.
  - intros message Hne Hnul Hlen.
    assert (Htake : string_take (MAX - 1) message = message)
      by (apply string_take_all; lia).
    rewrite Hcut; rewrite Htake; [|exact Hne].
    by rewrite c_str_nul_free.
  - intros e. unfold check_child_executed. rewrite decide_False by exact Hp.
    cbn [retval]. by rewrite decide_True.
Qed.

Lemma check_child_executed_reads_pipe_witness :
  check_child_executed 1024 Scenarios.parent_handle
    (parent_reads 1024 Scenarios.child_handle (exec_failed "Syscall to execv() failed"))
  = inl (runtime_error
           ("Forked child process did not complete exec():"
              +:+ String (Ascii.ascii_of_nat 10) "Syscall to execv() failed")).
Proof.
  assert (H1 : pid Scenarios.parent_handle ≠ 0) by (vm_compute; discriminate).
  assert (H2 : pid Scenarios.child_handle = 0) by reflexivity.
  assert (H3 : (0 < 1024)%nat) by lia.
  assert (H4 : Z.of_nat 1024 < 2 ^ 64) by reflexivity.
  destruct (check_child_executed_reads_pipe 1024 Scenarios.parent_handle Scenarios.child_handle
              H1 H2 H3 H4)
    as (_ & _ & _ & _ & _ & H & _).
  apply H; [discriminate | reflexivity | vm_compute; lia].
Defined.

(** An empty message written by the child is indistinguishable from a
    successful exec. *)
Remark empty_message_reads_as_success (MAX : nat) (p child : SubProcess) :
  pid p ≠ 0 →
  check_child_executed MAX p (parent_reads MAX child (exec_failed "")) = inr (pid p).
Proof.
  intros Hp. unfold parent_reads, send_error_and_exit.
  destruct (decide (pid child = 0)).
  - cbn [written String.length]. rewrite Z.min_l.
    + cbn. unfold check_child_executed. rewrite decide_False by exact Hp.
      cbn [retval String.length]. by rewrite !decide_False by lia.
    + unfold size_t_sub.
      assert (0 ≤ (Z.of_nat MAX - 1) `mod` 2 ^ 64)
        by (apply Z.mod_pos_bound; reflexivity).
      lia.
  - unfold check_child_executed. rewrite decide_False by exact Hp.
    cbn [retval String.length]. by rewrite !decide_False by lia.
Qed.

End SystemUnixFacts.

(** ** The manager: locating and registering modules *)
Module StartModulesFacts.

Import Json Manager.

Section Loop.

Variables (fs : FileSystem) (rs : RuntimeSettings) (config : Config).
Variables (ignored_modules standalone_modules : list string).

Local Abbreviation item_step := (start_modules_item fs rs config ignored_modules standalone_modules).
Local Abbreviation loop := (start_modules_loop fs rs config ignored_modules standalone_modules).
Local Abbreviation locate n e :=
  (locate_module fs rs config n (module_type e) (default [] (entry_capabilities e))).

(** The only exception the probe throws. *)
Lemma locate_module_error n t caps ex :
  locate_module fs rs config n t caps = inl ex → ex = runtime_error not_found_text.
Proof.
  unfold locate_module.
  repeat match goal with |- context [if ?b then _ else _] => destruct b end;
    intros H; simplify_eq; reflexivity.
Qed.

(** What one iteration does to the list of modules to spawn. *)
Lemma start_modules_item_spawn n e w l :
  item_step (n, e) (w, l)
  = if contains ignored_modules n then inr (evlog (Ignoring_module n) w, l)
    else if contains standalone_modules n then
      match item_step (n, e) (w, l) with
      | inr (w', _) => inr (w', l)
      | inl ex => inl ex
      end
    else
      match locate n e, item_step (n, e) (w, l) with
      | inr info, inr (w', _) => inr (w', l ++ [info])
      | inl ex, _ => inl ex
      | inr _, inl ex => inl ex
      end.
Proof.
  unfold start_modules_item. cbn [fst snd].
  destruct (contains ignored_modules n); [reflexivity|].
  destruct (contains standalone_modules n); [reflexivity|].
  destruct (locate n e); reflexivity.
Qed.

Lemma start_modules_item_error item acc ex :
  item_step item acc = inl ex → ex = runtime_error not_found_text.
Proof.
  destruct item as [n e], acc as [w l]. unfold start_modules_item. cbn [fst snd].
  destruct (contains ignored_modules n); [discriminate|].
  destruct (contains standalone_modules n); [discriminate|].
  destruct (locate n e) as [ex'|info] eqn:Hloc; [|discriminate].
  intros H. simplify_eq. by eapply locate_module_error.
Qed.

(** A spawnable module without any of the three files aborts the
    loop. *)
Lemma start_modules_loop_fatal items acc n e ex :
  (n, e) ∈ items →
  contains ignored_modules n = false → contains standalone_modules n = false →
  locate n e = inl ex →
  loop items acc = inl (runtime_error not_found_text).
Proof.
  intros Hin Hign Hsta Hloc. revert acc.
  induction items as [|item items IH]; intros acc; [by apply elem_of_nil in Hin|].
  cbn [start_modules_loop].
  destruct (item_step item acc) as [ex'|acc'] eqn:Hstep.
  - by rewrite (start_modules_item_error _ _ _ Hstep).
  - apply elem_of_cons in Hin as [<-|Hin]; [|by apply IH].
    exfalso. destruct acc as [w l]. rewrite start_modules_item_spawn in Hstep.
    rewrite Hign, Hsta, Hloc in Hstep. discriminate.
Qed.

(** A loop that completes has scheduled every spawnable module with
    the start info the probe found, and kept what was scheduled
    before. *)
Lemma start_modules_loop_schedules items w l w' l' :
  loop items (w, l) = inr (w', l') →
  (∀ x, x ∈ l → x ∈ l')
  ∧ ∀ n e, (n, e) ∈ items →
      contains ignored_modules n = false → contains standalone_modules n = false →
      ∃ info, locate n e = inr info ∧ info ∈ l'.
Proof.
  revert w l. induction items as [|[n0 e0] items IH]; intros w l Hrun.
  - cbn in Hrun. simplify_eq. split; [done|]. intros n e Hin. by apply elem_of_nil in Hin.
  - cbn [start_modules_loop] in Hrun.
    destruct (item_step (n0, e0) (w, l)) as [ex|[w1 l1]] eqn:Hstep; [discriminate|].
    destruct (IH _ _ Hrun) as [Hkeep Hsched].
    assert (Hl1 : ∀ x, x ∈ l → x ∈ l1).
    { rewrite start_modules_item_spawn in Hstep.
      destruct (contains ignored_modules n0); [by simplify_eq|].
      destruct (contains standalone_modules n0).
      - destruct (item_step (n0, e0) (w, l)) as [|[? ?]]; by simplify_eq.
      - destruct (locate n0 e0); [discriminate|].
        destruct (item_step (n0, e0) (w, l)) as [|[? ?]]; simplify_eq.
        intros x Hx. apply elem_of_app. by left. }
    split; [by auto|].
    intros n e Hin Hign Hsta. apply elem_of_cons in Hin as [Heq|Hin]; [|by eauto].
    injection Heq as -> ->. rewrite start_modules_item_spawn in Hstep.
    rewrite Hign, Hsta in Hstep.
    destruct (locate n0 e0) as [|info]; [discriminate|].
    exists info. split; [reflexivity|]. apply Hkeep.
    destruct (item_step (n0, e0) (w, l)) as [|[? ?]]; simplify_eq.
    apply elem_of_app. right. by apply list_elem_of_singleton.
Qed.

End Loop.

(** C5. For every module to be spawned (in the config, neither ignored
    nor standalone) the manager probes the native binary
    <modules_dir>/<type>/<type>, then <modules_dir>/<type>/index.js, then
    <modules_dir>/<type>/module.py; the first that exists fixes the start
    language, and a registration loop that completes has scheduled the
    module with it.  If none of the three exists, [start_modules] throws,
    which makes the manager exit with a failure code. *)
Theorem start_modules_probes_in_order (MAX : nat) (fs : FileSystem) (fork : Forker)
    (config : Config) (ignored_modules standalone_modules : list string)
    (rs : RuntimeSettings) (w : World) (n : string) (e : ModuleEntry) :
  (n, e) ∈ main_config config →
  contains ignored_modules n = false →
  contains standalone_modules n = false →
  let t := module_type e in
  let caps := default [] (entry_capabilities e) in
  let binary := modules_dir rs ++ [t; t] in
  let js := modules_dir rs ++ [t; "index.js"] in
  let py := modules_dir rs ++ [t; "module.py"] in
  let info lang p :=
    {| name := n; printable_name := printable_identifier config n;
       language := lang; module_path := p; capabilities := caps |} in
  let found :=
    if exists_ fs binary then Some (info cpp binary)
    else if exists_ fs js then Some (info javascript (canonical fs js))
    else if exists_ fs py then Some (info python (canonical fs py))
    else None in
  match found with
  | Some i =>
      locate_module fs rs config n t caps = inr i
      ∧ ∀ w' l,
          start_modules_loop fs rs config ignored_modules standalone_modules
                             (main_config config) (w, []) = inr (w', l) →
          i ∈ l
  | None =>
      locate_module fs rs config n t caps = inl (runtime_error not_found_text)
      ∧ start_modules MAX fs fork config ignored_modules standalone_modules rs w
        = inl (runtime_error not_found_text)
      ∧ main_exit_code (inl (runtime_error not_found_text)) ≠ 0
  end.
Proof.
  intros Hin Hign Hsta t caps binary js py info found.
  assert (Hpaths : binary_path rs t = binary ∧ javascript_library_path rs t = js
                   ∧ python_module_path rs t = py).
  { unfold binary_path, javascript_library_path, python_module_path, path_append.
    subst binary js py. by rewrite <- !app_assoc. }
  destruct Hpaths as (Hb & Hj & Hp).
  assert (Hloc : locate_module fs rs config n t caps
                 = match found with
                   | Some i => inr i
                   | None => inl (runtime_error not_found_text)
                   end).
  { unfold locate_module. rewrite Hb, Hj, Hp. subst found.
    destruct (exists_ fs binary); [reflexivity|].
    destruct (exists_ fs js); [reflexivity|].
    destruct (exists_ fs py); reflexivity. }
  destruct found as [i|].
  - split; [exact Hloc|]. intros w' l Hrun.
    destruct (start_modules_loop_schedules _ _ _ _ _ _ _ _ _ _ Hrun) as [_ Hsched].
    destruct (Hsched n e Hin Hign Hsta) as (i' & Hi' & Hmem).
    fold t caps in Hi'. rewrite Hloc in Hi'. by simplify_eq.
  - split; [exact Hloc|]. split; [|discriminate].
    unfold start_modules.
    by rewrite (start_modules_loop_fatal fs rs config _ _ _ (w, []) n e _ Hin Hign Hsta Hloc).
Qed.

Lemma start_modules_probes_in_order_witness :
  locate_module Scenarios.js_fs Scenarios.js_rs Scenarios.js_config "api" "JsApi" []
  = inr {| name := "api"; printable_name := "api"; language := javascript;
           module_path := ["libexec"; "everest"; "modules"; "JsApi"; "index.js"];
           capabilities := [] |}.
Proof.
  assert (H1 : ("api", {| module_type := "JsApi"; entry_capabilities := None;
                          entry_standalone := false |}) ∈ main_config Scenarios.js_config)
    by (apply list_elem_of_here).
  assert (H2 : contains [] "api" = false) by reflexivity.
  exact (proj1 (start_modules_probes_in_order 1024 Scenarios.js_fs Scenarios.fork_ok
                  Scenarios.js_config [] [] Scenarios.js_rs initial_world "api" _ H1 H2 H2)).
Defined.

End StartModulesFacts.

(** ** The manager: the startup barrier *)
Module BarrierFacts.

Import Json Manager ManagerSpec.

Lemma all_ready_spec (t : gmap string ModuleReadyInfo) :
  all_ready t = true ↔ ∀ n info, t !! n = Some info → ready info = true.
Proof.
  unfold all_ready. rewrite forallb_forall. split.
  - intros H n info Hl. apply (H (n, info)).
    apply list_elem_of_In. by apply elem_of_map_to_list.
  - intros H [n info] Hin. apply list_elem_of_In, elem_of_map_to_list in Hin.
    by apply (H n info).
Qed.

Lemma all_ready_empty : all_ready ∅ = true.
Proof. apply all_ready_spec. intros n info H. by rewrite lookup_empty in H. Qed.

Section Registration.

Variables (fs : FileSystem) (rs : RuntimeSettings) (config : Config).
Variables (ignored_modules standalone_modules : list string).

Local Abbreviation item_step :=
  (start_modules_item fs rs config ignored_modules standalone_modules).
Local Abbreviation loop :=
  (start_modules_loop fs rs config ignored_modules standalone_modules).
Local Abbreviation handler := (handler_of rs standalone_modules).
Local Abbreviation Registered := (registered rs standalone_modules).

Lemma lookup_set_token_emplace n h (t : gmap string ModuleReadyInfo) m :
  set_token n h (emplace n t) !! m
  = if decide (n = m) then Some {| ready := is_ready t n; token := Some h |}
    else t !! m.
Proof.
  unfold set_token, emplace, is_ready. destruct (decide (n = m)) as [->|Hne].
  - rewrite lookup_alter_eq. destruct (t !! m) as [info|] eqn:Hl.
    + by rewrite Hl.
    + by rewrite lookup_insert_eq.
  - rewrite lookup_alter_ne by done. destruct (t !! n); [done|].
    by rewrite lookup_insert_ne.
Qed.

(** What one iteration of the registration loop does to the ready
    table, the broker and the status FIFO. *)
Lemma start_modules_item_table n e w l w1 l1 :
  item_step (n, e) (w, l) = inr (w1, l1) →
  modules_ready w1
  = (if contains ignored_modules n then modules_ready w
     else set_token n (handler n) (emplace n (modules_ready w)))
  ∧ mqtt_published w1 = mqtt_published w
  ∧ status_fifo w1 = status_fifo w.
Proof.
  unfold start_modules_item. cbn [fst snd].
  destruct (contains ignored_modules n); [intros; by simplify_eq|].
  destruct (bool_decide (default [] (entry_capabilities e) = []));
    (destruct (contains standalone_modules n);
     [intros; by simplify_eq
     | destruct (locate_module _ _ _ _ _ _); intros; by simplify_eq]).
Qed.

(** The registration loop: which modules end up in the ready table,
    with which handler and flag. *)
Lemma start_modules_loop_table items w l w' l' :
  loop items (w, l) = inr (w', l') →
  mqtt_published w' = mqtt_published w
  ∧ status_fifo w' = status_fifo w
  ∧ (∀ n, is_Some (modules_ready w' !! n)
          ↔ is_Some (modules_ready w !! n)
            ∨ ∃ e, (n, e) ∈ items ∧ contains ignored_modules n = false)
  ∧ (Registered (modules_ready w) → Registered (modules_ready w'))
  ∧ (∀ n, is_ready (modules_ready w') n = is_ready (modules_ready w) n).
Proof.
  revert w l. induction items as [|[n0 e0] items IH]; intros w l Hrun.
  - cbn in Hrun. simplify_eq. repeat split; try done.
    + intros H. by left.
    + intros [H|(e & Hin & _)]; [done|]. by apply elem_of_nil in Hin.
  - cbn [start_modules_loop] in Hrun.
    destruct (item_step (n0, e0) (w, l)) as [ex|[w1 l1]] eqn:Hstep; [discriminate|].
    destruct (start_modules_item_table _ _ _ _ _ _ Hstep) as (Ht & Hp & Hs).
    destruct (IH _ _ Hrun) as (Hp' & Hs' & Hdom & Hreg & Hflag).
    assert (Hlook : ∀ m, modules_ready w1 !! m
              = if contains ignored_modules n0 then modules_ready w !! m
                else if decide (n0 = m)
                     then Some {| ready := is_ready (modules_ready w) n0;
                                  token := Some (handler n0) |}
                     else modules_ready w !! m).
    { intros m. rewrite Ht. destruct (contains ignored_modules n0); [done|].
      apply lookup_set_token_emplace. }
    split; [congruence|]. split; [congruence|]. split; [|split].
    + intros n. rewrite Hdom, Hlook. split.
      * intros [H|(e & Hin & Hign)].
        -- destruct (contains ignored_modules n0) eqn:Hi; [by left|].
           destruct (decide (n0 = n)) as [->|]; [|by left].
           right. exists e0. split; [apply list_elem_of_here|done].
        -- right. exists e. split; [by apply list_elem_of_further|done].
      * intros [H|(e & Hin & Hign)].
        -- left. destruct (contains ignored_modules n0); [done|].
           destruct (decide (n0 = n)); [by eexists|done].
        -- apply elem_of_cons in Hin as [Heq|Hin].
           ++ injection Heq as <- <-. left. rewrite Hign.
              rewrite decide_True by done. by eexists.
           ++ right. by exists e.
    + intros HR. apply Hreg. intros m info. rewrite Hlook.
      destruct (contains ignored_modules n0); [by apply HR|].
      destruct (decide (n0 = m)) as [->|]; [|by apply HR].
      intros H. by simplify_eq.
    + intros n. rewrite Hflag. unfold is_ready at 1. rewrite Hlook.
      destruct (contains ignored_modules n0); [done|].
      destruct (decide (n0 = n)) as [->|]; done.
Qed.

End Registration.

Section Ready.

Variables (rs : RuntimeSettings) (standalone_modules : list string).

Local Abbreviation Registered := (registered rs standalone_modules).

(** A boolean ready message for a module of the table is handled
    without exception: the flag is stored and the global ready signal is
    published if, and only if, every flag of the table is then set. *)
Lemma on_ready_message_handled w n b info :
  Registered (modules_ready w) →
  modules_ready w !! n = Some info →
  ∃ w', on_ready_message n (boolean b) w = inr w'
        ∧ modules_ready w'
          = <[n := {| ready := b; token := token info |}]> (modules_ready w)
        ∧ mqtt_published w'
          = mqtt_published w
            ++ (if all_ready (modules_ready w') then [global_ready rs] else []).
Proof.
  intros Hreg Hl. unfold on_ready_message. rewrite Hl.
  pose proof (Hreg _ _ Hl) as Htok. destruct info as [r tok]. cbn in Htok. subst tok.
  unfold module_ready_handler. cbn [get_bool handler_of h_module_name
    h_standalone_modules h_mqtt_everest_prefix token].
  rewrite Hl. cbn [token].
  set (t := <[n := _]> (modules_ready w)).
  destruct (all_ready t) eqn:Hall.
  - eexists. split; [reflexivity|].
    destruct (negb _ && _); cbn; by rewrite Hall.
  - destruct (negb (bool_decide (standalone_modules = []))) eqn:Hs; cbn [andb].
    + destruct (decide (modules_spawned t = _)); eexists; (split; [reflexivity|]);
        destruct (contains standalone_modules n); cbn; by rewrite Hall, ?app_nil_r.
    + eexists. split; [reflexivity|]. cbn. by rewrite Hall, app_nil_r.
Qed.

(** A ready message for a module outside the table runs no handler. *)
Lemma on_ready_message_unregistered w n p :
  modules_ready w !! n = None → on_ready_message n p w = inr w.
Proof. intros Hl. unfold on_ready_message. by rewrite Hl. Qed.

Lemma run_ready_app msgs1 msgs2 w w1 :
  run_ready msgs1 w = inr w1 → run_ready (msgs1 ++ msgs2) w = run_ready msgs2 w1.
Proof.
  revert w. induction msgs1 as [|[m p] msgs1 IH]; intros w; cbn.
  - intros H. by simplify_eq.
  - destruct (on_ready_message m p w); [discriminate|]. apply IH.
Qed.

Local Abbreviation barrier_inv := (barrier_inv rs standalone_modules).

Lemma barrier_inv_step pub0 w seen k n b :
  barrier_inv pub0 w seen k →
  ∃ w' k', on_ready_message n (boolean b) w = inr w'
           ∧ barrier_inv pub0 w' (seen ++ [(n, boolean b)]) k'
           ∧ ∀ m, is_Some (modules_ready w' !! m) ↔ is_Some (modules_ready w !! m).
Proof.
  intros (Hreg & Hpub & Hflags & Hk & Hall).
  destruct (modules_ready w !! n) as [info|] eqn:Hl.
  - destruct (on_ready_message_handled w n b info Hreg Hl) as (w' & Hrun & Ht & Hp).
    assert (Hlook : ∀ m, modules_ready w' !! m
              = if decide (n = m) then Some {| ready := b; token := token info |}
                else modules_ready w !! m).
    { intros m. rewrite Ht. apply lookup_insert. }
    assert (Hdom : ∀ m, is_Some (modules_ready w' !! m) ↔ is_Some (modules_ready w !! m)).
    { intros m. rewrite Hlook. destruct (decide (n = m)) as [<-|]; [|done].
      rewrite Hl. split; intros _; by eexists. }
    assert (Hflags' : ∀ m, is_ready (modules_ready w') m = true
                           → (m, boolean true) ∈ seen ++ [(n, boolean b)]).
    { intros m. unfold is_ready. rewrite Hlook.
      destruct (decide (n = m)) as [<-|].
      - cbn. intros ->. apply elem_of_app. right. by apply list_elem_of_singleton.
      - intros H. apply elem_of_app. left. by apply Hflags. }
    exists w', (if all_ready (modules_ready w') then S k else k).
    split; [exact Hrun|]. split; [|exact Hdom].
    split; [|split; [|split; [|split]]].
    + intros m i. rewrite Hlook. destruct (decide (n = m)) as [<-|]; [|by apply Hreg].
      intros H. simplify_eq. cbn. by apply (Hreg n info).
    + rewrite Hp, Hpub, <- app_assoc. f_equal.
      destruct (all_ready (modules_ready w')); [|by rewrite app_nil_r].
      change [global_ready rs] with (replicate 1 (global_ready rs)).
      rewrite <- replicate_add. f_equal. lia.
    + exact Hflags'.
    + intros Hpos m Hm. destruct (all_ready (modules_ready w')) eqn:Ha.
      * apply Hflags'. destruct Hm as [i Hi]. unfold is_ready. rewrite Hi.
        by eapply all_ready_spec.
      * apply elem_of_app. left. apply Hk; [done|]. by apply Hdom.
    + intros Ha _. rewrite Ha. lia.
  - exists w, k. rewrite on_ready_message_unregistered by done.
    split; [done|]. split; [|done].
    split; [done|]. split; [done|]. split; [|split; [|done]].
    + intros m Hm. apply elem_of_app. left. by apply Hflags.
    + intros Hpos m Hm. apply elem_of_app. left. by apply Hk.
Qed.

(** Boolean ready messages never make a handler throw, and the
    invariant holds along the run. *)
Lemma barrier_inv_run pub0 msgs w seen k :
  barrier_inv pub0 w seen k →
  (∀ m p, (m, p) ∈ msgs → ∃ b, p = boolean b) →
  ∃ w' k', run_ready msgs w = inr w'
           ∧ barrier_inv pub0 w' (seen ++ msgs) k'
           ∧ ∀ m, is_Some (modules_ready w' !! m) ↔ is_Some (modules_ready w !! m).
Proof.
  revert w seen k. induction msgs as [|[n p] msgs IH]; intros w seen k Hinv Hbool.
  - exists w, k. rewrite app_nil_r. by cbn.
  - destruct (Hbool n p) as [b ->]; [apply list_elem_of_here|].
    destruct (barrier_inv_step pub0 w seen k n b Hinv) as (w1 & k1 & Hstep & Hinv1 & Hdom1).
    destruct (IH w1 (seen ++ [(n, boolean b)]) k1 Hinv1) as (w' & k' & Hrun & Hinv' & Hdom').
    { intros m p Hin. apply (Hbool m p). by apply list_elem_of_further. }
    exists w', k'. cbn [run_ready]. rewrite Hstep.
    split; [exact Hrun|]. split.
    + by rewrite <- app_assoc in Hinv'.
    + intros m. by rewrite Hdom', Hdom1.
Qed.

End Ready.

(** C1 (as amended).  Take a run of the startup barrier in which the
    ready messages are handled after the registration loop of
    [start_modules] has completed: the loop on an empty ready table,
    followed by ready messages with boolean payloads.  No handler throws;
    everything published is the global ready signal (topic
    <everest_prefix>ready, payload true); a signal is published only
    after every non-ignored module of the config, standalone ones
    included, has sent a ready message with payload true; it is published
    once all of them are ready; and a further ready message arriving
    while all are ready publishes the signal once more.  (Messages
    handled while the loop is still registering are not covered: the
    last section of this file shows that they can make the signal come
    early.) *)
Theorem global_ready_only_after_all_ready (fs : FileSystem) (rs : RuntimeSettings)
    (config : Config) (ignored_modules standalone_modules : list string)
    (w_init w0 : World) (l : list ModuleStartInfo) (msgs : list (string * json)) :
  modules_ready w_init = ∅ →
  start_modules_loop fs rs config ignored_modules standalone_modules
                     (main_config config) (w_init, []) = inr (w0, l) →
  (∀ m p, (m, p) ∈ msgs → ∃ b, p = boolean b) →
  ∃ w k,
    run_ready msgs w0 = inr w
    ∧ mqtt_published w = mqtt_published w_init ++ replicate k (global_ready rs)
    ∧ ((0 < k)%nat →
       ∀ n e, (n, e) ∈ main_config config → contains ignored_modules n = false →
              (n, boolean true) ∈ msgs)
    ∧ ((∀ n e, (n, e) ∈ main_config config → contains ignored_modules n = false →
               is_ready (modules_ready w) n = true) →
       (∃ n e, (n, e) ∈ main_config config ∧ contains ignored_modules n = false) →
       (0 < k)%nat)
    ∧ ((∀ n e, (n, e) ∈ main_config config → contains ignored_modules n = false →
               is_ready (modules_ready w) n = true) →
       ∀ n e, (n, e) ∈ main_config config → contains ignored_modules n = false →
         ∃ w2, run_ready (msgs ++ [(n, boolean true)]) w0 = inr w2
               ∧ mqtt_published w2 = mqtt_published w ++ [global_ready rs]).
Proof.
  intros Hempty Hloop Hbool.
  destruct (start_modules_loop_table _ _ _ _ _ _ _ _ _ _ Hloop)
    as (Hp0 & _ & Hdom0 & Hreg0 & Hflag0).
  assert (Hdom0' : ∀ n, is_Some (modules_ready w0 !! n)
            ↔ ∃ e, (n, e) ∈ main_config config ∧ contains ignored_modules n = false).
  { intros n. rewrite Hdom0, Hempty, lookup_empty. split; [|by right].
    intros [H|H]; [by destruct H|done]. }
  assert (Hfalse : ∀ n, is_ready (modules_ready w0) n = false).
  { intros n. rewrite Hflag0. unfold is_ready. by rewrite Hempty, lookup_empty. }
  assert (Hinv0 : barrier_inv rs standalone_modules (mqtt_published w_init) w0 [] 0).
  { split; [|split; [|split; [|split]]].
    - apply Hreg0. intros n info. by rewrite Hempty, lookup_empty.
    - by rewrite Hp0, app_nil_r.
    - intros n. by rewrite Hfalse.
    - lia.
    - intros Hall Hne. exfalso.
      destruct (map_choose _ Hne) as (n & info & Hl).
      pose proof (proj1 (all_ready_spec _) Hall n info Hl) as Hr.
      pose proof (Hfalse n) as Hf. unfold is_ready in Hf. rewrite Hl in Hf. congruence. }
  destruct (barrier_inv_run rs standalone_modules _ msgs w0 [] 0 Hinv0 Hbool)
    as (w & k & Hrun & (Hreg & Hpub & Hflags & Hk & Hall) & Hdom).
  cbn [app] in Hflags, Hk.
  assert (Hallr : (∀ n e, (n, e) ∈ main_config config → contains ignored_modules n = false →
                      is_ready (modules_ready w) n = true) →
                  all_ready (modules_ready w) = true).
  { intros H. apply all_ready_spec. intros n info Hl.
    assert (Hs : is_Some (modules_ready w0 !! n)) by (apply Hdom; by eexists).
    apply Hdom0' in Hs as (e & Hin & Hign).
    specialize (H n e Hin Hign). unfold is_ready in H. by rewrite Hl in H. }
  exists w, k. split; [exact Hrun|]. split; [exact Hpub|]. split; [|split].
  - intros Hpos n e Hin Hign. apply Hk; [exact Hpos|].
    apply Hdom, Hdom0'. by exists e.
  - intros Hready (n & e & Hin & Hign). apply Hall; [by apply Hallr|].
    assert (Hs : is_Some (modules_ready w !! n)) by (apply Hdom, Hdom0'; by exists e).
    intros Heq. rewrite Heq, lookup_empty in Hs. by destruct Hs.
  - intros Hready n e Hin Hign.
    assert (Hs : is_Some (modules_ready w !! n)) by (apply Hdom, Hdom0'; by exists e).
    destruct Hs as [info Hl].
    destruct (on_ready_message_handled rs standalone_modules w n true info Hreg Hl)
      as (w2 & Hstep & Ht & Hp).
    exists w2. split.
    + rewrite (run_ready_app _ _ _ _ Hrun). cbn [run_ready]. by rewrite Hstep.
    + rewrite Hp. replace (all_ready (modules_ready w2)) with true; [done|].
      symmetry. apply all_ready_spec. intros m i. rewrite Ht, lookup_insert.
      destruct (decide (n = m)); [intros ?; by simplify_eq|].
      intros Hm. by apply (proj1 (all_ready_spec _) (Hallr Hready) m i).
Qed.

Lemma global_ready_only_after_all_ready_witness :
  ∃ w k,
    run_ready [("a", boolean true)] (Scenarios.registered_world Scenarios.single []) = inr w
    ∧ mqtt_published w = replicate k (global_ready Scenarios.rs).
Proof.
  assert (H1 : modules_ready initial_world = ∅) by reflexivity.
  assert (H2 : start_modules_loop Scenarios.all_binaries Scenarios.rs Scenarios.single [] []
                 (main_config Scenarios.single) (initial_world, [])
               = inr (Scenarios.registered_world Scenarios.single [],
                      [{| name := "a"; printable_name := "a"; language := cpp;
                          module_path := ["libexec"; "everest"; "modules"; "A"; "A"];
                          capabilities := [] |}]))
    by (vm_compute; reflexivity).
  assert (H3 : ∀ m p, (m, p) ∈ [("a", boolean true)] → ∃ b, p = boolean b).
  { intros m p Hin. apply list_elem_of_singleton in Hin. injection Hin as -> ->. by exists true. }
  destruct (global_ready_only_after_all_ready _ _ _ _ _ _ _ _ _ H1 H2 H3)
    as (w & k & Hrun & Hpub & _).
  exists w, k. split; [exact Hrun | exact Hpub].
Defined.

(** C1 as stated fails: a duplicate ready message that arrives after the
    global ready signal was published makes the manager publish it a
    second time. *)
Lemma global_ready_published_twice :
  (mqtt_published <$> Scenarios.after_ready Scenarios.single [] [("a", boolean true)])
  = Some [("everest/ready", boolean true)]
  ∧ (mqtt_published <$> Scenarios.after_ready Scenarios.single []
                          [("a", boolean true); ("a", boolean true)])
    = Some [("everest/ready", boolean true); ("everest/ready", boolean true)].
Proof. split; vm_compute; reflexivity. Qed.

(** C7, the order of the scenario: after the two modules started by the
    manager are ready the status FIFO has WAITING_FOR_STANDALONE_MODULES
    and nothing is published; the standalone module's ready message then
    adds ALL_MODULES_STARTED and the global ready signal.  The standalone
    module is in the ready table and is not scheduled for spawning. *)
Lemma standalone_scenario_in_order :
  Scenarios.scheduled Scenarios.with_standalone ["s"] = ["a"; "b"]
  ∧ is_Some (modules_ready (Scenarios.registered_world Scenarios.with_standalone ["s"]) !! "s")
  ∧ match Scenarios.after_ready Scenarios.with_standalone ["s"]
            [("a", boolean true); ("b", boolean true)] with
    | Some w => status_fifo w = [WAITING_FOR_STANDALONE_MODULES] ∧ mqtt_published w = []
    | None => False
    end
  ∧ match Scenarios.after_ready Scenarios.with_standalone ["s"]
            [("a", boolean true); ("b", boolean true); ("s", boolean true)] with
    | Some w => status_fifo w = [WAITING_FOR_STANDALONE_MODULES; ALL_MODULES_STARTED]
                ∧ mqtt_published w = [("everest/ready", boolean true)]
    | None => False
    end.
Proof.
  split; [vm_compute; reflexivity|]. split; [vm_compute; by eexists|].
  split; vm_compute; split; reflexivity.
Qed.

(** C7 fails on the code when the standalone module reports first: with
    [s] and [a] ready and the manager-started module [b] not ready, the
    count of ready modules equals the number of manager-started modules
    and the status FIFO receives WAITING_FOR_STANDALONE_MODULES. *)
Lemma waiting_reported_while_managed_module_not_ready :
  match Scenarios.after_ready Scenarios.with_standalone ["s"]
          [("s", boolean true); ("a", boolean true)] with
  | Some w =>
      status_fifo w = [WAITING_FOR_STANDALONE_MODULES]
      ∧ is_ready (modules_ready w) "s" = true
      ∧ is_ready (modules_ready w) "a" = true
      ∧ is_ready (modules_ready w) "b" = false
  | None => False
  end.
Proof. vm_compute. repeat split; reflexivity. Qed.

End BarrierFacts.

(** ** The manager: a module exits while the fleet is running *)
Module ShutdownFacts.

Import Json Manager ManagerSpec.

Lemma elem_of_in_pid_order (m : gmap Z string) p n :
  (p, n) ∈ in_pid_order m ↔ m !! p = Some n.
Proof.
  unfold in_pid_order. rewrite merge_sort_Permutation. apply elem_of_map_to_list.
Qed.

(** Terminating one child sends exactly [signals_for] and touches
    neither the status FIFO nor the broker. *)
Lemma terminate_child_effects kill child w :
  signals (terminate_child kill child w) = signals w ++ signals_for kill child
  ∧ status_fifo (terminate_child kill child w) = status_fifo w
  ∧ mqtt_published (terminate_child kill child w) = mqtt_published w
  ∧ ∃ more, log (terminate_child kill child w) = log w ++ more.
Proof.
  unfold terminate_child, signals_for.
  destruct (decide (kill child.1 SIGTERM ≠ 0)).
  - destruct (decide (kill child.1 SIGKILL ≠ 0)); cbn; rewrite <- ?app_assoc;
      repeat split; eauto.
  - cbn. repeat split; eauto.
Qed.

Lemma terminate_children_effects kill children w :
  let w' := foldl (λ w child, terminate_child kill child w) w children in
  signals w' = signals w ++ (children ≫= signals_for kill)
  ∧ status_fifo w' = status_fifo w
  ∧ mqtt_published w' = mqtt_published w
  ∧ ∃ more, log w' = log w ++ more.
Proof.
  revert w. induction children as [|child children IH]; intros w; cbn.
  - rewrite app_nil_r. repeat split. exists []. by rewrite app_nil_r.
  - destruct (IH (terminate_child kill child w)) as (Hs & Hf & Hp & more & Hl).
    destruct (terminate_child_effects kill child w) as (Hs1 & Hf1 & Hp1 & more1 & Hl1).
    cbn in Hs, Hf, Hp, Hl.
    rewrite Hs, Hf, Hp, Hl, Hs1, Hf1, Hp1, Hl1, <- !app_assoc.
    repeat split. by eexists.
Qed.

Lemma shutdown_modules_effects kill modules config w :
  let w' := shutdown_modules kill modules config w in
  signals w' = signals w ++ (in_pid_order modules ≫= signals_for kill)
  ∧ status_fifo w' = status_fifo w
  ∧ mqtt_published w' = mqtt_published w
  ∧ modules_ready w' = ∅
  ∧ ∃ more, log w' = log w ++ more.
Proof.
  unfold shutdown_modules.
  match goal with
  | |- context [foldl _ ?w0 (in_pid_order modules)] =>
      destruct (terminate_children_effects kill (in_pid_order modules) w0)
        as (Hs & Hf & Hp & Hl)
  end.
  cbn in *. repeat split; try done.
  clear. generalize (in_pid_order modules).
  intros children.
  match goal with |- modules_ready (foldl _ ?w0 _) = _ =>
    assert (Hw : modules_ready w0 = ∅) by reflexivity; revert Hw; generalize w0 end.
  induction children as [|c children IH]; intros w0 Hw; cbn; [done|].
  apply IH. unfold terminate_child.
  repeat match goal with |- context [decide ?P] => destruct (decide P) end; exact Hw.
Qed.

(** C2 (as amended).  When a module process exits while the fleet is in
    the running state, the iteration of the wait loop logs the exit
    status, sends SIGTERM to every remaining sibling (in pid order),
    sends SIGKILL to a sibling exactly when the [kill] that sent it
    SIGTERM failed, and then right after that SIGTERM (there is no grace
    period), leaves the status FIFO and the broker untouched, and makes
    [boot] return EXIT_FAILURE, which is not zero. *)
Theorem module_exit_terminates_fleet (kill : Killer) (config : Config) (st : BootState)
    (pid wstatus : Z) (module_name : string) (later : list (Z * Z)) :
  modules_started st = true →
  module_handles st !! pid = Some module_name →
  0 < pid →
  let siblings := in_pid_order (delete pid (module_handles st)) in
  let sent := siblings ≫= signals_for kill in
  ∃ st',
    boot_iteration kill config pid wstatus st = returned EXIT_FAILURE st'
    ∧ boot_loop kill config ((pid, wstatus) :: later) st = (Some (inr EXIT_FAILURE), st')
    ∧ EXIT_FAILURE ≠ 0
    ∧ (∃ more, log (world st')
               = log (world st)
                 ++ Module_exited_terminating_all module_name pid wstatus :: more)
    ∧ signals (world st') = signals (world st) ++ sent
    ∧ (∀ p n, (p, n) ∈ siblings ↔ module_handles st !! p = Some n ∧ p ≠ pid)
    ∧ (∀ p n, (p, n) ∈ siblings →
         (p, SIGTERM) ∈ sent ∧ ((p, SIGKILL) ∈ sent ↔ kill p SIGTERM ≠ 0))
    ∧ (∀ p sig, (p, sig) ∈ sent → ∃ n, (p, n) ∈ siblings)
    ∧ status_fifo (world st') = status_fifo (world st)
    ∧ mqtt_published (world st') = mqtt_published (world st)
    ∧ module_handles st' = delete pid (module_handles st)
    ∧ modules_started st' = false.
Proof.
  intros Hstarted Hpid Hpos siblings sent.
  assert (Hstep : ∃ st', boot_iteration kill config pid wstatus st = returned EXIT_FAILURE st'
            ∧ world st'
              = evlog Exiting_manager
                  (shutdown_modules kill (delete pid (module_handles st)) config
                     (evlog (Module_exited_terminating_all module_name pid wstatus)
                            (world st)))
            ∧ module_handles st' = delete pid (module_handles st)
            ∧ modules_started st' = false).
  { unfold boot_iteration. rewrite !decide_False by lia. rewrite Hpid, Hstarted.
    eexists. split; [reflexivity|]. by cbn. }
  destruct Hstep as (st' & Hit & Hw & Hh & Hm).
  destruct (shutdown_modules_effects kill (delete pid (module_handles st)) config
              (evlog (Module_exited_terminating_all module_name pid wstatus) (world st)))
    as (Hs & Hf & Hp & _ & more & Hl).
  cbn in Hs, Hf, Hp, Hl.
  assert (Hsib : ∀ p n, (p, n) ∈ siblings ↔ module_handles st !! p = Some n ∧ p ≠ pid).
  { intros p n. subst siblings. rewrite elem_of_in_pid_order, lookup_delete.
    destruct (decide (pid = p)) as [Heq|Hne].
    - split; [done|]. intros [_ Hn]. by destruct Hn.
    - split; [intros H; split; [done|congruence] | by intros [H _]]. }
  exists st'. split; [exact Hit|]. split; [by cbn [boot_loop]; rewrite Hit|].
  split; [discriminate|]. rewrite Hw. cbn [log signals status_fifo mqtt_published evlog].
  split; [|split; [exact Hs|split; [exact Hsib|split; [|split; [|by auto]]]]].
  - exists (more ++ [Exiting_manager]). rewrite Hl, <- !app_assoc. reflexivity.
  - intros p n Hin. subst sent. split.
    + apply list_elem_of_bind. exists (p, n). split; [|exact Hin].
      unfold signals_for. cbn. destruct (decide _); apply list_elem_of_here.
    + split.
      * intros Hk. apply list_elem_of_bind in Hk as ([p' n'] & Hk & _).
        unfold signals_for in Hk. cbn in Hk. destruct (decide (kill p' SIGTERM ≠ 0)).
        -- apply elem_of_cons in Hk as [Hk|Hk]; [discriminate|].
           apply list_elem_of_singleton in Hk. by simplify_eq.
        -- apply list_elem_of_singleton in Hk. discriminate.
      * intros Hk. apply list_elem_of_bind. exists (p, n). split; [|exact Hin].
        unfold signals_for. cbn. rewrite decide_True by done.
        apply list_elem_of_further, list_elem_of_here.
  - intros p sig Hin. subst sent. apply list_elem_of_bind in Hin as ([p' n'] & Hk & Hin).
    exists n'. unfold signals_for in Hk. cbn in Hk.
    destruct (decide _); repeat (apply elem_of_cons in Hk as [Hk|Hk]; [by simplify_eq|]);
      by apply elem_of_nil in Hk.
Qed.

Lemma module_exit_terminates_fleet_witness :
  ∃ st', boot_iteration Scenarios.stubborn Scenarios.three_modules 101 256 Scenarios.fleet
         = returned EXIT_FAILURE st'
         ∧ signals (world st')
           = signals (world Scenarios.fleet)
             ++ (in_pid_order (delete 101 (module_handles Scenarios.fleet))
                   ≫= signals_for Scenarios.stubborn).
Proof.
  assert (H1 : modules_started Scenarios.fleet = true) by reflexivity.
  assert (H2 : module_handles Scenarios.fleet !! 101 = Some "a") by (vm_compute; reflexivity).
  assert (H3 : 0 < 101) by lia.
  destruct (module_exit_terminates_fleet Scenarios.stubborn Scenarios.three_modules
              Scenarios.fleet 101 256 "a" [] H1 H2 H3)
    as (st' & Hit & _ & _ & _ & Hs & _).
  exists st'. split; [exact Hit | exact Hs].
Defined.

(** C2 as stated fails: child "a" exits from the running fleet; the
    status FIFO receives nothing, and child 103, whose SIGTERM could not
    be sent, is sent SIGKILL at once, after the SIGTERM of its own. *)
Lemma module_exit_no_status_no_grace :
  match boot_loop Scenarios.stubborn Scenarios.three_modules [(101, 256)] Scenarios.fleet with
  | (r, st') =>
      r = Some (inr EXIT_FAILURE)
      ∧ status_fifo (world st') = []
      ∧ mqtt_published (world st') = []
      ∧ signals (world st') = [(102, SIGTERM); (103, SIGTERM); (103, SIGKILL)]
  end.
Proof. vm_compute. repeat split; reflexivity. Qed.

End ShutdownFacts.

(** ** The global error manager *)
Module ErrorManagerFacts.

Import ErrorManagerReqGlobal.

Section Facts.

Context {ErrorCallback : Type} (throws : ErrorCallback → Error → option exn).

Local Abbreviation ErrorManager := (ErrorManager ErrorCallback).
Local Abbreviation Subscription := (Subscription ErrorCallback).
Local Abbreviation Call := (Call ErrorCallback).

(** The invocations of the raise callbacks, respectively the clear
    callbacks, of the given subscriptions with one error, in order. *)
Local Abbreviation raise_calls e subs :=
  (imap (λ i sub, {| subscriber := i; event := raised; invoked := callback sub;
                     argument := e |}) subs).
Local Abbreviation clear_calls e subs :=
  (imap (λ i sub, {| subscriber := i; event := cleared; invoked := clear_callback sub;
                     argument := e |}) subs).

Implicit Types (m : ErrorManager) (e error : Error) (db : ErrorDatabase)
               (id : identity) (subs : list Subscription) (c : Call).

(** The filter triple selects the errors with the same identity. *)
Lemma identity_filters_spec error e :
  forallb (λ f, matches f e) (identity_filters error) = true
  ↔ identity_of e = identity_of error.
Proof.
  unfold identity_filters, identity_of. cbn.
  rewrite !andb_true_iff, !bool_decide_eq_true. split.
  - intros (-> & -> & -> & _). reflexivity.
  - intros H. injection H as -> -> ->. done.
Qed.

Lemma get_errors_identity error db :
  get_errors (identity_filters error) db
  = filter (λ e, identity_of e = identity_of error) db.
Proof. unfold get_errors. apply list_filter_iff, identity_filters_spec. Qed.

Lemma remove_errors_identity error db :
  remove_errors (identity_filters error) db
  = (filter (λ e, identity_of e = identity_of error) db,
     filter (λ e, identity_of e ≠ identity_of error) db).
Proof.
  unfold remove_errors. rewrite get_errors_identity. f_equal.
  apply list_filter_iff. intros e. by rewrite identity_filters_spec.
Qed.

Lemma active_count id db : active id db ↔ count_active id db ≠ 0%nat.
Proof.
  unfold active, count_active. split.
  - intros (e & Hin & Hid) Hlen. apply length_zero_iff_nil in Hlen.
    assert (He : e ∈ filter (λ e, identity_of e = id) db) by (by apply list_elem_of_filter).
    rewrite Hlen in He. by apply elem_of_nil in He.
  - intros Hlen. destruct (filter (λ e, identity_of e = id) db) as [|e l] eqn:Hf; [done|].
    assert (He : e ∈ filter (λ e, identity_of e = id) db) by (rewrite Hf; apply list_elem_of_here).
    apply list_elem_of_filter in He as [Hid Hin]. by exists e.
Qed.

Lemma count_active_add id e db :
  count_active id (add_error e db)
  = (count_active id db + if decide (identity_of e = id) then 1 else 0)%nat.
Proof.
  unfold count_active, add_error. rewrite filter_app, length_app. f_equal.
  rewrite filter_cons, filter_nil. by destruct (decide _).
Qed.

Lemma count_active_remove id error db :
  count_active id (filter (λ e, identity_of e ≠ identity_of error) db)
  = if decide (identity_of error = id) then 0%nat else count_active id db.
Proof.
  unfold count_active. induction db as [|x db IH]; [by destruct (decide _)|].
  rewrite !filter_cons.
  destruct (decide (identity_of x ≠ identity_of error)) as [Hne|Heq].
  - rewrite filter_cons. destruct (decide (identity_of x = id)) as [Hx|Hx]; cbn.
    + rewrite IH. destruct (decide (identity_of error = id)); [congruence|done].
    + exact IH.
  - apply dec_stable in Heq. rewrite IH.
    destruct (decide (identity_of error = id)) as [He|He]; [done|].
    destruct (decide (identity_of x = id)); [congruence|done].
Qed.

(** The three ways [on_error_raised] ends. *)
Lemma on_error_raised_cases error m :
  on_error_raised throws error m
  = if negb (has (error_type_map m) (type error)) then
      returns (evlog_error (Type_not_defined (type error)) m)
    else if decide (count_active (identity_of error) (database m) = 0%nat) then
      notify throws raised error (set_database (add_error error (database m)) m)
    else returns (evlog_error (Already_raised (type error) (sub_type error)) m).
Proof.
  unfold on_error_raised. destruct (negb _); [reflexivity|].
  rewrite get_errors_identity. fold (count_active (identity_of error) (database m)).
  destruct (decide (count_active (identity_of error) (database m) = 0%nat)) as [Hz|Hnz].
  - unfold count_active in Hz. apply length_zero_iff_nil in Hz.
    rewrite Hz. rewrite bool_decide_eq_true_2 by done. cbn [negb set_database database].
    rewrite get_errors_identity.
    fold (count_active (identity_of error) (add_error error (database m))).
    rewrite count_active_add.
    rewrite (decide_True (P := identity_of error = identity_of error)) by done.
    unfold count_active. rewrite Hz. cbn [length Nat.add].
    rewrite decide_False by (intros H; by apply H). reflexivity.
  - rewrite bool_decide_eq_false_2; [reflexivity|].
    intros Hnil. apply Hnz. unfold count_active. by rewrite Hnil.
Qed.

(** The four ways [on_error_cleared] ends. *)
Lemma on_error_cleared_cases error m :
  on_error_cleared throws error m
  = if negb (has (error_type_map m) (type error)) then
      returns (evlog_error (Type_not_defined (type error)) m)
    else
      let n := count_active (identity_of error) (database m) in
      let m' := set_database
                  (filter (λ e, identity_of e ≠ identity_of error) (database m)) m in
      if decide (n = 0%nat) then
        returns (evlog_error (Not_raised (type error) (sub_type error)) m)
      else if decide (n = 1%nat) then notify throws cleared error m'
      else returns (evlog_error (More_than_one_cleared (type error) (sub_type error)) m').
Proof.
  unfold on_error_cleared. destruct (negb _); [reflexivity|].
  rewrite get_errors_identity, remove_errors_identity. cbn zeta.
  unfold count_active.
  destruct (filter (λ e, identity_of e = identity_of error) (database m))
    as [|x [|y l]] eqn:Hf; cbn [length];
    repeat (case_bool_decide || case_decide); try done; try (cbn in *; lia).
Qed.

(** The invocations of a fan-out that starts at position [k]. *)
Lemma imap_shift k ev e subs :
  imap (λ i sub, {| subscriber := k + S i; event := ev; invoked := member ev sub;
                    argument := e |}) subs
  = imap (λ i sub, {| subscriber := S k + i; event := ev; invoked := member ev sub;
                      argument := e |}) subs.
Proof. apply imap_ext. intros i x _. cbn. f_equal. lia. Qed.

(** If no callback throws, the fan-out invokes every subscription, once
    each, in the order of the vector, and returns. *)
Lemma fanout_all_return k ev e subs :
  Forall (λ sub, throws (member ev sub) e = None) subs →
  fanout throws k ev e subs
  = (imap (λ i sub, {| subscriber := k + i; event := ev; invoked := member ev sub;
                       argument := e |}) subs, None).
Proof.
  revert k. induction subs as [|sub subs IH]; intros k Hall; [done|].
  apply Forall_cons in Hall as [Hsub Hall]. cbn [fanout]. rewrite Hsub.
  rewrite (IH (S k) Hall). cbn [fst snd]. rewrite imap_cons.
  unfold compose. rewrite imap_shift, Nat.add_0_r. reflexivity.
Qed.

(** The first callback that throws ends the fan-out: the subscriptions
    before it and itself have been invoked, the later ones have not, and
    its exception leaves the loop. *)
Lemma fanout_first_throw k ev e done last rest x :
  Forall (λ sub, throws (member ev sub) e = None) done →
  throws (member ev last) e = Some x →
  fanout throws k ev e (done ++ last :: rest)
  = (imap (λ i sub, {| subscriber := k + i; event := ev; invoked := member ev sub;
                       argument := e |}) (done ++ [last]), Some x).
Proof.
  revert k. induction done as [|sub done IH]; intros k Hall Hlast.
  - cbn [app fanout]. rewrite Hlast. cbn. by rewrite Nat.add_0_r.
  - apply Forall_cons in Hall as [Hsub Hall]. cbn [app fanout]. rewrite Hsub.
    rewrite (IH (S k) Hall Hlast). cbn [fst snd]. rewrite imap_cons.
    unfold compose. rewrite imap_shift, Nat.add_0_r. reflexivity.
Qed.

(** Either every callback returns or there is a first one that throws. *)
Lemma first_thrower ev e subs :
  Forall (λ sub, throws (member ev sub) e = None) subs
  ∨ ∃ done last rest x,
      subs = done ++ last :: rest
      ∧ Forall (λ sub, throws (member ev sub) e = None) done
      ∧ throws (member ev last) e = Some x.
Proof.
  induction subs as [|sub subs IH]; [by left|].
  destruct (throws (member ev sub) e) as [x|] eqn:Hsub.
  - right. exists [], sub, subs, x. by repeat split.
  - destruct IH as [Hall|(done & last & rest & x & -> & Hall & Hlast)].
    + left. by constructor.
    + right. exists (sub :: done), last, rest, x. repeat split; [by constructor|done].
Qed.

(** Every invocation of a fan-out goes to a subscription of the vector,
    through the member of the event, with the error as argument. *)
Lemma fanout_calls k ev e subs c :
  c ∈ (fanout throws k ev e subs).1 →
  ∃ j sub, subscriber c = (k + j)%nat ∧ subs !! j = Some sub
           ∧ invoked c = member ev sub ∧ event c = ev ∧ argument c = e.
Proof.
  revert k. induction subs as [|sub subs IH]; intros k; cbn [fanout].
  - intros Hc. by apply elem_of_nil in Hc.
  - destruct (throws (member ev sub) e); cbn [fst].
    + intros Hc. apply list_elem_of_singleton in Hc as ->.
      exists 0%nat, sub. cbn. by rewrite Nat.add_0_r.
    + intros Hc. apply elem_of_cons in Hc as [->|Hc].
      * exists 0%nat, sub. cbn. by rewrite Nat.add_0_r.
      * destruct (IH _ Hc) as (j & s & Hj & Hl & Hrest).
        exists (S j), s. split; [lia|]. by split.
Qed.

Lemma filter_none {A} (P : A → Prop) `{∀ x, Decision (P x)} (l : list A) :
  (∀ x, x ∈ l → ¬ P x) → filter P l = [].
Proof.
  induction l as [|x l IH]; intros Hn; [done|].
  rewrite filter_cons, decide_False by (apply Hn, list_elem_of_here).
  apply IH. intros y Hy. by apply Hn, list_elem_of_further.
Qed.

(** The part of a fan-out that the subscriber at position [k + i] sees
    for one identity, when no subscriber before it throws. *)
Lemma observed_fanout k ev e subs i id :
  (∀ j sub, (j < i)%nat → subs !! j = Some sub → throws (member ev sub) e = None) →
  event <$> filter (λ c, subscriber c = (k + i)%nat ∧ identity_of (argument c) = id)
              (fanout throws k ev e subs).1
  = if decide (identity_of e = id ∧ (i < length subs)%nat) then [ev] else [].
Proof.
  revert k i. induction subs as [|sub subs IH]; intros k i Hbefore.
  - cbn. rewrite decide_False; [done|]. intros [_ ?]. lia.
  - assert (Hlater : ∀ c, c ∈ (fanout throws (S k) ev e subs).1 → (S k ≤ subscriber c)%nat).
    { intros c Hc. apply fanout_calls in Hc as (j & _ & -> & _). lia. }
    destruct i as [|i].
    + assert (Hrest : filter (λ c, subscriber c = (k + 0)%nat ∧ identity_of (argument c) = id)
                        (fanout throws (S k) ev e subs).1 = []).
      { apply filter_none. intros c Hc [Hs _]. apply Hlater in Hc. lia. }
      cbn [fanout length]. destruct (throws (member ev sub) e); cbn [fst];
        rewrite filter_cons; cbn [subscriber argument];
        rewrite ?Hrest, ?filter_nil;
        destruct (decide (identity_of e = id)) as [He|He].
      * rewrite decide_True by (split; [lia|done]).
        rewrite decide_True by (split; [done|lia]). done.
      * rewrite decide_False by (by intros [_ ?]).
        rewrite decide_False by (by intros [? _]). done.
      * rewrite decide_True by (split; [lia|done]).
        rewrite decide_True by (split; [done|lia]). done.
      * rewrite decide_False by (by intros [_ ?]).
        rewrite decide_False by (by intros [? _]). done.
    + cbn [fanout length]. rewrite (Hbefore 0%nat sub) by (lia || done). cbn [fst].
      rewrite filter_cons, decide_False by (cbn; intros [? _]; lia).
      replace (k + S i)%nat with (S k + i)%nat by lia.
      rewrite IH.
      * destruct (decide (identity_of e = id ∧ (i < length subs)%nat)) as [[? ?]|Hn].
        -- rewrite decide_True by (split; [done|lia]). done.
        -- rewrite decide_False; [done|]. intros [? ?]. apply Hn. split; [done|lia].
      * intros j s Hj Hl. apply (Hbefore (S j)); [lia|done].
Qed.

Lemma observed_notify ev e m i id :
  (∀ j sub, (j < i)%nat → subscriptions m !! j = Some sub →
            throws (member ev sub) e = None) →
  observed i id (after (notify throws ev e m))
  = observed i id m
    ++ if decide (identity_of e = id ∧ (i < length (subscriptions m))%nat) then [ev] else [].
Proof.
  intros Hbefore. unfold observed, notify. cbn [after add_calls calls].
  rewrite filter_app, fmap_app. f_equal.
  by rewrite <- (observed_fanout 0 ev e (subscriptions m) i id Hbefore).
Qed.

Lemma episodes_snoc k : episodes k ++ [raised; cleared] = episodes (S k).
Proof. induction k as [|k IH]; [done|]. cbn. cbn in IH. by rewrite IH. Qed.

Lemma alternates_episodes k :
  alternates raised (episodes k) = true ∧ alternates raised (episodes k ++ [raised]) = true.
Proof. induction k as [|k IH]; [done|]. exact IH. Qed.

(** What a delivered raise does to the callbacks: every raise callback
    is invoked once, in the order of the subscriptions, unless one of
    them throws; then the fan-out ends with that callback. *)
Lemma notify_raised e m :
  (Forall (λ sub, throws (callback sub) e = None) (subscriptions m) →
     escaped (notify throws raised e m) = None
     ∧ calls (after (notify throws raised e m))
       = calls m ++ raise_calls e (subscriptions m))
  ∧ (∀ done last rest x,
       subscriptions m = done ++ last :: rest →
       Forall (λ sub, throws (callback sub) e = None) done →
       throws (callback last) e = Some x →
       escaped (notify throws raised e m) = Some x
       ∧ calls (after (notify throws raised e m))
         = calls m ++ raise_calls e (done ++ [last])).
Proof.
  unfold notify. cbn [after escaped add_calls calls]. split.
  - intros Hall. by rewrite (fanout_all_return 0 raised e _ Hall).
  - intros done last rest x -> Hall Hlast.
    by rewrite (fanout_first_throw 0 raised e done last rest x Hall Hlast).
Qed.

(** The same for a delivered clear and the clear callbacks. *)
Lemma notify_cleared e m :
  (Forall (λ sub, throws (clear_callback sub) e = None) (subscriptions m) →
     escaped (notify throws cleared e m) = None
     ∧ calls (after (notify throws cleared e m))
       = calls m ++ clear_calls e (subscriptions m))
  ∧ (∀ done last rest x,
       subscriptions m = done ++ last :: rest →
       Forall (λ sub, throws (clear_callback sub) e = None) done →
       throws (clear_callback last) e = Some x →
       escaped (notify throws cleared e m) = Some x
       ∧ calls (after (notify throws cleared e m))
         = calls m ++ clear_calls e (done ++ [last])).
Proof.
  unfold notify. cbn [after escaped add_calls calls]. split.
  - intros Hall. by rewrite (fanout_all_return 0 cleared e _ Hall).
  - intros done last rest x -> Hall Hlast.
    by rewrite (fanout_first_throw 0 cleared e done last rest x Hall Hlast).
Qed.

(** C3 (as amended).  For a raised error whose type is known: if an
    error with the same identity (type, sub_type, origin) is active,
    [on_error_raised] returns after logging the diagnostic "already
    raised", and the active set, the subscriptions and the callback
    invocations are unchanged.  Otherwise it inserts the error into the
    active set, logs nothing, and then invokes the raise callbacks in the
    order of the subscriptions, with the error as argument: all of them,
    once each, if none throws; and if one throws, those up to and
    including the first that throws, whose exception leaves
    [on_error_raised] with the error inserted and the later subscribers
    not invoked. *)
Theorem raise_deduplicates m e :
  has (error_type_map m) (type e) = true →
  (active (identity_of e) (database m) →
     escaped (on_error_raised throws e m) = None
     ∧ database (after (on_error_raised throws e m)) = database m
     ∧ subscriptions (after (on_error_raised throws e m)) = subscriptions m
     ∧ calls (after (on_error_raised throws e m)) = calls m
     ∧ diagnostics (after (on_error_raised throws e m))
       = diagnostics m ++ [Already_raised (type e) (sub_type e)])
  ∧ (¬ active (identity_of e) (database m) →
     database (after (on_error_raised throws e m)) = database m ++ [e]
     ∧ active (identity_of e) (database (after (on_error_raised throws e m)))
     ∧ subscriptions (after (on_error_raised throws e m)) = subscriptions m
     ∧ diagnostics (after (on_error_raised throws e m)) = diagnostics m
     ∧ (Forall (λ sub, throws (callback sub) e = None) (subscriptions m) →
          escaped (on_error_raised throws e m) = None
          ∧ calls (after (on_error_raised throws e m))
            = calls m ++ raise_calls e (subscriptions m))
     ∧ (∀ done last rest x,
          subscriptions m = done ++ last :: rest →
          Forall (λ sub, throws (callback sub) e = None) done →
          throws (callback last) e = Some x →
          escaped (on_error_raised throws e m) = Some x
          ∧ calls (after (on_error_raised throws e m))
            = calls m ++ raise_calls e (done ++ [last]))).
Proof.
  intros Hknown. rewrite on_error_raised_cases, Hknown. cbn [negb]. split.
  - intros Hact. apply active_count in Hact. rewrite decide_False by done. done.
  - intros Hact. rewrite active_count in Hact. apply dec_stable in Hact.
    rewrite decide_True by done.
    pose proof (notify_raised e (set_database (add_error e (database m)) m)) as [Hall Hthrow].
    split; [done|]. split.
    { exists e. split; [|done]. cbn. unfold add_error. apply elem_of_app. right.
      apply list_elem_of_here. }
    split; [done|]. split; [done|]. split; [exact Hall|exact Hthrow].
Qed.

(** C10 (as amended).  A raise is delivered when the type is known and
    the identity is not active, a clear when the type is known and
    exactly one active error has the identity.  A delivered event invokes
    the corresponding callback (raise callback for a raise, clear callback
    for a clear) of the subscriptions in the order of registration, with
    the error as argument: of every subscription, exactly once, if none of
    these callbacks throws; otherwise of the subscriptions up to and
    including the first whose callback throws, once each, and of no later
    one.  An event that is not delivered invokes nothing.  Subscribing
    appends to the subscriptions without touching the earlier ones or
    invoking anything, and the handlers never change the subscriptions. *)
Theorem subscribers_notified_in_registration_order m e (cb clear_cb : ErrorCallback) :
  (has (error_type_map m) (type e) = true
   ∧ count_active (identity_of e) (database m) = 0%nat →
     (Forall (λ sub, throws (callback sub) e = None) (subscriptions m) →
        escaped (on_error_raised throws e m) = None
        ∧ calls (after (on_error_raised throws e m))
          = calls m ++ raise_calls e (subscriptions m))
     ∧ (∀ done last rest x,
          subscriptions m = done ++ last :: rest →
          Forall (λ sub, throws (callback sub) e = None) done →
          throws (callback last) e = Some x →
          escaped (on_error_raised throws e m) = Some x
          ∧ calls (after (on_error_raised throws e m))
            = calls m ++ raise_calls e (done ++ [last])))
  ∧ (has (error_type_map m) (type e) = false
     ∨ count_active (identity_of e) (database m) ≠ 0%nat →
     escaped (on_error_raised throws e m) = None
     ∧ calls (after (on_error_raised throws e m)) = calls m)
  ∧ (has (error_type_map m) (type e) = true
     ∧ count_active (identity_of e) (database m) = 1%nat →
     (Forall (λ sub, throws (clear_callback sub) e = None) (subscriptions m) →
        escaped (on_error_cleared throws e m) = None
        ∧ calls (after (on_error_cleared throws e m))
          = calls m ++ clear_calls e (subscriptions m))
     ∧ (∀ done last rest x,
          subscriptions m = done ++ last :: rest →
          Forall (λ sub, throws (clear_callback sub) e = None) done →
          throws (clear_callback last) e = Some x →
          escaped (on_error_cleared throws e m) = Some x
          ∧ calls (after (on_error_cleared throws e m))
            = calls m ++ clear_calls e (done ++ [last])))
  ∧ (has (error_type_map m) (type e) = false
     ∨ count_active (identity_of e) (database m) ≠ 1%nat →
     escaped (on_error_cleared throws e m) = None
     ∧ calls (after (on_error_cleared throws e m)) = calls m)
  ∧ subscriptions (subscribe_global_all_errors cb clear_cb m)
    = subscriptions m ++ [{| callback := cb; clear_callback := clear_cb |}]
  ∧ calls (subscribe_global_all_errors cb clear_cb m) = calls m
  ∧ subscriptions (after (on_error_raised throws e m)) = subscriptions m
  ∧ subscriptions (after (on_error_cleared throws e m)) = subscriptions m.
Proof.
  rewrite on_error_raised_cases, on_error_cleared_cases. cbn zeta.
  split; [|split; [|split; [|split]]].
  - intros [-> ->]. cbn [negb]. rewrite decide_True by done.
    exact (notify_raised e (set_database (add_error e (database m)) m)).
  - intros [-> | Hn]; cbn [negb]; [done|].
    destruct (negb _); [done|]. by rewrite decide_False.
  - intros [-> ->]. cbn [negb]. rewrite decide_False by done. rewrite decide_True by done.
    exact (notify_cleared e
             (set_database (filter (λ x, identity_of x ≠ identity_of e) (database m)) m)).
  - intros [-> | Hn]; cbn [negb]; [done|].
    destruct (negb _); [done|]. destruct (decide _); [done|]. by rewrite decide_False.
  - split; [done|]. split; [done|].
    destruct (negb _); cbn; [done|]. repeat case_decide; done.
Qed.

(** A subscriber at position [i] is reached by every fan-out when no
    callback of a subscriber registered before it throws. *)
Local Abbreviation quiet_before i m :=
  (∀ j sub e, (j < i)%nat → subscriptions m !! j = Some sub →
              throws (callback sub) e = None ∧ throws (clear_callback sub) e = None).

(** An invocation recorded as a raise went through the raise callback of
    its subscriber, one recorded as a clear through the clear callback. *)
Local Abbreviation tagged m c :=
  (∃ sub, subscriptions m !! subscriber c = Some sub
          ∧ invoked c = match event c with
                        | raised => callback sub
                        | cleared => clear_callback sub
                        end).

Lemma notify_tagged ev e m :
  (∀ c, c ∈ calls m → tagged m c) →
  ∀ c, c ∈ calls (after (notify throws ev e m)) → tagged (after (notify throws ev e m)) c.
Proof.
  intros Hold c. unfold notify. cbn [after add_calls calls subscriptions].
  intros Hc. apply elem_of_app in Hc as [Hc|Hc]; [by apply Hold|].
  apply fanout_calls in Hc as (j & sub & Hj & Hl & Hinv & Hev & _).
  exists sub. rewrite Hj, Hev, Hinv. split; [done|]. by destruct ev.
Qed.

Lemma step_tagged m (o : Op ErrorCallback) :
  (∀ c, c ∈ calls m → tagged m c) →
  ∀ c, c ∈ calls (step throws m o) → tagged (step throws m o) c.
Proof.
  intros Hold. destruct o as [cb ccb|e|e]; cbn [step].
  - cbn [subscribe_global_all_errors calls subscriptions]. intros c Hc.
    destruct (Hold c Hc) as (sub & Hl & Hinv). exists sub. split; [|done].
    by apply lookup_app_l_Some.
  - rewrite on_error_raised_cases. destruct (negb _); [exact Hold|].
    destruct (decide _); [|exact Hold]. by apply notify_tagged.
  - rewrite on_error_cleared_cases. destruct (negb _); [exact Hold|]. cbn zeta.
    destruct (decide _); [exact Hold|]. destruct (decide _); [|exact Hold].
    by apply notify_tagged.
Qed.

Lemma run_tagged ops m :
  (∀ c, c ∈ calls m → tagged m c) →
  ∀ c, c ∈ calls (run throws ops m) → tagged (run throws ops m) c.
Proof.
  revert m. induction ops as [|o ops IH]; intros m Hold; [exact Hold|].
  cbn [run foldl]. apply (IH (step throws m o)). by apply step_tagged.
Qed.

(** One step keeps a registered subscriber's view of an identity in
    phase: complete episodes while the identity is not active, and one
    pending raise while it is. *)
Lemma step_keeps_phase m o i id :
  (i < length (subscriptions m))%nat →
  quiet_before i m →
  (count_active id (database m) = 0%nat ∧ ∃ k, observed i id m = episodes k)
  ∨ (count_active id (database m) = 1%nat ∧ ∃ k, observed i id m = episodes k ++ [raised]) →
  (i < length (subscriptions (step throws m o)))%nat
  ∧ quiet_before i (step throws m o)
  ∧ ((count_active id (database (step throws m o)) = 0%nat
      ∧ ∃ k, observed i id (step throws m o) = episodes k)
     ∨ (count_active id (database (step throws m o)) = 1%nat
        ∧ ∃ k, observed i id (step throws m o) = episodes k ++ [raised])).
Proof.
  intros Hi Hquiet Hphase. destruct o as [cb ccb|e|e]; cbn [step].
  - split; [|split; [|exact Hphase]].
    + cbn [subscribe_global_all_errors subscriptions]. rewrite length_app. lia.
    + cbn [subscribe_global_all_errors subscriptions]. intros j sub e Hj Hl.
      apply (Hquiet j sub e Hj). rewrite lookup_app_l in Hl by lia. exact Hl.
  - rewrite on_error_raised_cases.
    destruct (negb (has (error_type_map m) (type e))); [by split|].
    destruct (decide (count_active (identity_of e) (database m) = 0%nat)) as [Hz|Hnz];
      [|by split].
    split; [exact Hi|]. split; [exact Hquiet|].
    rewrite observed_notify by (intros j sub Hj Hl; by apply (Hquiet j sub e Hj)).
    cbn [after database subscriptions set_database notify add_calls].
    change (observed i id (set_database (add_error e (database m)) m)) with (observed i id m).
    rewrite count_active_add.
    destruct (decide (identity_of e = id)) as [He|He].
    + rewrite decide_True by done. subst id.
      destruct Hphase as [[_ [k Hk]]|[Hc _]]; [|congruence].
      right. split; [lia|]. exists k. by rewrite Hk.
    + rewrite decide_False by (by intros [? _]). rewrite app_nil_r, Nat.add_0_r.
      exact Hphase.
  - rewrite on_error_cleared_cases.
    destruct (negb (has (error_type_map m) (type e))); [by split|]. cbn zeta.
    destruct (decide (count_active (identity_of e) (database m) = 0%nat)) as [Hz|Hnz];
      [by split|].
    split; [by destruct (decide _)|]. split; [by destruct (decide _)|].
    assert (Hother : identity_of e ≠ id →
              count_active id (filter (λ x, identity_of x ≠ identity_of e) (database m))
              = count_active id (database m)).
    { intros Hne. rewrite count_active_remove. by rewrite decide_False. }
    destruct (decide (count_active (identity_of e) (database m) = 1%nat)) as [H1|Hn1].
    + rewrite observed_notify by (intros j sub Hj Hl; by apply (Hquiet j sub e Hj)).
      cbn [after database subscriptions set_database notify add_calls].
      change (observed i id (set_database _ m)) with (observed i id m).
      destruct (decide (identity_of e = id)) as [He|He].
      * rewrite decide_True by done. subst id.
        destruct Hphase as [[Hc _]|[_ [k Hk]]]; [congruence|].
        left. split; [by rewrite count_active_remove, decide_True|].
        exists (S k). rewrite Hk, <- app_assoc. apply episodes_snoc.
      * rewrite decide_False by (by intros [? _]). rewrite app_nil_r, Hother by done.
        exact Hphase.
    + cbn [after returns database set_database evlog_error].
      change (observed i id (evlog_error _ (set_database _ m))) with (observed i id m).
      destruct (decide (identity_of e = id)) as [He|He].
      * subst id. destruct Hphase as [[Hc _]|[Hc _]]; congruence.
      * rewrite Hother by done. exact Hphase.
Qed.

Lemma run_keeps_phase ops m i id :
  (i < length (subscriptions m))%nat →
  quiet_before i m →
  (count_active id (database m) = 0%nat ∧ ∃ k, observed i id m = episodes k)
  ∨ (count_active id (database m) = 1%nat ∧ ∃ k, observed i id m = episodes k ++ [raised]) →
  ∃ k, observed i id (run throws ops m) = episodes k
       ∨ observed i id (run throws ops m) = episodes k ++ [raised].
Proof.
  revert m. induction ops as [|o ops IH]; intros m Hi Hquiet Hphase.
  - cbn. destruct Hphase as [[_ [k Hk]]|[_ [k Hk]]]; exists k; [by left|by right].
  - cbn [run foldl].
    destruct (step_keeps_phase m o i id Hi Hquiet Hphase) as (Hi' & Hquiet' & Hphase').
    by apply (IH (step throws m o)).
Qed.

(** C4 (as amended).  Take an identity and a subscriber that is
    registered at a moment when the identity is not active and has been
    delivered nothing for it yet (in particular a subscriber registered
    before the first event), and suppose that no callback of a subscriber
    registered before it throws.  Then the events delivered to it from
    then on, over any sequence of subscribe, raise and clear operations,
    are a prefix of raise, clear, raise, clear, ..., where an event
    counted as a raise is an invocation of its raise callback and one
    counted as a clear an invocation of its clear callback.  Moreover a
    raise of an active identity invokes nothing, a clear of an identity
    that is not active invokes nothing, and a raise or clear of a type
    outside the ErrorTypeMap invokes nothing. *)
Theorem delivered_events_alternate m (ops : list (Op ErrorCallback)) i id :
  (i < length (subscriptions m))%nat →
  ¬ active id (database m) →
  observed i id m = [] →
  (∀ j sub e, (j < i)%nat → subscriptions m !! j = Some sub →
              throws (callback sub) e = None ∧ throws (clear_callback sub) e = None) →
  (∃ k, observed i id (run throws ops m) = episodes k
        ∨ observed i id (run throws ops m) = episodes k ++ [raised])
  ∧ alternates raised (observed i id (run throws ops m)) = true
  ∧ ((∀ c, c ∈ calls m →
           ∃ sub, subscriptions m !! subscriber c = Some sub
                  ∧ invoked c = match event c with
                                | raised => callback sub
                                | cleared => clear_callback sub
                                end) →
     ∀ c, c ∈ calls (run throws ops m) →
          ∃ sub, subscriptions (run throws ops m) !! subscriber c = Some sub
                 ∧ invoked c = match event c with
                               | raised => callback sub
                               | cleared => clear_callback sub
                               end)
  ∧ (∀ m' e, active (identity_of e) (database m') →
             calls (after (on_error_raised throws e m')) = calls m')
  ∧ (∀ m' e, ¬ active (identity_of e) (database m') →
             calls (after (on_error_cleared throws e m')) = calls m')
  ∧ (∀ m' e, has (error_type_map m') (type e) = false →
             calls (after (on_error_raised throws e m')) = calls m'
             ∧ calls (after (on_error_cleared throws e m')) = calls m').
Proof.
  intros Hi Hinactive Hobs Hquiet.
  assert (Hrun : ∃ k, observed i id (run throws ops m) = episodes k
                      ∨ observed i id (run throws ops m) = episodes k ++ [raised]).
  { apply run_keeps_phase; [exact Hi|exact Hquiet|]. left. split.
    - rewrite active_count in Hinactive. by apply dec_stable in Hinactive.
    - exists 0%nat. exact Hobs. }
  split; [exact Hrun|]. split; [|split; [|split; [|split]]].
  - destruct Hrun as [k [-> | ->]]; apply alternates_episodes.
  - apply run_tagged.
  - intros m' e Hact. apply active_count in Hact. rewrite on_error_raised_cases.
    destruct (negb _); [done|]. by rewrite decide_False.
  - intros m' e Hact. rewrite active_count in Hact. apply dec_stable in Hact.
    rewrite on_error_cleared_cases. destruct (negb _); [done|]. cbn zeta.
    by rewrite decide_True.
  - intros m' e Hunknown. rewrite on_error_raised_cases, on_error_cleared_cases, Hunknown.
    done.
Qed.

End Facts.

Lemma raise_deduplicates_witness :
  escaped (on_error_raised ErrorScenarios.behaviour ErrorScenarios.overcurrent
             ErrorScenarios.with_subscriber) = None
  ∧ calls (after (on_error_raised ErrorScenarios.behaviour ErrorScenarios.overcurrent
                    ErrorScenarios.with_subscriber))
    = [{| subscriber := 0; event := raised; invoked := "on_raise";
          argument := ErrorScenarios.overcurrent |}].
Proof.
  assert (H1 : has (error_type_map ErrorScenarios.with_subscriber)
                   (type ErrorScenarios.overcurrent) = true) by (vm_compute; reflexivity).
  assert (H2 : ¬ active (identity_of ErrorScenarios.overcurrent)
                        (database ErrorScenarios.with_subscriber)).
  { intros (e & Hin & _). by apply elem_of_nil in Hin. }
  assert (H3 : Forall (λ sub, ErrorScenarios.behaviour (callback sub)
                                ErrorScenarios.overcurrent = None)
                      (subscriptions ErrorScenarios.with_subscriber)).
  { repeat constructor. }
  destruct (proj2 (raise_deduplicates ErrorScenarios.behaviour ErrorScenarios.with_subscriber
                     ErrorScenarios.overcurrent H1) H2)
    as (_ & _ & _ & _ & Hcalls & _).
  exact (Hcalls H3).
Defined.

(** C3 as stated fails when a raise callback throws: the error is
    inserted into the active set, but the raise callback of the second
    subscriber is never invoked. *)
Lemma raise_stops_at_throwing_callback :
  has (error_type_map ErrorScenarios.empty_raise_callback)
      (type ErrorScenarios.overcurrent) = true
  ∧ database ErrorScenarios.empty_raise_callback = []
  ∧ subscriptions ErrorScenarios.empty_raise_callback
    = [{| callback := ""; clear_callback := "first_on_clear" |};
       {| callback := "second_on_raise"; clear_callback := "second_on_clear" |}]
  ∧ database (after (on_error_raised ErrorScenarios.behaviour ErrorScenarios.overcurrent
                       ErrorScenarios.empty_raise_callback))
    = [ErrorScenarios.overcurrent]
  ∧ calls (after (on_error_raised ErrorScenarios.behaviour ErrorScenarios.overcurrent
                    ErrorScenarios.empty_raise_callback))
    = [{| subscriber := 0; event := raised; invoked := "";
          argument := ErrorScenarios.overcurrent |}]
  ∧ escaped (on_error_raised ErrorScenarios.behaviour ErrorScenarios.overcurrent
               ErrorScenarios.empty_raise_callback)
    = Some bad_function_call.
Proof. repeat split; vm_compute; reflexivity. Qed.

(** C10 as stated fails when a clear callback throws: the delivered
    clear invokes the (empty) clear callback of the first subscriber and
    not the clear callback of the second, which was delivered the
    raise. *)
Lemma clear_stops_at_throwing_callback :
  subscriptions ErrorScenarios.empty_clear_callback
  = [{| callback := "first_on_raise"; clear_callback := "" |};
     {| callback := "second_on_raise"; clear_callback := "second_on_clear" |}]
  ∧ calls (run ErrorScenarios.behaviour
             [Raise ErrorScenarios.overcurrent; Clear ErrorScenarios.overcurrent]
             ErrorScenarios.empty_clear_callback)
    = [{| subscriber := 0; event := raised; invoked := "first_on_raise";
          argument := ErrorScenarios.overcurrent |};
       {| subscriber := 1; event := raised; invoked := "second_on_raise";
          argument := ErrorScenarios.overcurrent |};
       {| subscriber := 0; event := cleared; invoked := "";
          argument := ErrorScenarios.overcurrent |}]
  ∧ database (run ErrorScenarios.behaviour
                [Raise ErrorScenarios.overcurrent; Clear ErrorScenarios.overcurrent]
                ErrorScenarios.empty_clear_callback) = []
  ∧ escaped (on_error_cleared ErrorScenarios.behaviour ErrorScenarios.overcurrent
               (run ErrorScenarios.behaviour [Raise ErrorScenarios.overcurrent]
                  ErrorScenarios.empty_clear_callback))
    = Some bad_function_call.
Proof. repeat split; vm_compute; reflexivity. Qed.

Lemma delivered_events_alternate_witness :
  alternates raised
    (observed 0 (identity_of ErrorScenarios.overcurrent)
       (run ErrorScenarios.behaviour
            [Raise ErrorScenarios.overcurrent; Raise ErrorScenarios.overcurrent;
             Clear ErrorScenarios.overcurrent]
            ErrorScenarios.with_subscriber)) = true.
Proof.
  assert (H1 : (0 < length (subscriptions ErrorScenarios.with_subscriber))%nat)
    by (vm_compute; lia).
  assert (H2 : ¬ active (identity_of ErrorScenarios.overcurrent)
                        (database ErrorScenarios.with_subscriber)).
  { intros (e & Hin & _). by apply elem_of_nil in Hin. }
  assert (H3 : observed 0 (identity_of ErrorScenarios.overcurrent)
                 ErrorScenarios.with_subscriber = []) by reflexivity.
  assert (H4 : ∀ j sub e, (j < 0)%nat →
                 subscriptions ErrorScenarios.with_subscriber !! j = Some sub →
                 ErrorScenarios.behaviour (callback sub) e = None
                 ∧ ErrorScenarios.behaviour (clear_callback sub) e = None)
    by (intros j sub e Hj; lia).
  exact (proj1 (proj2 (delivered_events_alternate ErrorScenarios.behaviour
                         ErrorScenarios.with_subscriber _ 0 _ H1 H2 H3 H4))).
Defined.

(** C4 as stated fails for a subscriber that registers while an error
    is active: the first event it is delivered for that identity is the
    clear. *)
Lemma late_subscriber_sees_clear_first :
  observed 0 (identity_of ErrorScenarios.overcurrent)
    (run ErrorScenarios.behaviour ErrorScenarios.late_subscription ErrorScenarios.fresh)
  = [cleared]
  ∧ alternates raised
      (observed 0 (identity_of ErrorScenarios.overcurrent)
         (run ErrorScenarios.behaviour ErrorScenarios.late_subscription
            ErrorScenarios.fresh)) = false.
Proof. split; vm_compute; reflexivity. Qed.

End ErrorManagerFacts.

(** ** The framework singleton *)
Module FrameworkFacts.

Import Framework.

Section Facts.

Context {Config Everest : Type}.
Variable construct : string → Config → bool → string → string → exn + Everest.

(** Once the static instance exists, every overload returns it and
    leaves it alone, whatever the arguments. *)
Lemma invoke_initialised (c : Invocation) (i : Everest) :
  invoke construct c (Some i) = (inr i, Some i).
Proof. destruct c; reflexivity. Qed.

(** A call that returns an instance has initialised the static storage
    with it. *)
Lemma invoke_returns (c : Invocation) (st : static_instance) (i : Everest) :
  (invoke construct c st).1 = inr i → (invoke construct c st).2 = Some i.
Proof.
  destruct st as [j|].
  - rewrite invoke_initialised. cbn. congruence.
  - destruct c; cbn; unfold get_instance2, get_instance3, get_instance;
      destruct (construct _ _ _ _ _); cbn; congruence.
Qed.

Lemma invoke_all_initialised (cs : list Invocation) (i : Everest) :
  invoke_all construct cs (Some i) = (replicate (length cs) (inr i), Some i).
Proof.
  induction cs as [|c cs IH]; [reflexivity|].
  cbn [invoke_all]. rewrite invoke_initialised, IH. reflexivity.
Qed.

(** C9. [get_instance] hands out one instance per process: once a call
    (of any overload, with any arguments) has returned an instance, every
    later call returns that same instance and leaves the static storage
    unchanged, whatever module id, config, validation flag, broker address
    and port it is given. *)
Theorem get_instance_is_singleton (first later : Invocation) (st : static_instance)
    (i : Everest) :
  (invoke construct first st).1 = inr i →
  let st1 := (invoke construct first st).2 in
  st1 = Some i
  ∧ invoke construct later st1 = (inr i, st1)
  ∧ ∀ cs, invoke_all construct cs st1 = (replicate (length cs) (inr i), st1).
Proof.
  intros Hfirst st1. assert (Hst : st1 = Some i) by (by apply invoke_returns).
  rewrite Hst. split; [reflexivity|]. split.
  - apply invoke_initialised.
  - intros cs. apply invoke_all_initialised.
Qed.

End Facts.

Lemma get_instance_is_singleton_witness :
  invoke FrameworkScenarios.remember (call2 "other" ())
    (invoke FrameworkScenarios.remember (call5 "evse" () true "broker" "8883") None).2
  = (inr ("evse", "broker", "8883"), Some ("evse", "broker", "8883")).
Proof.
  assert (H : (invoke FrameworkScenarios.remember (call5 "evse" () true "broker" "8883") None).1
              = inr ("evse", "broker", "8883")) by reflexivity.
  exact (proj1 (proj2 (get_instance_is_singleton FrameworkScenarios.remember
                         (call5 "evse" () true "broker" "8883") (call2 "other" ()) None
                         _ H))).
Defined.

(** A constructor that throws leaves the storage uninitialised, so the
    next call constructs with its own arguments. *)
Remark failed_construction_is_retried {Config Everest : Type}
    (construct : string → Config → bool → string → string → exn + Everest)
    (c : Invocation) (e : exn) :
  (invoke construct c None).1 = inl e → (invoke construct c None).2 = None.
Proof.
  destruct c; cbn; unfold get_instance2, get_instance3, get_instance;
    destruct (construct _ _ _ _ _); cbn; congruence.
Qed.

End FrameworkFacts.

(** ** Loading the config document *)
Module ManagerSettingsFacts.

Import ManagerSettings.

(** C8. An empty document, a null document and an empty mapping load
    successfully as a configuration without modules, and so does every
    other document whose top level is not an object and not a string (a
    sequence, a number, a boolean); a mapping loads with the modules it
    lists; a document whose top level is a string is rejected with a
    [BootException], and it is the only kind of document that is
    rejected. *)
Theorem load_accepts_empty_rejects_string :
  load empty_document = inr {| modules := [] |}
  ∧ load null_document = inr {| modules := [] |}
  ∧ load (mapping_document []) = inr {| modules := [] |}
  ∧ (∀ s, ∃ what, load (string_document s) = inl (boot_exception what))
  ∧ (∀ items, load (sequence_document items) = inr {| modules := [] |})
  ∧ (∀ z, load (number_document z) = inr {| modules := [] |})
  ∧ (∀ b, load (boolean_document b) = inr {| modules := [] |})
  ∧ (∀ d, (∀ ms, d ≠ mapping_document ms) → (∀ s, d ≠ string_document s) →
          load d = inr {| modules := [] |})
  ∧ (∀ ms, load (mapping_document ms) = inr {| modules := ms |})
  ∧ (∀ d, (∃ e, load d = inl e) ↔ ∃ s, d = string_document s).
Proof.
  repeat split; try (intros; by eexists).
  - intros d Hm Hs. destruct d; try done; [by destruct (Hm active_modules)|by destruct (Hs s)].
  - intros [e He]. destruct d; try discriminate. by eexists.
  - intros [s ->]. by eexists.
Qed.

End ManagerSettingsFacts.

(** * Further results on the embedded code *)

(** ** The manager: registration, ready messages and shutdown *)
Module ManagerExtraFacts.

Import Json Manager ManagerSpec ManagerBoot ManagerNotions.

(** Neither ignored nor standalone: the module is started by the
    manager. *)
Local Abbreviation spawnable ignored standalone :=
  (λ n : string, contains ignored n = false ∧ contains standalone n = false).

Lemma start_modules_loop_names fs rs config ignored standalone items w l w' l' :
  start_modules_loop fs rs config ignored standalone items (w, l) = inr (w', l') →
  name <$> l' = (name <$> l) ++ filter (spawnable ignored standalone) (items.*1).
Proof.
  revert w l. induction items as [|[n e] items IH]; intros w l Hrun.
  - cbn in Hrun. simplify_eq. by rewrite app_nil_r.
  - cbn [start_modules_loop] in Hrun.
    destruct (start_modules_item fs rs config ignored standalone (n, e) (w, l))
      as [ex|[w1 l1]] eqn:Hstep; [discriminate|].
    rewrite (IH _ _ Hrun). rewrite fmap_cons, filter_cons. cbn [fst].
    rewrite StartModulesFacts.start_modules_item_spawn in Hstep.
    destruct (contains ignored n) eqn:Hign.
    { simplify_eq. rewrite decide_False by (by intros [? _]). done. }
    destruct (contains standalone n) eqn:Hsta.
    { destruct (start_modules_item _ _ _ _ _ _ _) as [|[? ?]]; simplify_eq.
      rewrite decide_False by (by intros [_ ?]). done. }
    rewrite decide_True by done.
    destruct (locate_module _ _ _ _ _ _) as [|info] eqn:Hloc; [discriminate|].
    destruct (start_modules_item _ _ _ _ _ _ _) as [|[? ?]]; simplify_eq.
    rewrite fmap_app, <- app_assoc. cbn. do 3 f_equal.
    unfold locate_module in Hloc.
    repeat match type of Hloc with
           | (if ?b then _ else _) = _ => destruct b
           end; by simplify_eq.
Qed.

(** X1. When the registration loop of [start_modules] completes, the
    modules it schedules for spawning are exactly the modules of the
    config that are neither ignored nor standalone, in the iteration order
    of the config. *)
Theorem modules_to_spawn_are_the_spawnable (fs : FileSystem) (rs : RuntimeSettings)
    (config : Config) (ignored_modules standalone_modules : list string)
    (w w' : World) (l : list ModuleStartInfo) :
  start_modules_loop fs rs config ignored_modules standalone_modules
                     (main_config config) (w, []) = inr (w', l) →
  name <$> l
  = filter (λ n, contains ignored_modules n = false ∧ contains standalone_modules n = false)
           ((main_config config).*1).
Proof. intros Hrun. by rewrite (start_modules_loop_names _ _ _ _ _ _ _ _ _ _ Hrun). Qed.

Lemma modules_to_spawn_are_the_spawnable_witness :
  Scenarios.scheduled Scenarios.with_standalone ["s"] = ["a"; "b"].
Proof.
  assert (H : start_modules_loop Scenarios.all_binaries Scenarios.rs Scenarios.with_standalone
                [] ["s"] (main_config Scenarios.with_standalone) (initial_world, [])
              = inr (Scenarios.registered_world Scenarios.with_standalone ["s"],
                     [{| name := "a"; printable_name := "a"; language := cpp;
                         module_path := ["libexec"; "everest"; "modules"; "A"; "A"];
                         capabilities := [] |};
                      {| name := "b"; printable_name := "b"; language := cpp;
                         module_path := ["libexec"; "everest"; "modules"; "B"; "B"];
                         capabilities := [] |}]))
    by (vm_compute; reflexivity).
  pose proof (modules_to_spawn_are_the_spawnable _ _ _ _ _ _ _ _ H) as Hn.
  unfold Scenarios.scheduled. rewrite H. exact Hn.
Defined.

Section Registered.

Variables (fs : FileSystem) (rs : RuntimeSettings) (config : Config).
Variables (ignored_modules standalone_modules : list string).

Local Abbreviation loop :=
  (start_modules_loop fs rs config ignored_modules standalone_modules).
Local Abbreviation handler := (handler_of rs standalone_modules).
Local Abbreviation Registered := (registered rs standalone_modules).
Local Abbreviation not_ignored := (λ n : string, contains ignored_modules n = false).

(** The handlers one iteration registers with the broker. *)
Lemma start_modules_item_handlers n e w l w1 l1 :
  start_modules_item fs rs config ignored_modules standalone_modules (n, e) (w, l)
  = inr (w1, l1) →
  mqtt_handlers w1
  = mqtt_handlers w
    ++ (if contains ignored_modules n then [] else [(ready_topic config n, handler n)])
  ∧ signals w1 = signals w.
Proof.
  unfold start_modules_item. cbn [fst snd].
  destruct (contains ignored_modules n); [intros; simplify_eq; by rewrite app_nil_r|].
  destruct (bool_decide (default [] (entry_capabilities e) = []));
    (destruct (contains standalone_modules n);
     [intros; by simplify_eq
     | destruct (locate_module _ _ _ _ _ _); intros; by simplify_eq]).
Qed.

Lemma start_modules_loop_handlers items w l w' l' :
  loop items (w, l) = inr (w', l') →
  mqtt_handlers w'
  = mqtt_handlers w ++ ((λ n, (ready_topic config n, handler n)) <$> filter not_ignored (items.*1))
  ∧ signals w' = signals w.
Proof.
  revert w l. induction items as [|[n e] items IH]; intros w l Hrun.
  - cbn in Hrun. simplify_eq. by rewrite app_nil_r.
  - cbn [start_modules_loop] in Hrun.
    destruct (start_modules_item _ _ _ _ _ (n, e) (w, l)) as [ex|[w1 l1]] eqn:Hstep;
      [discriminate|].
    destruct (start_modules_item_handlers _ _ _ _ _ _ Hstep) as [Hh Hs].
    destruct (IH _ _ Hrun) as [Hh' Hs']. rewrite Hh', Hh, Hs', Hs.
    split; [|done]. rewrite fmap_cons, filter_cons. cbn [fst].
    destruct (contains ignored_modules n) eqn:Hign.
    + rewrite decide_False by done. by rewrite app_nil_r.
    + rewrite decide_True by done. by rewrite <- app_assoc.
Qed.

(** X2. Starting from an empty ready table, the registration loop of
    [start_modules] leaves one table entry, not ready and carrying the
    module's own handler, for every module of the config that is not
    ignored (standalone modules included) and none for any other id; it
    registers these handlers with the broker on the modules' ready topics
    in config order; and it publishes nothing, emits no status and sends no
    signal. *)
Theorem registration_covers_non_ignored (w w' : World) (l : list ModuleStartInfo) :
  modules_ready w = ∅ →
  loop (main_config config) (w, []) = inr (w', l) →
  (∀ n, is_Some (modules_ready w' !! n)
        ↔ n ∈ filter not_ignored ((main_config config).*1))
  ∧ (∀ n info, modules_ready w' !! n = Some info →
               ready info = false ∧ token info = Some (handler n))
  ∧ mqtt_handlers w'
    = mqtt_handlers w
      ++ ((λ n, (ready_topic config n, handler n))
            <$> filter not_ignored ((main_config config).*1))
  ∧ mqtt_published w' = mqtt_published w
  ∧ status_fifo w' = status_fifo w
  ∧ signals w' = signals w.
Proof.
  intros Hempty Hrun.
  destruct (BarrierFacts.start_modules_loop_table _ _ _ _ _ _ _ _ _ _ Hrun)
    as (Hp & Hs & Hdom & Hreg & Hflag).
  destruct (start_modules_loop_handlers _ _ _ _ _ Hrun) as [Hh Hsig].
  split; [|split; [|by repeat split]].
  - intros n. rewrite Hdom, Hempty, lookup_empty, list_elem_of_filter, list_elem_of_fmap.
    split.
    + intros [H|(e & Hin & Hign)]; [by destruct H|].
      split; [done|]. by exists (n, e).
    + intros (Hign & [n' e] & -> & Hin). right. by exists e.
  - intros n info Hl. split.
    + pose proof (Hflag n) as Hf. unfold is_ready in Hf.
      by rewrite Hl, Hempty, lookup_empty in Hf.
    + refine (Hreg _ n info Hl). intros m i. by rewrite Hempty, lookup_empty.
Qed.

End Registered.

Lemma registration_covers_non_ignored_witness :
  mqtt_handlers (Scenarios.registered_world Scenarios.with_standalone ["s"])
  = [("everest/modules/a/ready", handler_of Scenarios.rs ["s"] "a");
     ("everest/modules/b/ready", handler_of Scenarios.rs ["s"] "b");
     ("everest/modules/s/ready", handler_of Scenarios.rs ["s"] "s")].
Proof.
  assert (H1 : modules_ready initial_world = ∅) by reflexivity.
  assert (H2 : start_modules_loop Scenarios.all_binaries Scenarios.rs Scenarios.with_standalone
                 [] ["s"] (main_config Scenarios.with_standalone) (initial_world, [])
               = inr (Scenarios.registered_world Scenarios.with_standalone ["s"],
                      [{| name := "a"; printable_name := "a"; language := cpp;
                          module_path := ["libexec"; "everest"; "modules"; "A"; "A"];
                          capabilities := [] |};
                       {| name := "b"; printable_name := "b"; language := cpp;
                          module_path := ["libexec"; "everest"; "modules"; "B"; "B"];
                          capabilities := [] |}]))
    by (vm_compute; reflexivity).
  destruct (registration_covers_non_ignored _ _ _ _ _ _ _ _ H1 H2) as (_ & _ & Hh & _).
  exact Hh.
Defined.

Section Ready.

Variables (rs : RuntimeSettings) (standalone_modules : list string).

Local Abbreviation Registered := (registered rs standalone_modules).

(** Everything a handled boolean ready message does. *)
Lemma on_ready_message_effects w n b info :
  Registered (modules_ready w) →
  modules_ready w !! n = Some info →
  let t := <[n := {| ready := b; token := token info |}]> (modules_ready w) in
  ∃ w', on_ready_message n (boolean b) w = inr w'
        ∧ modules_ready w' = t
        ∧ mqtt_handlers w' = mqtt_handlers w
        ∧ signals w' = signals w
        ∧ mqtt_published w'
          = mqtt_published w ++ (if all_ready t then [global_ready rs] else [])
        ∧ status_fifo w' = status_fifo w ++ status_events standalone_modules t.
Proof.
  intros Hreg Hl t. unfold on_ready_message. rewrite Hl.
  pose proof (Hreg _ _ Hl) as Htok. destruct info as [r tok]. cbn in Htok. subst tok.
  unfold module_ready_handler, status_events. cbn [get_bool handler_of h_module_name
    h_standalone_modules h_mqtt_everest_prefix token].
  rewrite Hl. subst t. cbn [token]. set (t := <[n := _]> (modules_ready w)).
  destruct (all_ready t) eqn:Hall.
  - eexists. split; [reflexivity|].
    destruct (negb _ && _); cbn; by rewrite ?Hall.
  - destruct (negb (bool_decide (standalone_modules = []))) eqn:Hs; cbn [andb].
    + destruct (decide (modules_spawned t = _)) as [Heq|Hne].
      * rewrite bool_decide_eq_true_2 by done. eexists. split; [reflexivity|].
        destruct (contains standalone_modules n); cbn; by rewrite ?app_nil_r.
      * rewrite bool_decide_eq_false_2 by done. eexists. split; [reflexivity|].
        destruct (contains standalone_modules n); cbn; by rewrite ?app_nil_r.
    + eexists. split; [reflexivity|]. cbn. by rewrite ?app_nil_r.
Qed.

(** A message that is not a boolean makes the handler of a registered
    module throw. *)
Lemma on_ready_message_type_error w n p info :
  Registered (modules_ready w) →
  modules_ready w !! n = Some info →
  (∀ b, p ≠ boolean b) →
  on_ready_message n p w = inl (type_error "type must be boolean").
Proof.
  intros Hreg Hl Hp. unfold on_ready_message. rewrite Hl.
  pose proof (Hreg _ _ Hl) as Htok. destruct info as [r tok]. cbn in Htok. subst tok.
  unfold module_ready_handler. destruct p as [|b| |]; try reflexivity.
  by destruct (Hp b).
Qed.

(** One message: what a completed handler leaves of the table. *)
Lemma on_ready_message_table w n p w' :
  Registered (modules_ready w) →
  on_ready_message n p w = inr w' →
  Registered (modules_ready w')
  ∧ mqtt_handlers w' = mqtt_handlers w
  ∧ (∀ m, token <$> modules_ready w' !! m = token <$> modules_ready w !! m)
  ∧ (∀ m, is_Some (modules_ready w !! m) →
          is_ready (modules_ready w') m
          = last_payload m [(n, p)] (is_ready (modules_ready w) m)).
Proof.
  intros Hreg Hrun.
  destruct (modules_ready w !! n) as [info|] eqn:Hl.
  - destruct p as [|b| |];
      try (rewrite (on_ready_message_type_error w n _ info Hreg Hl) in Hrun;
           [discriminate|by intros]).
    destruct (on_ready_message_effects w n b info Hreg Hl)
      as (w1 & Hrun1 & Ht & Hh & _).
    rewrite Hrun in Hrun1. simplify_eq.
    assert (Hlook : ∀ m, modules_ready w1 !! m
              = if decide (n = m) then Some {| ready := b; token := token info |}
                else modules_ready w !! m).
    { intros m. rewrite Ht. apply lookup_insert. }
    split; [|split; [done|split]].
    + intros m i. rewrite Hlook. destruct (decide (n = m)) as [<-|]; [|by apply Hreg].
      intros H. simplify_eq. cbn. by apply (Hreg n info).
    + intros m. rewrite Hlook. destruct (decide (n = m)) as [<-|]; [|done]. by rewrite Hl.
    + intros m _. unfold is_ready, last_payload. rewrite Hlook. cbn.
      destruct (decide (n = m)); done.
  - rewrite BarrierFacts.on_ready_message_unregistered in Hrun by done. simplify_eq.
    split; [done|]. split; [done|]. split; [done|].
    intros m [i Hi]. unfold last_payload. cbn.
    destruct (decide (n = m)) as [->|]; [congruence|done].
Qed.

Lemma last_payload_app n msgs1 msgs2 init :
  last_payload n (msgs1 ++ msgs2) init = last_payload n msgs2 (last_payload n msgs1 init).
Proof. unfold last_payload. apply foldl_app. Qed.

Lemma run_ready_table (msgs : list (string * json)) (w w' : World) :
  Registered (modules_ready w) →
  run_ready msgs w = inr w' →
  Registered (modules_ready w')
  ∧ mqtt_handlers w' = mqtt_handlers w
  ∧ (∀ m, token <$> modules_ready w' !! m = token <$> modules_ready w !! m)
  ∧ (∀ m, is_Some (modules_ready w !! m) →
          is_ready (modules_ready w') m = last_payload m msgs (is_ready (modules_ready w) m)).
Proof.
  revert w. induction msgs as [|[n p] msgs IH]; intros w Hreg Hrun.
  - cbn in Hrun. by simplify_eq.
  - cbn [run_ready] in Hrun.
    destruct (on_ready_message n p w) as [|w1] eqn:Hstep; [discriminate|].
    destruct (on_ready_message_table _ _ _ _ Hreg Hstep) as (Hreg1 & Hh1 & Htok1 & Hflag1).
    destruct (IH w1 Hreg1 Hrun) as (Hreg' & Hh & Htok & Hflag).
    split; [done|]. split; [congruence|]. split; [intros m; by rewrite Htok, Htok1|].
    intros m Hm. rewrite Hflag.
    + rewrite Hflag1 by done. change ((n, p) :: msgs) with ([(n, p)] ++ msgs).
      by rewrite last_payload_app.
    + specialize (Htok1 m). destruct Hm as [i Hi]. rewrite Hi in Htok1.
      destruct (modules_ready w1 !! m); [by eexists|discriminate].
Qed.

(** X3. In a completed run of ready messages the table keeps its entries
    and their handlers, the broker keeps its subscriptions, and the flag
    of every module of the table is the payload of the last message
    addressed to it (its previous flag if there was none): a later
    [false] takes a module out of the ready state again. *)
Theorem ready_flag_is_last_payload (msgs : list (string * json)) (w w' : World) :
  Registered (modules_ready w) →
  run_ready msgs w = inr w' →
  mqtt_handlers w' = mqtt_handlers w
  ∧ (∀ m, token <$> modules_ready w' !! m = token <$> modules_ready w !! m)
  ∧ (∀ m, is_Some (modules_ready w !! m) →
          is_ready (modules_ready w') m = last_payload m msgs (is_ready (modules_ready w) m)).
Proof. intros Hreg Hrun. by destruct (run_ready_table msgs w w' Hreg Hrun) as (_ & ?). Qed.

(** X4. A ready message with payload [false] for a module of the table
    is handled without exception, clears the module's flag, publishes
    nothing and never emits ALL_MODULES_STARTED (at most
    WAITING_FOR_STANDALONE_MODULES). *)
Theorem ready_false_never_starts (w : World) (n : string) (info : ModuleReadyInfo) :
  Registered (modules_ready w) →
  modules_ready w !! n = Some info →
  ∃ w', on_ready_message n (boolean false) w = inr w'
        ∧ is_ready (modules_ready w') n = false
        ∧ all_ready (modules_ready w') = false
        ∧ mqtt_published w' = mqtt_published w
        ∧ (status_fifo w' = status_fifo w
           ∨ status_fifo w' = status_fifo w ++ [WAITING_FOR_STANDALONE_MODULES]).
Proof.
  intros Hreg Hl.
  destruct (on_ready_message_effects w n false info Hreg Hl)
    as (w' & Hrun & Ht & _ & _ & Hp & Hs).
  cbn zeta in Ht, Hp, Hs.
  assert (Hflag : is_ready (modules_ready w') n = false).
  { unfold is_ready. by rewrite Ht, lookup_insert_eq. }
  assert (Hall : all_ready (modules_ready w') = false).
  { destruct (all_ready (modules_ready w')) eqn:Ha; [|done].
    unfold is_ready in Hflag. destruct (modules_ready w' !! n) as [i|] eqn:Hi.
    - by rewrite (proj1 (BarrierFacts.all_ready_spec _) Ha n i Hi) in Hflag.
    - by rewrite Ht, lookup_insert_eq in Hi. }
  exists w'. split; [done|]. split; [done|]. split; [done|].
  rewrite <- Ht in Hp, Hs. rewrite Hall in Hp. unfold status_events in Hs.
  rewrite Hall in Hs. split; [by rewrite Hp, app_nil_r|].
  destruct (_ && _) in Hs; [by right|left; by rewrite Hs, app_nil_r].
Qed.

(** X5. A ready message whose payload is not a JSON boolean, addressed to
    a module of the table, makes the handler throw a type error: whatever
    was handled before and whatever follows, the run ends with that
    exception. *)
Theorem malformed_ready_aborts_run (pre post : list (string * json)) (w w1 : World)
    (n : string) (p : json) :
  Registered (modules_ready w) →
  run_ready pre w = inr w1 →
  is_Some (modules_ready w !! n) →
  (∀ b, p ≠ boolean b) →
  run_ready (pre ++ (n, p) :: post) w = inl (type_error "type must be boolean").
Proof.
  intros Hreg Hpre Hn Hp.
  destruct (run_ready_table pre w w1 Hreg Hpre) as (Hreg1 & _ & Htok & _).
  rewrite (BarrierFacts.run_ready_app _ _ _ _ Hpre). cbn [run_ready].
  assert (Hn1 : is_Some (modules_ready w1 !! n)).
  { specialize (Htok n). destruct Hn as [i Hi]. rewrite Hi in Htok.
    destruct (modules_ready w1 !! n); [by eexists|discriminate]. }
  destruct Hn1 as [i1 Hi1].
  by rewrite (on_ready_message_type_error w1 n p i1 Hreg1 Hi1 Hp).
Qed.

End Ready.

(** The registered world of the example fleet satisfies the invariant
    of the barrier. *)
Lemma with_standalone_registered :
  start_modules_loop Scenarios.all_binaries Scenarios.rs Scenarios.with_standalone
    [] ["s"] (main_config Scenarios.with_standalone) (initial_world, [])
  = inr (Scenarios.registered_world Scenarios.with_standalone ["s"],
         [{| name := "a"; printable_name := "a"; language := cpp;
             module_path := ["libexec"; "everest"; "modules"; "A"; "A"];
             capabilities := [] |};
          {| name := "b"; printable_name := "b"; language := cpp;
             module_path := ["libexec"; "everest"; "modules"; "B"; "B"];
             capabilities := [] |}])
  ∧ registered Scenarios.rs ["s"]
      (modules_ready (Scenarios.registered_world Scenarios.with_standalone ["s"])).
Proof.
  assert (H : start_modules_loop Scenarios.all_binaries Scenarios.rs Scenarios.with_standalone
                [] ["s"] (main_config Scenarios.with_standalone) (initial_world, [])
              = inr (Scenarios.registered_world Scenarios.with_standalone ["s"],
                     [{| name := "a"; printable_name := "a"; language := cpp;
                         module_path := ["libexec"; "everest"; "modules"; "A"; "A"];
                         capabilities := [] |};
                      {| name := "b"; printable_name := "b"; language := cpp;
                         module_path := ["libexec"; "everest"; "modules"; "B"; "B"];
                         capabilities := [] |}]))
    by (vm_compute; reflexivity).
  split; [exact H|].
  destruct (BarrierFacts.start_modules_loop_table _ _ _ _ _ _ _ _ _ _ H)
    as (_ & _ & _ & Hreg & _).
  apply Hreg. intros n info Hl. unfold initial_world in Hl. cbn [modules_ready] in Hl.
  by rewrite lookup_empty in Hl.
Qed.

Lemma ready_flag_is_last_payload_witness :
  ∃ w', run_ready [("a", boolean true); ("a", boolean false)]
                  (Scenarios.registered_world Scenarios.with_standalone ["s"]) = inr w'
        ∧ is_ready (modules_ready w') "a" = false.
Proof.
  destruct (run_ready [("a", boolean true); ("a", boolean false)]
              (Scenarios.registered_world Scenarios.with_standalone ["s"]))
    as [|w'] eqn:Hrun; [vm_compute in Hrun; discriminate|].
  exists w'. split; [reflexivity|].
  destruct (ready_flag_is_last_payload Scenarios.rs ["s"] _ _ _
              (proj2 with_standalone_registered) Hrun) as (_ & _ & Hflag).
  rewrite Hflag; [reflexivity|]. vm_compute. by eexists.
Defined.

Lemma ready_false_never_starts_witness :
  ∃ w', on_ready_message "a" (boolean false)
          (Scenarios.registered_world Scenarios.with_standalone ["s"]) = inr w'
        ∧ mqtt_published w'
          = mqtt_published (Scenarios.registered_world Scenarios.with_standalone ["s"]).
Proof.
  assert (Hl : modules_ready (Scenarios.registered_world Scenarios.with_standalone ["s"]) !! "a"
               = Some {| ready := false; token := Some (handler_of Scenarios.rs ["s"] "a") |})
    by (vm_compute; reflexivity).
  destruct (ready_false_never_starts Scenarios.rs ["s"] _ "a" _
              (proj2 with_standalone_registered) Hl) as (w' & Hrun & _ & _ & Hp & _).
  exists w'. by split.
Defined.

Lemma malformed_ready_aborts_run_witness :
  run_ready ([("a", boolean true)] ++ ("b", text "yes") :: [("s", boolean true)])
            (Scenarios.registered_world Scenarios.with_standalone ["s"])
  = inl (type_error "type must be boolean").
Proof.
  destruct (run_ready [("a", boolean true)]
              (Scenarios.registered_world Scenarios.with_standalone ["s"]))
    as [|w1] eqn:Hpre; [vm_compute in Hpre; discriminate|].
  apply (malformed_ready_aborts_run Scenarios.rs ["s"] _ _ _ w1 "b" (text "yes")
           (proj2 with_standalone_registered) Hpre).
  - vm_compute. by eexists.
  - intros b. discriminate.
Defined.

(** X6. Once [shutdown_modules] has run, the ready table is empty: a
    ready handler that is still invoked (the race the source warns about)
    throws [std::out_of_range] from [modules_ready.at]. *)
Theorem ready_handler_after_shutdown_throws (kill : Killer) (modules : gmap Z string)
    (config : Config) (w : World) (h : ReadyHandler) (b : bool) :
  modules_ready (shutdown_modules kill modules config w) = ∅
  ∧ module_ready_handler h (boolean b) (shutdown_modules kill modules config w)
    = inl (out_of_range (h_module_name h)).
Proof.
  destruct (ShutdownFacts.shutdown_modules_effects kill modules config w)
    as (_ & _ & _ & Hempty & _).
  cbn zeta in Hempty. split; [exact Hempty|].
  unfold module_ready_handler. cbn [get_bool]. by rewrite Hempty, lookup_empty.
Qed.

(** What survives a sequence of [unregister_handler] calls. *)
Lemma elem_of_unregister_all config (entries : list (string * ModuleReadyInfo))
    (hs : list (string * ReadyHandler)) (th : string * ReadyHandler) :
  th ∈ foldl (λ hs kv, unregister_handler (ready_topic config kv.1) (token kv.2) hs)
             hs entries
  ↔ th ∈ hs ∧ ∀ kv, kv ∈ entries →
                ¬ (th.1 = ready_topic config kv.1 ∧ Some th.2 = token kv.2).
Proof.
  revert hs. induction entries as [|kv entries IH]; intros hs; cbn [foldl].
  - split; [intros H; split; [done|]; intros kv Hkv; by apply elem_of_nil in Hkv|by intros [? _]].
  - rewrite IH. unfold unregister_handler. rewrite list_elem_of_filter. split.
    + intros [[Hnot Hin] Hrest]. split; [done|]. intros kv' Hkv'.
      apply elem_of_cons in Hkv' as [->|Hkv']; [done|by apply Hrest].
    + intros [Hin Hall]. split; [split; [|done]|].
      * apply Hall, list_elem_of_here.
      * intros kv' Hkv'. by apply Hall, list_elem_of_further.
Qed.

Lemma terminate_children_handlers kill children w :
  mqtt_handlers (foldl (λ w child, terminate_child kill child w) w children)
  = mqtt_handlers w.
Proof.
  revert w. induction children as [|c children IH]; intros w; cbn [foldl]; [done|].
  rewrite IH. unfold terminate_child.
  repeat match goal with |- context [decide ?P] => destruct (decide P) end; reflexivity.
Qed.

(** X7. Registration followed by shutdown leaves no ready handler behind:
    if [start_modules] registered its handlers in a world without any,
    then after any completed run of ready messages [shutdown_modules]
    unregisters every one of them and empties the ready table. *)
Theorem shutdown_unregisters_every_handler (fs : FileSystem) (rs : RuntimeSettings)
    (config : Config) (ignored_modules standalone_modules : list string)
    (kill : Killer) (modules : gmap Z string)
    (w w1 w2 : World) (l : list ModuleStartInfo) (msgs : list (string * json)) :
  modules_ready w = ∅ →
  mqtt_handlers w = [] →
  start_modules_loop fs rs config ignored_modules standalone_modules
                     (main_config config) (w, []) = inr (w1, l) →
  run_ready msgs w1 = inr w2 →
  mqtt_handlers (shutdown_modules kill modules config w2) = []
  ∧ modules_ready (shutdown_modules kill modules config w2) = ∅.
Proof.
  intros Hempty Hnone Hloop Hrun.
  destruct (BarrierFacts.start_modules_loop_table _ _ _ _ _ _ _ _ _ _ Hloop)
    as (_ & _ & Hdom & Hreg & _).
  destruct (start_modules_loop_handlers _ _ _ _ _ _ _ _ _ _ Hloop) as [Hh _].
  assert (Hreg1 : registered rs standalone_modules (modules_ready w1)).
  { apply Hreg. intros n info Hl. by rewrite Hempty, lookup_empty in Hl. }
  destruct (run_ready_table rs standalone_modules msgs w1 w2 Hreg1 Hrun)
    as (Hreg2 & Hh2 & Htok & _).
  split.
  - unfold shutdown_modules. rewrite terminate_children_handlers.
    cbn [mqtt_handlers set_modules_ready set_mqtt_handlers].
    apply elem_of_nil_inv. intros th Hth.
    apply elem_of_unregister_all in Hth as [Hin Hall].
    rewrite Hh2, Hh, Hnone in Hin. cbn [app] in Hin.
    apply list_elem_of_fmap in Hin as (n & -> & Hn).
    apply list_elem_of_filter in Hn as [Hign Hn].
    apply list_elem_of_fmap in Hn as ([n' e] & Heq & Hin). cbn in Heq. subst n'.
    assert (Hs1 : is_Some (modules_ready w1 !! n)) by (apply Hdom; right; by exists e).
    destruct Hs1 as [i1 Hi1]. specialize (Htok n). rewrite Hi1 in Htok.
    destruct (modules_ready w2 !! n) as [i2|] eqn:Hi2; [|discriminate].
    apply (Hall (n, i2)); [by apply elem_of_map_to_list|].
    cbn. split; [done|]. by rewrite (Hreg2 n i2 Hi2).
  - by destruct (ShutdownFacts.shutdown_modules_effects kill modules config w2)
      as (_ & _ & _ & ? & _).
Qed.

Lemma shutdown_unregisters_every_handler_witness :
  mqtt_handlers (shutdown_modules Scenarios.stubborn {[ 101 := "a"; 102 := "b" ]}
                   Scenarios.with_standalone
                   (Scenarios.registered_world Scenarios.with_standalone ["s"])) = [].
Proof.
  assert (H1 : modules_ready initial_world = ∅) by reflexivity.
  assert (H2 : mqtt_handlers initial_world = []) by reflexivity.
  assert (H4 : run_ready [] (Scenarios.registered_world Scenarios.with_standalone ["s"])
               = inr (Scenarios.registered_world Scenarios.with_standalone ["s"]))
    by reflexivity.
  exact (proj1 (shutdown_unregisters_every_handler _ _ _ _ _ Scenarios.stubborn
                  {[ 101 := "a"; 102 := "b" ]} _ _ _ _ _
                  H1 H2 (proj1 with_standalone_registered) H4)).
Defined.

(** X8. A fleet without any module to wait for never becomes ready: if
    every module of the config is ignored (or the config is empty), the
    registration loop schedules nothing and leaves the ready table empty,
    and no sequence of ready messages publishes the global ready signal or
    changes anything else. *)
Theorem empty_fleet_never_ready (fs : FileSystem) (rs : RuntimeSettings)
    (config : Config) (ignored_modules standalone_modules : list string)
    (w w1 : World) (l : list ModuleStartInfo) (msgs : list (string * json)) :
  modules_ready w = ∅ →
  (∀ n e, (n, e) ∈ main_config config → contains ignored_modules n = true) →
  start_modules_loop fs rs config ignored_modules standalone_modules
                     (main_config config) (w, []) = inr (w1, l) →
  l = [] ∧ modules_ready w1 = ∅ ∧ run_ready msgs w1 = inr w1
  ∧ mqtt_published w1 = mqtt_published w ∧ status_fifo w1 = status_fifo w.
Proof.
  intros Hempty Hall Hloop.
  destruct (BarrierFacts.start_modules_loop_table _ _ _ _ _ _ _ _ _ _ Hloop)
    as (Hp & Hs & Hdom & _ & _).
  pose proof (start_modules_loop_names _ _ _ _ _ _ _ _ _ _ Hloop) as Hnames.
  assert (Ht : modules_ready w1 = ∅).
  { apply map_empty. intros n. apply eq_None_not_Some. rewrite Hdom, Hempty, lookup_empty.
    intros [H|(e & Hin & Hign)]; [by destruct H|].
    by rewrite (Hall n e Hin) in Hign. }
  split; [|split; [done|split; [|done]]].
  - apply fmap_nil_inv with (f := name). rewrite Hnames. cbn [fmap list_fmap app].
    apply elem_of_nil_inv. intros n Hn. apply list_elem_of_filter in Hn as [[Hign _] Hn].
    apply list_elem_of_fmap in Hn as ([n' e] & -> & Hin). cbn in Hign.
    by rewrite (Hall n' e Hin) in Hign.
  - clear -Ht. induction msgs as [|[n p] msgs IH]; [done|].
    cbn [run_ready]. rewrite BarrierFacts.on_ready_message_unregistered; [exact IH|].
    by rewrite Ht, lookup_empty.
Qed.

Lemma empty_fleet_never_ready_witness :
  run_ready [("a", boolean true)] (evlog (Ignoring_module "a") initial_world)
  = inr (evlog (Ignoring_module "a") initial_world).
Proof.
  assert (H1 : modules_ready initial_world = ∅) by reflexivity.
  assert (H2 : ∀ n e, (n, e) ∈ main_config Scenarios.single → contains ["a"] n = true).
  { intros n e Hin. apply list_elem_of_singleton in Hin. by injection Hin as -> _. }
  assert (H3 : start_modules_loop Scenarios.all_binaries Scenarios.rs Scenarios.single
                 ["a"] [] (main_config Scenarios.single) (initial_world, [])
               = inr (evlog (Ignoring_module "a") initial_world, []))
    by reflexivity.
  exact (proj1 (proj2 (proj2 (empty_fleet_never_ready _ _ _ _ _ _ _ _
                                [("a", boolean true)] H1 H2 H3)))).
Defined.

(** ** The manager: spawning, the wait loop and the standalone list *)

Section Spawn.

Variables (MAX : nat) (fork : Forker).

Local Abbreviation execs := (execs fork).

Lemma spawn_modules_all_exec (pids : ModuleStartInfo → Z) modules started :
  (∀ m, m ∈ modules → execs m (pids m)) →
  spawn_modules MAX fork modules started
  = inr (foldl (λ acc m, <[pids m := name m]> acc) started modules).
Proof.
  revert started. induction modules as [|m modules IH]; intros started Hall; [done|].
  cbn [spawn_modules foldl].
  destruct (Hall m (list_elem_of_here _ _)) as (Hp & fd & ->).
  unfold SystemUnix.check_child_executed. cbn [SystemUnix.pid SystemUnix.retval String.length].
  rewrite !decide_False by (done || lia).
  apply IH. intros m' Hm'. by apply Hall, list_elem_of_further.
Qed.

Lemma lookup_foldl_insert (pids : ModuleStartInfo → Z) modules (started : gmap Z string) p :
  foldl (λ acc m, <[pids m := name m]> acc) started modules !! p
  = match last (filter (λ m, pids m = p) modules) with
    | Some m => Some (name m)
    | None => started !! p
    end.
Proof.
  revert started. induction modules as [|m modules IH]; intros started; [done|].
  cbn [foldl]. rewrite IH, filter_cons.
  destruct (decide (pids m = p)) as [<-|Hne].
  - destruct (filter _ modules) as [|m' ms] eqn:Hf; cbn.
    + by rewrite lookup_insert_eq.
    + cbn [last]. destruct (last (m' :: ms)) eqn:Hlast; [done|].
      apply last_None in Hlast. discriminate.
  - destruct (last (filter _ modules)); [done|]. by rewrite lookup_insert_ne.
Qed.

(** X9. If every forked child execs (the parent reads end of file from
    each pipe) and the children have pairwise different pids,
    [spawn_modules] returns a map that sends each child's pid to the id of
    its module and has no other entry. *)
Theorem spawn_modules_records_every_child (pids : ModuleStartInfo → Z)
    (modules : list ModuleStartInfo) :
  (∀ m, m ∈ modules → execs m (pids m)) →
  NoDup (pids <$> modules) →
  ∃ handles,
    spawn_modules MAX fork modules ∅ = inr handles
    ∧ (∀ m, m ∈ modules → handles !! pids m = Some (name m))
    ∧ (∀ p n, handles !! p = Some n → ∃ m, m ∈ modules ∧ p = pids m ∧ n = name m)
    ∧ size handles = length modules.
Proof.
  intros Hall Hnodup. eexists. split; [by apply spawn_modules_all_exec|].
  assert (Hlast : ∀ p, last (filter (λ m, pids m = p) modules) = None
                       ∨ ∃ m, m ∈ modules ∧ pids m = p
                              ∧ last (filter (λ m, pids m = p) modules) = Some m).
  { intros p. destruct (last (filter (λ m, pids m = p) modules)) as [m|] eqn:Hl; [|by left].
    right. exists m. apply last_Some_elem_of, list_elem_of_filter in Hl as [? ?]. done. }
  assert (Hinj : ∀ m m', m ∈ modules → m' ∈ modules → pids m = pids m' → m = m').
  { clear -Hnodup. induction modules as [|x xs IH]; intros m m' Hm Hm' Heq;
      [by apply elem_of_nil in Hm|].
    rewrite fmap_cons in Hnodup. apply NoDup_cons in Hnodup as [Hx Hxs].
    apply elem_of_cons in Hm as [->|Hm]; apply elem_of_cons in Hm' as [->|Hm']; try done.
    - exfalso. apply Hx. rewrite Heq. by apply list_elem_of_fmap_2.
    - exfalso. apply Hx. rewrite <- Heq. by apply list_elem_of_fmap_2.
    - by apply IH. }
  split; [|split].
  - intros m Hm. rewrite lookup_foldl_insert.
    destruct (Hlast (pids m)) as [Hnone|(m' & Hm' & Heq & ->)].
    + apply last_None in Hnone.
      assert (Hin : m ∈ filter (λ m', pids m' = pids m) modules)
        by (by apply list_elem_of_filter).
      rewrite Hnone in Hin. by apply elem_of_nil in Hin.
    + by rewrite (Hinj m' m Hm' Hm Heq).
  - intros p n. rewrite lookup_foldl_insert.
    destruct (Hlast p) as [->|(m & Hm & Heq & ->)]; [by rewrite lookup_empty|].
    intros H. simplify_eq. by exists m.
  - clear Hlast Hinj Hall.
    assert (Hgen : ∀ started : gmap Z string,
              (∀ m, m ∈ modules → started !! pids m = None) →
              size (foldl (λ acc m, <[pids m := name m]> acc) started modules)
              = (size started + length modules)%nat).
    { induction modules as [|x xs IH]; intros started Hfresh; cbn [foldl length]; [lia|].
      rewrite fmap_cons in Hnodup. apply NoDup_cons in Hnodup as [Hx Hxs].
      rewrite IH; [|done|].
      - rewrite map_size_insert_None by (apply Hfresh, list_elem_of_here). lia.
      - intros m Hm. rewrite lookup_insert_ne; [by apply Hfresh, list_elem_of_further|].
        intros Heq. apply Hx. rewrite Heq. by apply list_elem_of_fmap_2. }
    rewrite Hgen; [by rewrite map_size_empty|]. intros m _. apply lookup_empty.
Qed.

(** X10. The first child that does not exec aborts the start-up: if the
    children before it exec'ed and the parent reads bytes from its pipe,
    [spawn_modules] throws the runtime error whose text is "Forked child
    process did not complete exec():", a newline, and those bytes (as a C
    string), whatever modules come after it. *)
Theorem spawn_modules_stops_at_first_failure (pids : ModuleStartInfo → Z)
    (before after : list ModuleStartInfo) (m : ModuleStartInfo)
    (h : SystemUnix.SubProcess) (data : string) :
  (∀ m', m' ∈ before → execs m' (pids m')) →
  fork m = inr (h, SystemUnix.read_bytes data) →
  SystemUnix.pid h ≠ 0 →
  data ≠ "" →
  spawn_modules MAX fork (before ++ m :: after) ∅
  = inl (runtime_error
           ("Forked child process did not complete exec():"
              +:+ String (Ascii.ascii_of_nat 10) (c_str data))).
Proof.
  intros Hall Hfork Hpid Hdata. generalize (∅ : gmap Z string).
  induction before as [|b before IH]; intros started.
  - cbn [app spawn_modules]. rewrite Hfork.
    by rewrite SystemUnixFacts.check_child_executed_bytes.
  - cbn [app spawn_modules].
    destruct (Hall b (list_elem_of_here _ _)) as (Hp & fd & ->).
    unfold SystemUnix.check_child_executed at 1.
    cbn [SystemUnix.pid SystemUnix.retval String.length].
    rewrite !decide_False by (done || lia).
    apply IH. intros m' Hm'. by apply Hall, list_elem_of_further.
Qed.

End Spawn.

Lemma spawn_modules_records_every_child_witness :
  ∃ handles,
    spawn_modules 1024 ExtraScenarios.fork_all
      [ExtraScenarios.info "a" "A"; ExtraScenarios.info "b" "B"] ∅ = inr handles
    ∧ size handles = 2%nat.
Proof.
  assert (H1 : ∀ m, m ∈ [ExtraScenarios.info "a" "A"; ExtraScenarios.info "b" "B"] →
                    execs ExtraScenarios.fork_all m (ExtraScenarios.pid_of m)).
  { intros m Hm. split; [|by exists 3].
    unfold ExtraScenarios.pid_of. by destruct (decide _). }
  assert (H2 : NoDup (ExtraScenarios.pid_of
                        <$> [ExtraScenarios.info "a" "A"; ExtraScenarios.info "b" "B"])).
  { vm_compute. apply NoDup_cons. split; [|apply NoDup_singleton].
    intros Hin. apply list_elem_of_singleton in Hin. discriminate. }
  destruct (spawn_modules_records_every_child 1024 _ _ _ H1 H2) as (handles & Hs & _ & _ & Hn).
  exists handles. by split.
Defined.

Lemma spawn_modules_stops_at_first_failure_witness :
  spawn_modules 1024 ExtraScenarios.fork_b_fails
    ([ExtraScenarios.info "a" "A"] ++ ExtraScenarios.info "b" "B" :: [ExtraScenarios.info "c" "C"]) ∅
  = inl (runtime_error
           ("Forked child process did not complete exec():"
              +:+ String (Ascii.ascii_of_nat 10) "execv failed")).
Proof.
  assert (H1 : ∀ m, m ∈ [ExtraScenarios.info "a" "A"] →
                    execs ExtraScenarios.fork_b_fails m (ExtraScenarios.pid_of m)).
  { intros m Hm. apply list_elem_of_singleton in Hm as ->. split; [done|by exists 3]. }
  assert (H2 : ExtraScenarios.fork_b_fails (ExtraScenarios.info "b" "B")
               = inr ({| SystemUnix.fd := 3; SystemUnix.pid := 102 |},
                      SystemUnix.read_bytes "execv failed")) by reflexivity.
  assert (H3 : SystemUnix.pid {| SystemUnix.fd := 3; SystemUnix.pid := 102 |} ≠ 0) by done.
  assert (H4 : "execv failed" ≠ "") by done.
  exact (spawn_modules_stops_at_first_failure 1024 _ ExtraScenarios.pid_of
           [ExtraScenarios.info "a" "A"] [ExtraScenarios.info "c" "C"] _ _ _ H1 H2 H3 H4).
Defined.

(** X11. Once [boot] has entered its wait loop it never ends with
    success: whatever [waitpid] and [kill] return, a loop that ends has
    either returned EXIT_FAILURE or thrown, and [main] turns both into a
    non-zero exit code. *)
Theorem boot_loop_never_succeeds (kill : Killer) (config : Config) (waits : list (Z * Z))
    (st st' : BootState) (r : exn + Z) :
  boot_loop kill config waits st = (Some r, st') →
  main_exit_code r = EXIT_FAILURE ∧ main_exit_code r ≠ EXIT_SUCCESS.
Proof.
  revert st. induction waits as [|[pid wstatus] waits IH]; intros st Hloop; [discriminate|].
  cbn [boot_loop] in Hloop.
  destruct (boot_iteration kill config pid wstatus st) as [st1|code st1|e st1] eqn:Hit.
  - by apply (IH st1).
  - simplify_eq. unfold boot_iteration in Hit.
    repeat case_decide; try discriminate.
    destruct (module_handles st !! pid); [|discriminate].
    destruct (modules_started st); [|discriminate]. by simplify_eq.
  - by simplify_eq.
Qed.

Lemma boot_loop_never_succeeds_witness :
  main_exit_code (inl (runtime_error "Unkown child width pid died.")) = EXIT_FAILURE.
Proof.
  assert (H : boot_loop Scenarios.stubborn Scenarios.three_modules [(0, 0); (999, 0)]
                Scenarios.fleet
              = (Some (inl (runtime_error "Unkown child width pid died.")), Scenarios.fleet))
    by (vm_compute; reflexivity).
  exact (proj1 (boot_loop_never_succeeds _ _ _ _ _ _ H)).
Defined.

Lemma mark_standalone_spec acc item n :
  n ∈ mark_standalone acc item
  ↔ n ∈ acc ∨ (n = item.1 ∧ entry_standalone item.2 = true).
Proof.
  unfold mark_standalone, contains. destruct (entry_standalone item.2).
  - case_bool_decide as Hin.
    + split; [by left|]. intros [?|[-> _]]; done.
    + rewrite elem_of_app, list_elem_of_singleton. split.
      * intros [?|Heq]; [by left|right; by rewrite Heq].
      * intros [?|[Heq _]]; [by left|by right].
  - split; [by left|]. by intros [?|[_ ?]].
Qed.

Lemma collect_standalone_spec command_line main_config :
  (∃ marked, collect_standalone command_line main_config = command_line ++ marked)
  ∧ (∀ n, n ∈ collect_standalone command_line main_config
          ↔ n ∈ command_line
            ∨ ∃ e, (n, e) ∈ main_config ∧ entry_standalone e = true)
  ∧ (NoDup command_line → NoDup (collect_standalone command_line main_config)).
Proof.
  unfold collect_standalone. revert command_line.
  induction main_config as [|[n0 e0] items IH]; intros acc; cbn [foldl].
  - split; [exists []; by rewrite app_nil_r|]. split; [|done].
    intros n. split; [by left|]. intros [?|(e & Hin & _)]; [done|]. by apply elem_of_nil in Hin.
  - destruct (IH (mark_standalone acc (n0, e0))) as ([marked Hpre] & Hmem & Hnodup).
    split; [|split].
    + rewrite Hpre. unfold mark_standalone. cbn [fst snd].
      destruct (entry_standalone e0); [|by eexists].
      destruct (contains acc n0); [by eexists|]. exists ([n0] ++ marked).
      by rewrite <- app_assoc.
    + intros n. rewrite Hmem, mark_standalone_spec. cbn [fst snd]. split.
      * intros [[?|[-> He]]|(e & Hin & He)]; [by left| |].
        -- right. exists e0. split; [apply list_elem_of_here|done].
        -- right. exists e. split; [by apply list_elem_of_further|done].
      * intros [?|(e & Hin & He)]; [by left; left|].
        apply elem_of_cons in Hin as [Heq|Hin].
        -- injection Heq as -> ->. left. by right.
        -- right. by exists e.
    + intros Hnd. apply Hnodup. unfold mark_standalone, contains. cbn [fst snd].
      destruct (entry_standalone e0); [|done].
      case_bool_decide as Hin; [done|].
      apply NoDup_app. split; [done|]. split; [|apply NoDup_singleton].
      intros x Hx Hx'. apply list_elem_of_singleton in Hx' as ->. done.
Qed.

(** X12. The standalone list [boot] builds starts with the ids given on
    the command line, in their order, followed by config ids; it contains
    an id exactly if the id was given on the command line or the config
    marks that module [standalone: true]; and ids are not added twice (a
    duplicate-free command line gives a duplicate-free list). *)
Theorem collect_standalone_merges (command_line : list string)
    (main_config : list (string * ModuleEntry)) :
  (∃ marked, collect_standalone command_line main_config = command_line ++ marked)
  ∧ (∀ n, n ∈ collect_standalone command_line main_config
          ↔ n ∈ command_line
            ∨ ∃ e, (n, e) ∈ main_config ∧ entry_standalone e = true)
  ∧ (NoDup command_line → NoDup (collect_standalone command_line main_config)).
Proof. apply collect_standalone_spec. Qed.

(** X13. A module that the config marks [standalone: true] is never
    spawned by the manager, also when the command line does not name it:
    with the standalone list built by [boot], a completed registration
    loop schedules no such module, but keeps it in the ready table unless
    it is ignored. *)
Theorem config_standalone_is_never_spawned (fs : FileSystem) (rs : RuntimeSettings)
    (config : Config) (ignored_modules command_line : list string)
    (w w' : World) (l : list ModuleStartInfo) (n : string) (e : ModuleEntry) :
  modules_ready w = ∅ →
  start_modules_loop fs rs config ignored_modules
    (collect_standalone command_line (main_config config))
    (main_config config) (w, []) = inr (w', l) →
  (n, e) ∈ main_config config →
  entry_standalone e = true →
  (n ∉ (name <$> l))
  ∧ (contains ignored_modules n = false → is_Some (modules_ready w' !! n)).
Proof.
  intros Hempty Hloop Hin Hsta. split.
  - rewrite (start_modules_loop_names _ _ _ _ _ _ _ _ _ _ Hloop). cbn [fmap list_fmap app].
    intros Hn. apply list_elem_of_filter in Hn as [[_ Hns] _].
    unfold contains in Hns. apply bool_decide_eq_false in Hns. apply Hns.
    apply collect_standalone_spec. right. by exists e.
  - intros Hign.
    destruct (BarrierFacts.start_modules_loop_table _ _ _ _ _ _ _ _ _ _ Hloop)
      as (_ & _ & Hdom & _ & _).
    apply Hdom. right. by exists e.
Qed.

Lemma config_standalone_is_never_spawned_witness :
  "s" ∉ (name <$> [ExtraScenarios.info "a" "A"; ExtraScenarios.info "b" "B"]).
Proof.
  assert (H1 : modules_ready initial_world = ∅) by reflexivity.
  assert (H2 : start_modules_loop Scenarios.all_binaries Scenarios.rs Scenarios.with_standalone
                 [] (collect_standalone [] (main_config Scenarios.with_standalone))
                 (main_config Scenarios.with_standalone) (initial_world, [])
               = inr (Scenarios.registered_world Scenarios.with_standalone ["s"],
                      [ExtraScenarios.info "a" "A"; ExtraScenarios.info "b" "B"]))
    by (vm_compute; reflexivity).
  assert (H3 : ("s", Scenarios.entry "S" true) ∈ main_config Scenarios.with_standalone)
    by (do 2 apply list_elem_of_further; apply list_elem_of_here).
  exact (proj1 (config_standalone_is_never_spawned _ _ _ _ _ _ _ _ "s" _ H1 H2 H3 eq_refl)).
Defined.

End ManagerExtraFacts.

(** ** The global error manager: round trips and invariants *)
Module ErrorManagerExtraFacts.

Import ErrorManagerReqGlobal.

Section Facts.

Context {ErrorCallback : Type} (throws : ErrorCallback → Error → option exn).

Local Abbreviation ErrorManager := (ErrorManager ErrorCallback).

Implicit Types (m : ErrorManager) (e error : Error) (db : list Error) (id : identity).

Lemma filter_other_identity error db :
  count_active (identity_of error) db = 0%nat →
  filter (λ x, identity_of x ≠ identity_of error) db = db.
Proof.
  unfold count_active. induction db as [|x db IH]; [done|].
  rewrite !filter_cons. destruct (decide (identity_of x = identity_of error)) as [Heq|Hne].
  - discriminate.
  - intros Hz. rewrite decide_True by done. by rewrite IH.
Qed.

(** X14. Raise and clear are inverse on the active set.  For a known
    type and an identity that is not active, raising [e] and then clearing
    with any error [e'] of the same identity (its message, severity,
    timestamp and uuid may differ) restores the database, logs no
    diagnostic and keeps the subscriptions, whether or not a callback
    throws.  If no raise callback throws on [e] and no clear callback
    throws on [e'], both handlers return, and every subscriber has had its
    raise callback invoked with [e] and then its clear callback invoked
    with the error of the clear request, [e'], in the order of the
    subscriptions. *)
Theorem raise_then_clear_restores m e e' :
  has (error_type_map m) (type e) = true →
  ¬ active (identity_of e) (database m) →
  identity_of e' = identity_of e →
  database (after (on_error_cleared throws e' (after (on_error_raised throws e m))))
  = database m
  ∧ diagnostics (after (on_error_cleared throws e' (after (on_error_raised throws e m))))
    = diagnostics m
  ∧ subscriptions (after (on_error_cleared throws e' (after (on_error_raised throws e m))))
    = subscriptions m
  ∧ (Forall (λ sub, throws (callback sub) e = None ∧ throws (clear_callback sub) e' = None)
            (subscriptions m) →
     escaped (on_error_raised throws e m) = None
     ∧ escaped (on_error_cleared throws e' (after (on_error_raised throws e m))) = None
     ∧ calls (after (on_error_cleared throws e' (after (on_error_raised throws e m))))
       = calls m
         ++ imap (λ i sub, {| subscriber := i; event := raised; invoked := callback sub;
                              argument := e |}) (subscriptions m)
         ++ imap (λ i sub, {| subscriber := i; event := cleared;
                              invoked := clear_callback sub; argument := e' |})
                 (subscriptions m)).
Proof.
  intros Hknown Hinactive Hid.
  rewrite ErrorManagerFacts.active_count in Hinactive. apply dec_stable in Hinactive.
  assert (Htype : type e' = type e) by (by injection Hid).
  rewrite ErrorManagerFacts.on_error_raised_cases, Hknown. cbn [negb].
  rewrite decide_True by done.
  rewrite ErrorManagerFacts.on_error_cleared_cases.
  cbn [after error_type_map notify add_calls set_database database].
  rewrite Htype, Hknown. cbn [negb]. cbn zeta.
  rewrite Hid, ErrorManagerFacts.count_active_add, Hinactive.
  rewrite (decide_True (P := identity_of e = identity_of e)) by done. cbn [Nat.add].
  rewrite decide_False by done. rewrite decide_True by done.
  cbn [after escaped database calls diagnostics subscriptions notify add_calls set_database].
  split; [|split; [done|split; [done|]]].
  - unfold add_error. rewrite filter_app, filter_other_identity by done.
    rewrite filter_cons, decide_False by (intros H; by apply H).
    by rewrite filter_nil, app_nil_r.
  - intros Hall.
    assert (Hr : Forall (λ sub, throws (member raised sub) e = None) (subscriptions m))
      by (eapply Forall_impl; [exact Hall|]; by intros sub [? _]).
    assert (Hc : Forall (λ sub, throws (member cleared sub) e' = None) (subscriptions m))
      by (eapply Forall_impl; [exact Hall|]; by intros sub [_ ?]).
    rewrite (ErrorManagerFacts.fanout_all_return throws 0 raised e _ Hr).
    rewrite (ErrorManagerFacts.fanout_all_return throws 0 cleared e' _ Hc).
    cbn [fst snd]. by rewrite <- app_assoc.
Qed.

(** One step keeps the number of active errors of an identity at most
    one. *)
Lemma step_at_most_once m (o : Op ErrorCallback) id :
  (count_active id (database m) ≤ 1)%nat →
  (count_active id (database (step throws m o)) ≤ 1)%nat.
Proof.
  intros Hle. destruct o as [cb ccb|e|e]; cbn [step]; [done| |].
  - rewrite ErrorManagerFacts.on_error_raised_cases.
    destruct (negb _); [done|].
    destruct (decide (count_active (identity_of e) (database m) = 0%nat)) as [Hz|]; [|done].
    cbn [after database notify add_calls set_database].
    rewrite ErrorManagerFacts.count_active_add.
    destruct (decide (identity_of e = id)) as [<-|]; lia.
  - rewrite ErrorManagerFacts.on_error_cleared_cases.
    destruct (negb _); [done|]. cbn zeta.
    repeat case_decide;
      cbn [after returns database notify add_calls set_database evlog_error]; try done;
      rewrite ErrorManagerFacts.count_active_remove; case_decide; lia.
Qed.

(** X15. The active set never holds two errors of one identity: if no
    identity has more than one active error (as in a new manager with an
    empty database), the same holds after any sequence of subscribe, raise
    and clear operations. *)
Theorem identity_active_at_most_once m (ops : list (Op ErrorCallback)) :
  (∀ id, (count_active id (database m) ≤ 1)%nat) →
  ∀ id, (count_active id (database (run throws ops m)) ≤ 1)%nat.
Proof.
  revert m. induction ops as [|o ops IH]; intros m Hle id; [apply Hle|].
  cbn [run foldl]. apply (IH (step throws m o)). intros id'. by apply step_at_most_once.
Qed.

(** X16. A clear that matches several active errors (a database that
    was handed over with duplicates) removes all of them but notifies
    nobody: the identity is no longer active, no callback is invoked and
    the diagnostic "more than one error is cleared" is logged. *)
Theorem clear_of_duplicates_is_silent m e :
  has (error_type_map m) (type e) = true →
  (1 < count_active (identity_of e) (database m))%nat →
  ¬ active (identity_of e) (database (after (on_error_cleared throws e m)))
  ∧ calls (after (on_error_cleared throws e m)) = calls m
  ∧ diagnostics (after (on_error_cleared throws e m))
    = diagnostics m ++ [More_than_one_cleared (type e) (sub_type e)].
Proof.
  intros Hknown Hmany. rewrite ErrorManagerFacts.on_error_cleared_cases, Hknown.
  cbn [negb]. cbn zeta. rewrite !decide_False by lia.
  cbn [after returns database calls diagnostics evlog_error set_database]. split; [|done].
  rewrite ErrorManagerFacts.active_count, ErrorManagerFacts.count_active_remove.
  rewrite decide_True by done. by intros H.
Qed.

(** One step keeps undeclared types out of the active set and never
    drops a subscription or a recorded invocation. *)
Lemma step_monotone m (o : Op ErrorCallback) :
  error_type_map (step throws m o) = error_type_map m
  ∧ subscriptions m `prefix_of` subscriptions (step throws m o)
  ∧ calls m `prefix_of` calls (step throws m o)
  ∧ ((∀ x, x ∈ database m → has (error_type_map m) (type x) = true) →
     ∀ x, x ∈ database (step throws m o) → has (error_type_map m) (type x) = true).
Proof.
  destruct o as [cb ccb|e|e]; cbn [step].
  - cbn. split; [done|]. split; [by apply prefix_app_r|]. done.
  - rewrite ErrorManagerFacts.on_error_raised_cases.
    destruct (has (error_type_map m) (type e)) eqn:Hknown; cbn [negb]; [|done].
    case_decide; [|done].
    cbn [after error_type_map subscriptions calls database notify add_calls set_database].
    split; [done|]. split; [done|]. split; [by apply prefix_app_r|].
    intros Hall x Hx. unfold add_error in Hx. apply elem_of_app in Hx as [Hx|Hx]; [by apply Hall|].
    apply list_elem_of_singleton in Hx as ->. done.
  - rewrite ErrorManagerFacts.on_error_cleared_cases.
    destruct (has (error_type_map m) (type e)) eqn:Hknown; cbn [negb]; [|done].
    cbn zeta. repeat case_decide;
      cbn [after returns error_type_map subscriptions calls database notify add_calls
           set_database evlog_error];
      (split; [done|]); (split; [done|]); (split; [by apply prefix_app_r || done|]);
      try done; intros Hall x Hx; apply list_elem_of_filter in Hx as [_ Hx]; by apply Hall.
Qed.

(** X17. Over any sequence of operations the manager keeps its error
    type map, only appends to its subscriptions (there is no way to
    unsubscribe) and to the callback invocations it has made, and keeps
    errors of undeclared types out of the active set. *)
Theorem run_is_monotone m (ops : list (Op ErrorCallback)) :
  error_type_map (run throws ops m) = error_type_map m
  ∧ subscriptions m `prefix_of` subscriptions (run throws ops m)
  ∧ calls m `prefix_of` calls (run throws ops m)
  ∧ ((∀ x, x ∈ database m → has (error_type_map m) (type x) = true) →
     ∀ x, x ∈ database (run throws ops m) → has (error_type_map m) (type x) = true).
Proof.
  revert m. induction ops as [|o ops IH]; intros m; [done|].
  cbn [run foldl]. destruct (step_monotone m o) as (Htm & Hsub & Hcalls & Hdb).
  destruct (IH (step throws m o)) as (Htm' & Hsub' & Hcalls' & Hdb').
  split; [exact (eq_trans Htm' Htm)|].
  split; [exact (transitivity Hsub Hsub')|]. split; [exact (transitivity Hcalls Hcalls')|].
  intros Hall x Hx. rewrite <- Htm. apply Hdb'; [|done].
  intros y Hy. rewrite Htm. by apply Hdb.
Qed.

(** The invocations of a fan-out that was cut short stop at the
    callback that threw. *)
Lemma observed_beyond_throw ev e
    (reached : list (Subscription ErrorCallback)) i id :
  (length reached ≤ i)%nat →
  filter (λ c, subscriber c = i ∧ identity_of (argument c) = id)
    (imap (λ j sub, {| subscriber := 0 + j; event := ev; invoked := member ev sub;
                       argument := e |}) reached) = [].
Proof.
  intros Hi. apply ErrorManagerFacts.filter_none. intros c Hc [Hs _].
  apply elem_of_lookup_imap in Hc as (j & sub & -> & Hl).
  apply lookup_lt_Some in Hl. cbn in Hs. lia.
Qed.

(** X28. A raise callback that throws starves the subscribers registered
    after it.  If the raise of a known type with an inactive identity is
    delivered and the raise callback of some subscriber throws, the
    exception leaves [on_error_raised] with the error active and the
    later subscribers not invoked.  The raise cannot be repeated: a second
    raise of the identity is ignored as already raised.  And if no clear
    callback throws, the following clear is delivered to every
    subscriber, so that the event the later subscribers are delivered for
    this identity is the clear, without a raise before it. *)
Theorem throwing_raise_starves_later_subscribers m e
    (done rest : list (Subscription ErrorCallback)) last x :
  has (error_type_map m) (type e) = true →
  ¬ active (identity_of e) (database m) →
  subscriptions m = done ++ last :: rest →
  Forall (λ sub, throws (callback sub) e = None) done →
  throws (callback last) e = Some x →
  escaped (on_error_raised throws e m) = Some x
  ∧ active (identity_of e) (database (after (on_error_raised throws e m)))
  ∧ (∀ i, (length done < i)%nat →
          observed i (identity_of e) (after (on_error_raised throws e m))
          = observed i (identity_of e) m)
  ∧ calls (after (on_error_raised throws e (after (on_error_raised throws e m))))
    = calls (after (on_error_raised throws e m))
  ∧ diagnostics (after (on_error_raised throws e (after (on_error_raised throws e m))))
    = diagnostics m ++ [Already_raised (type e) (sub_type e)]
  ∧ (Forall (λ sub, throws (clear_callback sub) e = None) (subscriptions m) →
     ∀ i, (length done < i < length (subscriptions m))%nat →
          observed i (identity_of e)
            (after (on_error_cleared throws e (after (on_error_raised throws e m))))
          = observed i (identity_of e) m ++ [cleared]).
Proof.
  intros Hknown Hinactive Hsubs Hdone Hlast.
  rewrite ErrorManagerFacts.active_count in Hinactive. apply dec_stable in Hinactive.
  set (m0 := set_database (add_error e (database m)) m).
  assert (Hraise : on_error_raised throws e m = notify throws raised e m0).
  { rewrite ErrorManagerFacts.on_error_raised_cases, Hknown. cbn [negb].
    by rewrite decide_True. }
  assert (Hfan : fanout throws 0 raised e (subscriptions m0)
                 = (imap (λ j sub, {| subscriber := 0 + j; event := raised;
                                      invoked := member raised sub; argument := e |})
                         (done ++ [last]), Some x)).
  { subst m0. cbn [subscriptions set_database]. rewrite Hsubs.
    by apply ErrorManagerFacts.fanout_first_throw. }
  set (m1 := after (notify throws raised e m0)).
  assert (Hcount : count_active (identity_of e) (database m1) = 1%nat).
  { subst m1 m0. cbn [after notify add_calls database set_database].
    rewrite ErrorManagerFacts.count_active_add, Hinactive.
    by rewrite decide_True. }
  assert (Hobs : ∀ i, (length done < i)%nat →
                      observed i (identity_of e) m1 = observed i (identity_of e) m).
  { intros i Hi. subst m1. unfold observed, notify. cbn [after add_calls calls].
    rewrite Hfan. cbn [fst]. subst m0. cbn [calls set_database].
    rewrite filter_app, observed_beyond_throw; [by rewrite app_nil_r|].
    rewrite length_app. cbn. lia. }
  rewrite Hraise. fold m1.
  split; [unfold notify; cbn [escaped]; by rewrite Hfan|].
  split; [apply ErrorManagerFacts.active_count; by rewrite Hcount|].
  split; [exact Hobs|].
  assert (Hknown1 : has (error_type_map m1) (type e) = true) by exact Hknown.
  split; [|split].
  - rewrite ErrorManagerFacts.on_error_raised_cases, Hknown1. cbn [negb].
    by rewrite decide_False by (rewrite Hcount; lia).
  - rewrite ErrorManagerFacts.on_error_raised_cases, Hknown1. cbn [negb].
    by rewrite decide_False by (rewrite Hcount; lia).
  - intros Hclear i Hi.
    rewrite ErrorManagerFacts.on_error_cleared_cases, Hknown1. cbn [negb]. cbn zeta.
    rewrite Hcount. rewrite decide_False by done. rewrite decide_True by done.
    rewrite ErrorManagerFacts.observed_notify.
    + cbn [subscriptions set_database]. 
      change (subscriptions m1) with (subscriptions m).
      rewrite decide_True by (split; [done|lia]).
      f_equal. exact (Hobs i (proj1 Hi)).
    + intros j sub _ Hl. cbn [member].
      rewrite Forall_forall in Hclear. apply Hclear.
      by apply (list_elem_of_lookup_2 _ j).
Qed.

End Facts.

Lemma raise_then_clear_restores_witness :
  database (after (on_error_cleared ErrorScenarios.behaviour ErrorScenarios.overcurrent
                     (after (on_error_raised ErrorScenarios.behaviour
                               ErrorScenarios.overcurrent ErrorScenarios.with_subscriber))))
  = database ErrorScenarios.with_subscriber
  ∧ calls (after (on_error_cleared ErrorScenarios.behaviour ErrorScenarios.overcurrent
                    (after (on_error_raised ErrorScenarios.behaviour
                              ErrorScenarios.overcurrent ErrorScenarios.with_subscriber))))
    = [{| subscriber := 0; event := raised; invoked := "on_raise";
          argument := ErrorScenarios.overcurrent |};
       {| subscriber := 0; event := cleared; invoked := "on_clear";
          argument := ErrorScenarios.overcurrent |}].
Proof.
  assert (H1 : has (error_type_map ErrorScenarios.with_subscriber)
                   (type ErrorScenarios.overcurrent) = true) by (vm_compute; reflexivity).
  assert (H2 : ¬ active (identity_of ErrorScenarios.overcurrent)
                        (database ErrorScenarios.with_subscriber)).
  { intros (e & Hin & _). by apply elem_of_nil in Hin. }
  assert (H3 : Forall (λ sub, ErrorScenarios.behaviour (callback sub)
                                ErrorScenarios.overcurrent = None
                              ∧ ErrorScenarios.behaviour (clear_callback sub)
                                  ErrorScenarios.overcurrent = None)
                      (subscriptions ErrorScenarios.with_subscriber)).
  { repeat constructor. }
  destruct (raise_then_clear_restores ErrorScenarios.behaviour ErrorScenarios.with_subscriber
              ErrorScenarios.overcurrent ErrorScenarios.overcurrent H1 H2 eq_refl)
    as (Hdb & _ & _ & Hcalls).
  split; [exact Hdb|]. exact (proj2 (proj2 (Hcalls H3))).
Defined.

Lemma identity_active_at_most_once_witness :
  (count_active (identity_of ErrorScenarios.overcurrent)
     (database (run ErrorScenarios.behaviour
                    [Raise ErrorScenarios.overcurrent; Raise ErrorScenarios.overcurrent]
                    ErrorScenarios.with_subscriber)) ≤ 1)%nat.
Proof.
  assert (H : ∀ id, (count_active id (database ErrorScenarios.with_subscriber) ≤ 1)%nat).
  { intros id. cbn. lia. }
  exact (identity_active_at_most_once ErrorScenarios.behaviour
           ErrorScenarios.with_subscriber _ H _).
Defined.

Lemma clear_of_duplicates_is_silent_witness :
  calls (after (on_error_cleared ErrorScenarios.behaviour ErrorScenarios.overcurrent
                  ExtraScenarios.duplicated))
  = calls ExtraScenarios.duplicated.
Proof.
  assert (H1 : has (error_type_map ExtraScenarios.duplicated)
                   (type ErrorScenarios.overcurrent) = true) by (vm_compute; reflexivity).
  assert (H2 : (1 < count_active (identity_of ErrorScenarios.overcurrent)
                      (database ExtraScenarios.duplicated))%nat) by (vm_compute; lia).
  exact (proj1 (proj2 (clear_of_duplicates_is_silent ErrorScenarios.behaviour
                         ExtraScenarios.duplicated ErrorScenarios.overcurrent H1 H2))).
Defined.

Lemma throwing_raise_starves_later_subscribers_witness :
  observed 1 (identity_of ErrorScenarios.overcurrent)
    (after (on_error_cleared ErrorScenarios.behaviour ErrorScenarios.overcurrent
              (after (on_error_raised ErrorScenarios.behaviour ErrorScenarios.overcurrent
                        ErrorScenarios.empty_raise_callback))))
  = [cleared].
Proof.
  assert (H1 : has (error_type_map ErrorScenarios.empty_raise_callback)
                   (type ErrorScenarios.overcurrent) = true) by (vm_compute; reflexivity).
  assert (H2 : ¬ active (identity_of ErrorScenarios.overcurrent)
                        (database ErrorScenarios.empty_raise_callback)).
  { intros (e & Hin & _). by apply elem_of_nil in Hin. }
  assert (H3 : subscriptions ErrorScenarios.empty_raise_callback
               = [] ++ {| callback := ""; clear_callback := "first_on_clear" |}
                    :: [{| callback := "second_on_raise";
                           clear_callback := "second_on_clear" |}]) by reflexivity.
  assert (H4 : Forall (λ sub : Subscription string,
                         ErrorScenarios.behaviour (callback sub)
                           ErrorScenarios.overcurrent = None) []) by constructor.
  assert (H5 : ErrorScenarios.behaviour "" ErrorScenarios.overcurrent
               = Some bad_function_call) by reflexivity.
  assert (H6 : Forall (λ sub, ErrorScenarios.behaviour (clear_callback sub)
                                ErrorScenarios.overcurrent = None)
                      (subscriptions ErrorScenarios.empty_raise_callback)).
  { repeat constructor. }
  destruct (throwing_raise_starves_later_subscribers ErrorScenarios.behaviour
              ErrorScenarios.empty_raise_callback ErrorScenarios.overcurrent
              [] _ _ bad_function_call H1 H2 H3 H4 H5)
    as (_ & _ & _ & _ & _ & Hclear).
  apply (Hclear H6 1%nat). cbn. lia.
Defined.

End ErrorManagerExtraFacts.

(** ** The sub-process helper: user switch, capabilities, creation *)
Module SystemUnixExtraFacts.

Import SystemUnix SystemUnixUser.

(** A passwd entry is usable if the user's groups fit into the array. *)
Lemma get_passwd_entry_spec os user_name :
  get_passwd_entry os user_name
  = match getpwnam os user_name with
    | None => inl ("Could not get passwd entry for user name: " +:+ user_name)
    | Some entry =>
        let found := groups_of os user_name (pw_gid entry) in
        if decide (length found ≤ 50)%nat then inr (pw_uid entry, pw_gid entry, found)
        else inl ("Could not get supplementary groups for user name: " +:+ user_name)
    end.
Proof.
  unfold get_passwd_entry, getgrouplist, max_supplementary_groups.
  destruct (getpwnam os user_name) as [entry|]; [|done]. cbn zeta.
  destruct (decide (length (groups_of os user_name (pw_gid entry)) ≤ 50)%nat) as [Hle|Hgt].
  - rewrite decide_True by lia. rewrite decide_False by lia.
    by rewrite Nat2Z.id, firstn_all.
  - rewrite decide_False by lia. by rewrite decide_True by lia.
Qed.


(** X19. [set_real_user] drops privileges in a fixed order and stops at
    the first failure: the calls it makes are a prefix of setgroups,
    setgid, setuid; an unknown user or one with more than 50 groups makes
    it return an error without any call; [setgid] is attempted only after
    [setgroups] succeeded and [setuid] only after both succeeded. *)
Theorem set_real_user_stops_at_first_failure (os : UserOS) (user_name : string) :
  let '(error, calls) := set_real_user os user_name in
  (∃ uid gid groups,
     calls `prefix_of` [Setgroups groups; Setgid gid; Setuid uid]
     ∧ (∀ g, Setgid g ∈ calls → setgroups os groups = 0)
     ∧ (∀ u, Setuid u ∈ calls → setgroups os groups = 0 ∧ setgid os gid = 0))
  ∧ (getpwnam os user_name = None →
     error = "Could not get passwd entry for user name: " +:+ user_name ∧ calls = [])
  ∧ (∀ entry, getpwnam os user_name = Some entry →
       (50 < length (groups_of os user_name (pw_gid entry)))%nat →
       error = "Could not get supplementary groups for user name: " +:+ user_name
       ∧ calls = []).
Proof.
  unfold set_real_user. rewrite get_passwd_entry_spec.
  destruct (getpwnam os user_name) as [entry|]; cbn zeta.
  - destruct (decide (length (groups_of os user_name (pw_gid entry)) ≤ 50)%nat) as [Hle|Hgt].
    + set (groups := groups_of os user_name (pw_gid entry)) in *.
      assert (Hin1 : ∀ c : identity_call, c ∈ [Setgroups groups] → c = Setgroups groups)
        by (intros c Hc; by apply list_elem_of_singleton in Hc).
      assert (Hin2 : ∀ c : identity_call, c ∈ [Setgroups groups; Setgid (pw_gid entry)] →
                     c = Setgroups groups ∨ c = Setgid (pw_gid entry)).
      { intros c Hc. apply elem_of_cons in Hc as [->|Hc]; [by left|].
        apply list_elem_of_singleton in Hc. by right. }
      repeat case_decide;
        (split; [|split; [done|intros e He Hlen; simplify_eq; exfalso; subst groups; lia]]);
        exists (pw_uid entry), (pw_gid entry), groups.
      * split; [by exists [Setgid (pw_gid entry); Setuid (pw_uid entry)]|].
        split; intros x Hx; by apply Hin1 in Hx.
      * split; [by exists [Setuid (pw_uid entry)]|].
        split; intros x Hx; apply Hin2 in Hx as [?|?];
          first [done | by apply dec_stable | split; by apply dec_stable].
      * split; [reflexivity|]. split; [intros g _|intros u _; split]; assumption.
      * split; [reflexivity|]. split; [intros g _|intros u _; split]; assumption.
    + split; [|split; [done|done]]. exists 0, 0, []. split; [apply prefix_nil|].
      split; intros x Hx; by apply elem_of_nil in Hx.
  - split; [|split; [done|done]]. exists 0, 0, []. split; [apply prefix_nil|].
    split; intros x Hx; by apply elem_of_nil in Hx.
Qed.

(** The loop of [set_caps] appends the values of the names in order. *)
Lemma set_caps_loop_known cap_from_name capabilities values resolved :
  Forall2 (λ n v, cap_from_name n = Some v) capabilities resolved →
  set_caps_loop cap_from_name capabilities values = inr (values ++ resolved).
Proof.
  intros H. revert values. induction H as [|n v ns vs Hn _ IH]; intros values; cbn.
  - by rewrite app_nil_r.
  - rewrite Hn, IH, <- app_assoc. done.
Qed.

Lemma set_caps_loop_unknown cap_from_name known unknown rest values resolved :
  Forall2 (λ n v, cap_from_name n = Some v) known resolved →
  cap_from_name unknown = None →
  set_caps_loop cap_from_name (known ++ unknown :: rest) values
  = inl ("Failed to get capability value for capability name " +:+ unknown).
Proof.
  intros H Hu. revert values. induction H as [|n v ns vs Hn _ IH]; intros values; cbn.
  - by rewrite Hu.
  - by rewrite Hn, IH.
Qed.

(** X20. When libcap knows all [n] capability names, [set_caps] returns
    the empty text and hands libcap [2 n] capability values: [n] zeros
    (left by the [resize] that precedes the loop) followed by the values
    of the names in order.  All of them are added to the inheritable set
    and then raised in the ambient set, so capability 0 is raised as well
    whenever a capability is requested. *)
Theorem set_caps_passes_leading_zeros (cap_from_name : string → option Z)
    (capabilities : list string) (resolved : list Z) :
  Forall2 (λ n v, cap_from_name n = Some v) capabilities resolved →
  let values := replicate (length capabilities) 0 ++ resolved in
  set_caps cap_from_name capabilities
  = ("", [Cap_get_proc; Cap_set_flag_inheritable (2 * length capabilities) values;
          Cap_set_proc; Cap_free] ++ (Cap_set_ambient <$> values))
  ∧ (capabilities ≠ [] → Cap_set_ambient 0 ∈ (set_caps cap_from_name capabilities).2).
Proof.
  intros Hall values. unfold set_caps.
  rewrite (set_caps_loop_known _ _ _ _ Hall). fold values.
  assert (Hlen : length values = (2 * length capabilities)%nat).
  { subst values. rewrite length_app, length_replicate, <- (Forall2_length _ _ _ Hall). lia. }
  rewrite Hlen. split; [done|]. intros Hne. cbn [snd].
  apply elem_of_app. right. apply list_elem_of_fmap_2. subst values.
  destruct capabilities as [|c cs]; [done|]. apply list_elem_of_here.
Qed.

(** X21. [set_caps] resolves all names before it touches the process: at
    the first name libcap does not know it returns the error text naming
    that capability and has made no libcap call. *)
Theorem set_caps_unknown_name (cap_from_name : string → option Z)
    (known : list string) (resolved : list Z) (unknown : string) (rest : list string) :
  Forall2 (λ n v, cap_from_name n = Some v) known resolved →
  cap_from_name unknown = None →
  set_caps cap_from_name (known ++ unknown :: rest)
  = ("Failed to get capability value for capability name " +:+ unknown, []).
Proof.
  intros Hknown Hunknown. unfold set_caps.
  by rewrite (set_caps_loop_unknown _ _ _ _ _ _ Hknown Hunknown).
Qed.

(** X22. [SubProcess::create] gives each side of the fork the handle its
    method asserts.  In the parent ([fork] returned the child's pid) the
    handle holds the reading end and that pid, the writing end is closed,
    and [check_child_executed] returns the pid on end of file.  In the
    child ([fork] returned 0) a created handle holds the writing end and
    pid 0, so that [send_error_and_exit] passes its assertion; and the
    child signals itself with the parent-death signal exactly if the
    death signal was requested, [prctl] succeeded and its parent is no
    longer the process that forked it. *)
Theorem create_hands_out_matching_ends (MAX : nat) (set_pdeathsig : bool) (os : CreateOS)
    (reading_end writing_end : Z) :
  pipe2 os = inr (reading_end, writing_end) →
  (0 < fork os →
     create MAX set_pdeathsig os
     = created {| fd := reading_end; pid := fork os |} [Close writing_end]
     ∧ check_child_executed MAX {| fd := reading_end; pid := fork os |} (read_bytes "")
       = inr (fork os))
  ∧ (fork os = 0 →
     ∀ handle actions, create MAX set_pdeathsig os = created handle actions →
       handle = {| fd := writing_end; pid := 0 |}
       ∧ (∀ message, ∃ e, send_error_and_exit MAX handle message = inr e)
       ∧ (Kill (child_pid os) PARENT_DIED_SIGNAL ∈ actions
          ↔ set_pdeathsig = true ∧ getppid os ≠ parent_pid os)).
Proof.
  intros Hpipe. unfold create. rewrite Hpipe. split.
  - intros Hpos. rewrite !decide_False by lia. split; [done|].
    unfold check_child_executed. cbn [pid retval String.length].
    by rewrite !decide_False by lia.
  - intros Hchild. rewrite Hchild. rewrite decide_False by done. rewrite decide_True by done.
    intros handle actions Hcreated.
    assert (Hnotin : ¬ Kill (child_pid os) PARENT_DIED_SIGNAL ∈ [Close reading_end]).
    { intros Hin. apply list_elem_of_singleton in Hin. discriminate. }
    destruct set_pdeathsig; repeat case_decide; simplify_eq;
      (split; [done|]); (split; [intros message; unfold send_error_and_exit; cbn [pid];
                                 rewrite decide_True by done; by eexists|]).
    + split; [intros _; by split|]. intros _.
      apply list_elem_of_further, list_elem_of_here.
    + split; [by intros Hin; apply Hnotin in Hin|]. intros [_ Hne].
      exfalso. by apply Hne, dec_stable.
    + split; [by intros Hin; apply Hnotin in Hin|]. by intros [? _].
Qed.

Lemma set_caps_passes_leading_zeros_witness :
  set_caps ExtraScenarios.cap_names ["cap_net_admin"; "cap_net_raw"]
  = ("", [Cap_get_proc; Cap_set_flag_inheritable 4 [0; 0; 12; 13]; Cap_set_proc; Cap_free;
          Cap_set_ambient 0; Cap_set_ambient 0; Cap_set_ambient 12; Cap_set_ambient 13]).
Proof.
  assert (H : Forall2 (λ n v, ExtraScenarios.cap_names n = Some v)
                ["cap_net_admin"; "cap_net_raw"] [12; 13]) by (repeat constructor).
  exact (proj1 (set_caps_passes_leading_zeros ExtraScenarios.cap_names _ _ H)).
Defined.

Lemma set_caps_unknown_name_witness :
  set_caps ExtraScenarios.cap_names (["cap_net_admin"] ++ "cap_sys_fly" :: ["cap_net_raw"])
  = ("Failed to get capability value for capability name cap_sys_fly", []).
Proof.
  assert (H1 : Forall2 (λ n v, ExtraScenarios.cap_names n = Some v) ["cap_net_admin"] [12])
    by (repeat constructor).
  assert (H2 : ExtraScenarios.cap_names "cap_sys_fly" = None) by reflexivity.
  exact (set_caps_unknown_name ExtraScenarios.cap_names _ _ _ ["cap_net_raw"] H1 H2).
Defined.

Lemma create_hands_out_matching_ends_witness :
  create 1024 true ExtraScenarios.in_parent
  = created {| fd := 5; pid := 4711 |} [Close 6].
Proof.
  assert (H1 : pipe2 ExtraScenarios.in_parent = inr (5, 6)) by reflexivity.
  assert (H2 : 0 < fork ExtraScenarios.in_parent) by (cbn; lia).
  exact (proj1 (proj1 (create_hands_out_matching_ends 1024 true ExtraScenarios.in_parent
                         5 6 H1) H2)).
Defined.

End SystemUnixExtraFacts.

(** ** The manager: the child between fork and exec *)
Module ManagerExecFacts.

Import Manager ManagerExec.

Lemma lookup_setenv name value overwrite (env : Env) k :
  setenv name value overwrite env !! k
  = if decide (name = k) then
      if decide (overwrite ≠ 0) then Some value else Some (default value (env !! name))
    else env !! k.
Proof.
  unfold setenv. destruct (decide (overwrite ≠ 0)).
  - rewrite lookup_insert. by destruct (decide (name = k)).
  - destruct (env !! name) as [v|] eqn:Hl.
    + destruct (decide (name = k)) as [<-|]; [by rewrite Hl|done].
    + rewrite lookup_insert. by destruct (decide (name = k)).
Qed.

Lemma lookup_set_validation_env rs (env : Env) k :
  set_validation_env rs env !! k
  = if validate_schema rs then
      if decide ("EV_VALIDATE_SCHEMA" = k) then Some "1" else env !! k
    else
      if decide ("EV_DONT_VALIDATE_SCHEMA" = k)
      then Some (default "" (env !! "EV_DONT_VALIDATE_SCHEMA"))
      else env !! k.
Proof.
  unfold set_validation_env. destruct (validate_schema rs); cbn [negb];
    rewrite lookup_setenv; by repeat case_decide.
Qed.

Section Facts.

Variable MAX : nat.
Variable path_string : path → string.
Variables LIB_DIR NAMESPACE : string.
Variable exec : ExecCall → option string.

Local Abbreviation exec_module := (exec_module MAX path_string LIB_DIR NAMESPACE exec).

Lemma call_of_try_exec proc_handle call arguments :
  call_of (try_exec MAX exec proc_handle call arguments) = call.
Proof. unfold try_exec. by destruct (exec call). Qed.

(** X23. The environment a JavaScript or Python module is exec'ed in:
    [EV_MODULE] is always the module id; [EV_PREFIX] and [EV_CONF_FILE]
    keep the value inherited from the manager's environment and get the
    manager's prefix and config file only when they were unset; and no
    variable other than these three, [NODE_PATH], [PYTHONPATH] and the two
    validation flags is touched.  A native module is exec'ed in the
    inherited environment. *)
Theorem child_environment rs module proc_handle (env : Env) :
  let env' := environment (call_of (exec_module rs module proc_handle env)) in
  (language module = cpp → env' = env)
  ∧ (language module ≠ cpp →
     env' !! "EV_MODULE" = Some (name module)
     ∧ env' !! "EV_PREFIX" = Some (default (path_string (prefix rs)) (env !! "EV_PREFIX"))
     ∧ env' !! "EV_CONF_FILE"
       = Some (default (path_string (config_file rs)) (env !! "EV_CONF_FILE"))
     ∧ ∀ k, k ∉ ["EV_MODULE"; "EV_PREFIX"; "EV_CONF_FILE"; "NODE_PATH"; "PYTHONPATH";
                  "EV_VALIDATE_SCHEMA"; "EV_DONT_VALIDATE_SCHEMA"] →
            env' !! k = env !! k).
Proof.
  intros env'. subst env'. unfold ManagerExec.exec_module.
  assert (Hne' : ∀ k s, k ∉ ["EV_MODULE"; "EV_PREFIX"; "EV_CONF_FILE"; "NODE_PATH";
                             "PYTHONPATH"; "EV_VALIDATE_SCHEMA";
                             "EV_DONT_VALIDATE_SCHEMA"] →
                        s ∈ ["EV_MODULE"; "EV_PREFIX"; "EV_CONF_FILE"; "NODE_PATH";
                             "PYTHONPATH"; "EV_VALIDATE_SCHEMA";
                             "EV_DONT_VALIDATE_SCHEMA"] → s = k → False)
    by (intros k s Hk Hs ->; done).
  destruct (language module) eqn:Hlang; (split; [intros; try done|intros Hne; try done]).
  - unfold exec_cpp_module. by rewrite call_of_try_exec.
  - unfold exec_javascript_module. rewrite call_of_try_exec. cbn [environment].
    (split; [|split; [|split; [|intros k Hk]]]);
      rewrite lookup_set_validation_env, !lookup_setenv;
      destruct (validate_schema rs); repeat case_decide; try done;
      exfalso; (eapply (Hne' k); [done| |done]); set_unfold; tauto.
  - unfold exec_python_module. rewrite call_of_try_exec. cbn [environment].
    (split; [|split; [|split; [|intros k Hk]]]);
      rewrite lookup_set_validation_env, !lookup_setenv;
      destruct (validate_schema rs); repeat case_decide; try done;
      exfalso; (eapply (Hne' k); [done| |done]); set_unfold; tauto.
Qed.

(** X24. The validation flags of a JavaScript or Python module.  With
    schema validation on, [EV_VALIDATE_SCHEMA] is set to 1 and
    [EV_DONT_VALIDATE_SCHEMA] is left as inherited, so that a stale
    [EV_DONT_VALIDATE_SCHEMA] of the manager's environment reaches the
    module next to it.  With validation off, [EV_DONT_VALIDATE_SCHEMA] is
    defined (empty unless inherited) and [EV_VALIDATE_SCHEMA] is left as
    inherited. *)
Theorem child_validation_flags rs module proc_handle (env : Env) :
  language module ≠ cpp →
  let env' := environment (call_of (exec_module rs module proc_handle env)) in
  (validate_schema rs = true →
     env' !! "EV_VALIDATE_SCHEMA" = Some "1"
     ∧ env' !! "EV_DONT_VALIDATE_SCHEMA" = env !! "EV_DONT_VALIDATE_SCHEMA")
  ∧ (validate_schema rs = false →
     env' !! "EV_DONT_VALIDATE_SCHEMA" = Some (default "" (env !! "EV_DONT_VALIDATE_SCHEMA"))
     ∧ env' !! "EV_VALIDATE_SCHEMA" = env !! "EV_VALIDATE_SCHEMA").
Proof.
  intros Hne env'. subst env'. unfold ManagerExec.exec_module.
  destruct (language module) eqn:Hlang; [done| |].
  - unfold exec_javascript_module. rewrite call_of_try_exec. cbn [environment].
    split; intros Hv; (split; rewrite lookup_set_validation_env, Hv, !lookup_setenv;
                       repeat case_decide; done).
  - unfold exec_python_module. rewrite call_of_try_exec. cbn [environment].
    split; intros Hv; (split; rewrite lookup_set_validation_env, Hv, !lookup_setenv;
                       repeat case_decide; done).
Qed.

(** The bytes a child writes after a failed exec start with the text of
    the message. *)
Lemma written_after_failed_exec proc_handle call arguments strerror_errno :
  SystemUnix.pid proc_handle = 0 → (2 ≤ MAX)%nat → Z.of_nat MAX < 2 ^ 64 →
  exec call = Some strerror_errno →
  ∃ e rest,
    try_exec MAX exec proc_handle call arguments = exec_returned call (inr e)
    ∧ SystemUnix.exit_status e = EXIT_FAILURE
    ∧ SystemUnix.written e
      = string_take (MAX - 1) (exec_failed_message (file call) arguments strerror_errno)
    ∧ SystemUnix.written e = String "S" rest.
Proof.
  intros Hchild Hmax Hsize Hexec. unfold try_exec. rewrite Hexec.
  rewrite SystemUnixFacts.send_error_and_exit_written by (done || lia).
  eexists. exists (string_take (MAX - 2)
                     (string_drop 1 (exec_failed_message (file call) arguments strerror_errno))).
  split; [done|]. split; [done|]. split; [done|]. cbn [SystemUnix.written].
  destruct MAX as [|[|k]]; [lia|lia|]. replace (S (S k) - 1)%nat with (S k) by lia.
  replace (S (S k) - 2)%nat with k by lia. reflexivity.
Qed.

(** X25. A failed exec never goes unnoticed.  If the exec call of a module
    returns in the child (pipe message size at least 2), the child writes
    a non-empty message, which starts with "S" (of "Syscall to execv()"),
    and exits with EXIT_FAILURE, and the parent's [check_child_executed]
    on these bytes, instead of returning the pid, throws the runtime error
    whose text is "Forked child process did not complete exec():", a
    newline, and the bytes written (as a C string). *)
Theorem failed_exec_reaches_parent rs module (child parent : SystemUnix.SubProcess)
    (env : Env) (strerror_errno : string) :
  SystemUnix.pid child = 0 →
  SystemUnix.pid parent ≠ 0 →
  (2 ≤ MAX)%nat → Z.of_nat MAX < 2 ^ 64 →
  exec (call_of (exec_module rs module child env)) = Some strerror_errno →
  ∃ e,
    exec_module rs module child env
    = exec_returned (call_of (exec_module rs module child env)) (inr e)
    ∧ SystemUnix.exit_status e = EXIT_FAILURE
    ∧ SystemUnix.written e ≠ ""
    ∧ c_str (SystemUnix.written e) ≠ ""
    ∧ (∃ rest, SystemUnix.written e = String "S" rest)
    ∧ SystemUnix.check_child_executed MAX parent (SystemUnix.read_bytes (SystemUnix.written e))
      = inl (runtime_error
               ("Forked child process did not complete exec():"
                  +:+ String (Ascii.ascii_of_nat 10) (c_str (SystemUnix.written e)))).
Proof.
  intros Hchild Hparent Hmax Hsize Hexec.
  assert (Hgen : ∀ call arguments,
            exec call = Some strerror_errno →
            ∃ e, try_exec MAX exec child call arguments = exec_returned call (inr e)
                 ∧ SystemUnix.exit_status e = EXIT_FAILURE
                 ∧ SystemUnix.written e ≠ ""
                 ∧ c_str (SystemUnix.written e) ≠ ""
                 ∧ (∃ rest, SystemUnix.written e = String "S" rest)
                 ∧ SystemUnix.check_child_executed MAX parent
                     (SystemUnix.read_bytes (SystemUnix.written e))
                   = inl (runtime_error
                            ("Forked child process did not complete exec():"
                               +:+ String (Ascii.ascii_of_nat 10)
                                     (c_str (SystemUnix.written e))))).
  { intros call arguments Hcall.
    destruct (written_after_failed_exec child call arguments strerror_errno
                Hchild Hmax Hsize Hcall) as (e & rest & Hrun & Hexit & _ & Hw).
    exists e. split; [done|]. split; [done|].
    assert (Hne : SystemUnix.written e ≠ "") by (by rewrite Hw).
    split; [done|]. split; [by rewrite Hw|]. split; [by exists rest|].
    by apply SystemUnixFacts.check_child_executed_bytes. }
  revert Hexec. unfold ManagerExec.exec_module.
  destruct (language module);
    unfold exec_cpp_module, exec_javascript_module, exec_python_module;
    rewrite !call_of_try_exec; apply Hgen.
Qed.

End Facts.

Lemma child_validation_flags_witness :
  environment
    (call_of (exec_module 1024 ExtraScenarios.slashes "lib" "everest"
                ExtraScenarios.no_such_file ExtraScenarios.exec_settings
                ExtraScenarios.js_info Scenarios.child_handle ExtraScenarios.inherited))
    !! "EV_DONT_VALIDATE_SCHEMA"
  = Some "".
Proof.
  assert (H1 : language ExtraScenarios.js_info ≠ cpp) by discriminate.
  assert (H2 : validate_schema ExtraScenarios.exec_settings = true) by reflexivity.
  destruct (proj1 (child_validation_flags 1024 ExtraScenarios.slashes "lib" "everest"
                     ExtraScenarios.no_such_file ExtraScenarios.exec_settings
                     ExtraScenarios.js_info Scenarios.child_handle ExtraScenarios.inherited H1)
              H2) as [_ Hstale].
  rewrite Hstale. reflexivity.
Defined.

Lemma failed_exec_reaches_parent_witness :
  ∃ e,
    exec_module 1024 ExtraScenarios.slashes "lib" "everest" ExtraScenarios.no_such_file
      ExtraScenarios.exec_settings ExtraScenarios.js_info Scenarios.child_handle
      ExtraScenarios.inherited
    = exec_returned
        (call_of (exec_module 1024 ExtraScenarios.slashes "lib" "everest"
                    ExtraScenarios.no_such_file ExtraScenarios.exec_settings
                    ExtraScenarios.js_info Scenarios.child_handle ExtraScenarios.inherited))
        (inr e)
    ∧ SystemUnix.written e ≠ "".
Proof.
  assert (H1 : SystemUnix.pid Scenarios.child_handle = 0) by reflexivity.
  assert (H2 : SystemUnix.pid Scenarios.parent_handle ≠ 0) by discriminate.
  assert (H3 : (2 ≤ 1024)%nat) by lia.
  assert (H4 : Z.of_nat 1024 < 2 ^ 64) by reflexivity.
  destruct (failed_exec_reaches_parent 1024 ExtraScenarios.slashes "lib" "everest"
              ExtraScenarios.no_such_file ExtraScenarios.exec_settings ExtraScenarios.js_info
              Scenarios.child_handle Scenarios.parent_handle ExtraScenarios.inherited
              "No such file or directory" H1 H2 H3 H4 eq_refl)
    as (e & Hrun & _ & Hne & _).
  exists e. by split.
Defined.

End ManagerExecFacts.

(** ** The serializer of the schemas *)
Module ConfigSchemasFacts.

Import ConfigSchemas.

Section Facts.

Context {json : Type}.

Implicit Types (s : schemas json) (j : value json) (members : gmap string json).

Lemma from_json_to_json s : from_json (to_json s) = inr s.
Proof. by destruct s. Qed.

Lemma elem_of_keys k :
  k ∈ keys ↔ k = "config" ∨ k = "manifest" ∨ k = "interface" ∨ k = "type"
             ∨ k = "error_declaration_list".
Proof.
  unfold keys. rewrite !elem_of_cons, elem_of_nil. tauto.
Qed.

(** X26. Serializing and reading back gives the same [schemas]: every
    field survives [to_json] followed by [from_json]; the object written
    has exactly the five keys; and so two values with the same serialized
    form are equal. *)
Theorem schemas_round_trip s :
  from_json (to_json s) = inr s
  ∧ (∃ members, to_json s = object members
                ∧ ∀ k, is_Some (members !! k) ↔ k ∈ keys)
  ∧ ∀ s', to_json s' = to_json s → s' = s.
Proof.
  split; [apply from_json_to_json|]. split.
  - eexists. split; [reflexivity|]. intros k. rewrite elem_of_keys.
    rewrite !lookup_insert, lookup_empty.
    repeat case_decide; subst; split; intros Hk; try (by eexists); try tauto.
    + by destruct Hk as [? ?].
    + exfalso. destruct Hk as [->|[->|[->|[->| ->]]]]; congruence.
  - intros s' Heq. pose proof (from_json_to_json s') as H'.
    rewrite Heq, from_json_to_json in H'. by simplify_eq.
Qed.

(** [from_json] on an object, by the first key that is missing. *)
Lemma from_json_object members :
  (∃ s, from_json (object members) = inr s
        ∧ members !! "config" = Some (config s)
        ∧ members !! "manifest" = Some (manifest s)
        ∧ members !! "interface" = Some (interface s)
        ∧ members !! "type" = Some (type s)
        ∧ members !! "error_declaration_list" = Some (error_declaration_list s))
  ∨ (∃ k, from_json (object members) = inl (out_of_range k)
          ∧ k ∈ keys ∧ members !! k = None).
Proof.
  unfold from_json, at_.
  destruct (members !! "config") as [c|] eqn:Hc;
    [|right; exists "config"; rewrite elem_of_keys; tauto].
  destruct (members !! "manifest") as [m|] eqn:Hm;
    [|right; exists "manifest"; rewrite elem_of_keys; tauto].
  destruct (members !! "interface") as [i|] eqn:Hi;
    [|right; exists "interface"; rewrite elem_of_keys; tauto].
  destruct (members !! "type") as [t|] eqn:Ht;
    [|right; exists "type"; rewrite elem_of_keys; tauto].
  destruct (members !! "error_declaration_list") as [l|] eqn:Hl;
    [|right; exists "error_declaration_list"; rewrite elem_of_keys; tauto].
  left. eexists. split; [reflexivity|]. by cbn.
Qed.

(** X27. [from_json] needs exactly the five keys.  On an object it
    succeeds if and only if all five are present; the result then holds
    their values, whatever else the object contains.  When it fails on an
    object it throws [out_of_range] for a key that is missing, and on a
    value that is not an object it throws as well. *)
Theorem from_json_needs_all_keys members :
  ((∀ k, k ∈ keys → is_Some (members !! k))
   ↔ ∃ s, from_json (object members) = inr s)
  ∧ (∀ s, from_json (object members) = inr s →
       members !! "config" = Some (config s)
       ∧ members !! "manifest" = Some (manifest s)
       ∧ members !! "interface" = Some (interface s)
       ∧ members !! "type" = Some (type s)
       ∧ members !! "error_declaration_list" = Some (error_declaration_list s))
  ∧ (∀ e, from_json (object members) = inl e →
       ∃ k, k ∈ keys ∧ members !! k = None ∧ e = out_of_range k)
  ∧ ∃ e, from_json (not_an_object : value json) = inl e.
Proof.
  destruct (from_json_object members)
    as [(s & Hs & Hc & Hm & Hi & Ht & Hl)|(k & Hk & Hin & Hnone)].
  - split; [split|split; [|split]].
    + intros _. by eexists.
    + intros _ k Hk. apply elem_of_keys in Hk.
      destruct Hk as [->|[->|[->|[->| ->]]]]; by eexists.
    + intros s' Hs'. rewrite Hs in Hs'. by simplify_eq.
    + intros e He. rewrite Hs in He. discriminate.
    + by eexists.
  - split; [split|split; [|split]].
    + intros Hall. destruct (Hall k Hin) as [v Hv]. congruence.
    + intros [s Hs]. rewrite Hk in Hs. discriminate.
    + intros s Hs. rewrite Hk in Hs. discriminate.
    + intros e He. rewrite Hk in He. exists k. by simplify_eq.
    + by eexists.
Qed.

End Facts.

End ConfigSchemasFacts.

(** ** Ready messages that arrive while the manager still registers *)
Module RegistrationRaceFacts.

Import Json Manager ManagerSpec.

Section Race.

Variables (fs : FileSystem) (rs : RuntimeSettings) (config : Config).
Variables (ignored_modules standalone_modules : list string).

Local Abbreviation loop :=
  (start_modules_loop fs rs config ignored_modules standalone_modules).

(** The registration loop over a config is the loop over its first
    items followed by the loop over the remaining ones. *)
Lemma start_modules_loop_app before rest acc :
  loop (before ++ rest) acc
  = match loop before acc with
    | inl e => inl e
    | inr acc' => loop rest acc'
    end.
Proof.
  revert acc. induction before as [|item before IH]; intros acc; [done|].
  cbn [app start_modules_loop].
  destruct (start_modules_item _ _ _ _ _ item acc); [done|]. apply IH.
Qed.

(** X29. [boot] starts the broker thread before it calls
    [start_modules], and [start_modules] registers the ready handlers one
    by one inside its loop, so ready messages can be handled between two
    iterations.  If the modules registered so far (at least one) are all
    ready at such a moment, the handler publishes the global ready
    signal although the remaining modules of the config are not
    registered yet; when the loop then registers them, the signal has
    been published while they are in the ready table with their flag
    unset. *)
Theorem ready_during_registration_publishes_early
    (before rest : list (string * ModuleEntry)) (w_init w0 : World)
    (l : list ModuleStartInfo) (msgs : list (string * json)) :
  modules_ready w_init = ∅ →
  loop before (w_init, []) = inr (w0, l) →
  (∀ m p, (m, p) ∈ msgs → ∃ b, p = boolean b) →
  (∃ n e, (n, e) ∈ before ∧ contains ignored_modules n = false) →
  ∃ w,
    run_ready msgs w0 = inr w
    ∧ ((∀ n e, (n, e) ∈ before → contains ignored_modules n = false →
               is_ready (modules_ready w) n = true) →
       global_ready rs ∈ mqtt_published w
       ∧ ∀ w' l',
           loop rest (w, l) = inr (w', l') →
           global_ready rs ∈ mqtt_published w'
           ∧ ∀ n e, (n, e) ∈ rest → contains ignored_modules n = false →
                    n ∉ before.*1 →
                    is_Some (modules_ready w' !! n)
                    ∧ is_ready (modules_ready w') n = false).
Proof.
  intros Hempty Hloop Hbool (n0 & e0 & Hin0 & Hign0).
  destruct (BarrierFacts.start_modules_loop_table _ _ _ _ _ _ _ _ _ _ Hloop)
    as (Hp0 & _ & Hdom0 & Hreg0 & Hflag0).
  assert (Hdom0' : ∀ n, is_Some (modules_ready w0 !! n)
            ↔ ∃ e, (n, e) ∈ before ∧ contains ignored_modules n = false).
  { intros n. rewrite Hdom0, Hempty, lookup_empty. split; [|by right].
    intros [H|H]; [by destruct H|done]. }
  assert (Hfalse : ∀ n, is_ready (modules_ready w0) n = false).
  { intros n. rewrite Hflag0. unfold is_ready. by rewrite Hempty, lookup_empty. }
  assert (Hinv0 : barrier_inv rs standalone_modules (mqtt_published w_init) w0 [] 0).
  { split; [|split; [|split; [|split]]].
    - apply Hreg0. intros n info. by rewrite Hempty, lookup_empty.
    - by rewrite Hp0, app_nil_r.
    - intros n. by rewrite Hfalse.
    - lia.
    - intros Hall Hne. exfalso.
      destruct (map_choose _ Hne) as (n & info & Hl).
      pose proof (proj1 (BarrierFacts.all_ready_spec _) Hall n info Hl) as Hr.
      pose proof (Hfalse n) as Hf. unfold is_ready in Hf. rewrite Hl in Hf. congruence. }
  destruct (BarrierFacts.barrier_inv_run rs standalone_modules _ msgs w0 [] 0 Hinv0 Hbool)
    as (w & k & Hrun & (Hreg & Hpub & Hflags & Hk & Hall) & Hdom).
  exists w. split; [exact Hrun|]. intros Hready.
  assert (Hk0 : (0 < k)%nat).
  { apply Hall.
    - apply BarrierFacts.all_ready_spec. intros n info Hl.
      assert (Hs : is_Some (modules_ready w0 !! n)) by (apply Hdom; by eexists).
      apply Hdom0' in Hs as (e & Hin & Hign).
      specialize (Hready n e Hin Hign). unfold is_ready in Hready. by rewrite Hl in Hready.
    - assert (Hs : is_Some (modules_ready w !! n0)) by (apply Hdom, Hdom0'; by exists e0).
      intros Heq. rewrite Heq, lookup_empty in Hs. by destruct Hs. }
  assert (Hearly : global_ready rs ∈ mqtt_published w).
  { rewrite Hpub. apply elem_of_app. right. destruct k as [|k]; [lia|].
    cbn [replicate]. apply list_elem_of_here. }
  split; [exact Hearly|]. intros w' l' Hrest.
  destruct (BarrierFacts.start_modules_loop_table _ _ _ _ _ _ _ _ _ _ Hrest)
    as (Hp1 & _ & Hdom1 & _ & Hflag1).
  split; [by rewrite Hp1|]. intros n e Hin Hign Hnew. split.
  - apply Hdom1. right. by exists e.
  - rewrite Hflag1. unfold is_ready.
    destruct (modules_ready w !! n) as [info|] eqn:Hl; [|done].
    exfalso. apply Hnew.
    assert (Hs : is_Some (modules_ready w0 !! n)) by (apply Hdom; by eexists).
    apply Hdom0' in Hs as (e' & Hin' & _).
    apply list_elem_of_fmap. by exists (n, e').
Qed.

End Race.

Lemma ready_during_registration_publishes_early_witness :
  ∃ w,
    run_ready [("s", boolean true)]
      ExtraScenarios.after_first_item = inr w
    ∧ mqtt_published w = [("everest/ready", boolean true)]
    ∧ ∀ w' l',
        start_modules_loop Scenarios.all_binaries Scenarios.rs ExtraScenarios.standalone_first
          [] ["s"] (drop 1 (main_config ExtraScenarios.standalone_first)) (w, [])
        = inr (w', l') →
        is_ready (modules_ready w') "b" = false
        ∧ global_ready Scenarios.rs ∈ mqtt_published w'.
Proof.
  assert (H1 : modules_ready initial_world = ∅) by reflexivity.
  assert (H2 : start_modules_loop Scenarios.all_binaries Scenarios.rs
                 ExtraScenarios.standalone_first [] ["s"]
                 [("s", Scenarios.entry "S" true)] (initial_world, [])
               = inr (ExtraScenarios.after_first_item, []))
    by (vm_compute; reflexivity).
  assert (H3 : ∀ m p, (m, p) ∈ [("s", boolean true)] → ∃ b, p = boolean b).
  { intros m p Hin. apply list_elem_of_singleton in Hin. injection Hin as -> ->. by exists true. }
  assert (H4 : ∃ n e, (n, e) ∈ [("s", Scenarios.entry "S" true)] ∧ contains [] n = false).
  { exists "s", (Scenarios.entry "S" true). split; [apply list_elem_of_here|reflexivity]. }
  destruct (ready_during_registration_publishes_early Scenarios.all_binaries Scenarios.rs
              ExtraScenarios.standalone_first [] ["s"]
              [("s", Scenarios.entry "S" true)] [("b", Scenarios.entry "B" false)]
              _ _ _ _ H1 H2 H3 H4) as (w & Hrun & Hearly).
  exists w. split; [exact Hrun|].
  assert (Hw : run_ready [("s", boolean true)]
                 ExtraScenarios.after_first_item
               = inr w) by exact Hrun.
  vm_compute in Hw. injection Hw as <-.
  split; [reflexivity|]. intros w' l' Hrest.
  destruct Hearly as [_ Hlate].
  { intros n e Hin _. apply list_elem_of_singleton in Hin. injection Hin as -> _. reflexivity. }
  destruct (Hlate w' l' Hrest) as [Hpub Hb]. split; [|exact Hpub].
  apply (Hb "b" (Scenarios.entry "B" false)); [apply list_elem_of_here|reflexivity|].
  intros Hin. apply list_elem_of_singleton in Hin. discriminate.
Defined.

End RegistrationRaceFacts.
